(** * deepcell-tracking: [deepcell_tracking/utils.py]

    A shallow embedding of the lineage validator ([is_valid_lineage]),
    the lineage relabeler ([relabel_sequential_lineage]), the track
    container codec ([load_trks], [save_trk], [save_trks],
    [save_track_data]), the batch importer ([trk_folder_to_trks]) and
    the cell counter ([get_max_cells]) of [utils.py], followed by the
    properties of the specification that concern them and by further
    properties of the code.  A count of cells is a [nat].

    Python values are embedded as follows.
    - Python integers (cell ids, frame indices, pixel values) are [Z].
    - A cell record [{label, parent, daughters, frames}] is the record
      [cell]; [parent] is [None] for a null (or absent) parent.
    - A [dict] is an association list in insertion order, the order in
      which [.items()] yields it; lookups take the first binding, and a
      [dict] proper has no repeated key.
    - A [set] of cell ids is a [gset Z].
    - A label volume is a list of frames, a frame a list of rows.
    - A string is a [string] of the first 256 code points of Unicode,
      one character each.
    - A raised exception is the [Raise] case of [result], and a function
      that reads or writes files takes the [world] it runs in.
    [warnings.warn] only prints a diagnostic and is left out.

    Library code is embedded by what it does on the values above:
    [numpy] on label volumes, [skimage]'s [relabel_sequential] and its
    forward map, [os.path], [int] and [str], [sorted], [re.split], and
    the archive ([tarfile], [np.save] and [np.load], [json]) at the
    level of its named members.  What the operating system makes of a
    path (which file it leads to, or which error) is read from the
    [world]; a [BytesIO] buffer has a position. *)

From Stdlib Require Import ZArith String Ascii List.
From Stdlib Require Import Decimal DecimalString DecimalPos DecimalZ.
From Stdlib Require Import Permutation Sorted.
From stdpp Require Import gmap strings list.

Set Warnings "-clear-no-such-hyp".

Open Scope string_scope.
Open Scope Z_scope.

(** ** Exceptions and results *)

(** [ValueError msg] carries the message of the errors that [utils.py]
    raises itself; the message of an error that a library raises is not
    kept, and [msg] is then the call that raised it, as in [int(...)].
    [OSError name] is an error of the operating system other than
    [FileNotFoundError], under the name of its class.  [Undetermined]
    is no exception: it stands for the outcome of a library call that
    the embedding does not follow (it says of which where it is
    used), and no property below is stated of such a call. *)
Inductive exn : Type :=
  | KeyError
  | IndexError
  | TypeError
  | FileNotFoundError
  | ReadError
  | ValueError (msg : string)
  | OSError (name : string)
  | Undetermined.

Inductive result (A : Type) : Type :=
  | Ok (a : A)
  | Raise (e : exn).
Arguments Ok {A} a.
Arguments Raise {A} e.

#[export] Instance result_ret : MRet result := fun _ a => Ok a.
#[export] Instance result_bind : MBind result := fun _ _ f m =>
  match m with
  | Ok a => f a
  | Raise e => Raise e
  end.
#[export] Instance result_fmap : FMap result := fun _ _ f m =>
  match m with
  | Ok a => Ok (f a)
  | Raise e => Raise e
  end.

#[export] Instance exn_eq_dec : EqDecision exn.
Proof. solve_decision. Defined.

Definition is_ok {A} (m : result A) : Prop := exists a, m = Ok a.

(** ** Data model *)

Record cell : Type := Cell {
  label : Z;
  parent : option Z;
  daughters : list Z;
  frames : list Z
}.

#[export] Instance cell_eq_dec : EqDecision cell.
Proof. solve_decision. Defined.

(** A Python [dict] with keys in [K]. *)
Definition dict (K V : Type) : Type := list (K * V).

Section Dict.
Context {K V : Type} `{EqDecision K}.

(** [d[k]], [None] standing for the [KeyError]. *)
Fixpoint dict_get (d : dict K V) (k : K) : option V :=
  match d with
  | [] => None
  | (k', v) :: d' => if decide (k' = k) then Some v else dict_get d' k
  end.

(** [k in d] *)
Definition dict_mem (d : dict K V) (k : K) : bool :=
  match dict_get d k with Some _ => true | None => false end.

(** [d[k] = v]: an existing key keeps its position. *)
Fixpoint dict_set (d : dict K V) (k : K) (v : V) : dict K V :=
  match d with
  | [] => [(k, v)]
  | (k', v') :: d' =>
      if decide (k' = k) then (k, v) :: d' else (k', v') :: dict_set d' k v
  end.

(** [d[k]] as an expression that may raise. *)
Definition dict_lookup (d : dict K V) (k : K) : result V :=
  match dict_get d k with
  | Some v => Ok v
  | None => Raise KeyError
  end.

Definition dict_keys (d : dict K V) : list K := d.*1.
End Dict.

Definition lineage_t : Type := dict Z cell.

Definition frame_t : Type := list (list Z).
Definition volume : Type := list frame_t.

(** ** numpy on label volumes *)

Fixpoint insert_sorted (x : Z) (l : list Z) : list Z :=
  match l with
  | [] => [x]
  | h :: t =>
      if x <? h then x :: l
      else if x =? h then l
      else h :: insert_sorted x t
  end.

Definition pixels (y : volume) : list Z := concat (concat y).

(** [np.unique(y)]: the distinct values of [y] in ascending order. *)
Definition np_unique (y : volume) : list Z := foldr insert_sorted [] (pixels y).

(** [c[c != 0]] *)
Definition nonzero_ids (l : list Z) : list Z := filter (fun c => c <> 0) l.

(** [np.any(y == c, axis=(1, 2))] *)
Definition frame_has (c : Z) (f : frame_t) : bool :=
  existsb (existsb (Z.eqb c)) f.
Definition any_axis12 (y : volume) (c : Z) : list bool := map (frame_has c) y.

(** [b.nonzero()[0]] from index [i] on. *)
Fixpoint nonzero_from (i : nat) (b : list bool) : list Z :=
  match b with
  | [] => []
  | x :: b' =>
      if x then Z.of_nat i :: nonzero_from (S i) b' else nonzero_from (S i) b'
  end.

(** [list(np.any(y == c, axis=(1, 2)).nonzero()[0])] *)
Definition cell_frames (y : volume) (c : Z) : list Z :=
  nonzero_from 0 (any_axis12 y c).

(** ** Sequence indexing *)

(** [l[0]] *)
Definition first_item (l : list Z) : result Z :=
  match l with
  | [] => Raise IndexError
  | x :: _ => Ok x
  end.

(** [l[-1]] *)
Definition last_item (l : list Z) : result Z :=
  match last l with
  | None => Raise IndexError
  | Some x => Ok x
  end.

(** [s.remove(x)] *)
Definition set_remove (s : gset Z) (x : Z) : result (gset Z) :=
  if decide (x ∈ s) then Ok (s ∖ {[x]}) else Raise KeyError.

(** ** [is_valid_lineage] *)

Module Validator.

(** [all_cells = set([c for c in np.unique(y) if c])] *)
Definition image_cells (y : volume) : gset Z :=
  list_to_set (nonzero_ids (np_unique y)).

(** The loop over [cell_lineage['daughters']]; [Some b] is [return b],
    [None] is the loop running to its end. *)
Fixpoint daughters_loop (lineage : lineage_t) (all_cells : gset Z)
    (last_parent_frame : Z) (ds : list Z) : result (option bool) :=
  match ds with
  | [] => Ok None
  | daughter :: ds' =>
      if bool_decide (daughter ∉ all_cells) || negb (dict_mem lineage daughter)
      then Ok (Some false)
      else
        match dict_lookup lineage daughter ≫= (fun r => first_item (frames r)) with
        | Raise IndexError => Ok (Some false)
        | Raise e => Raise e
        | Ok first_daughter_frame =>
            if bool_decide (first_daughter_frame - last_parent_frame <> 1)
            then Ok (Some false)
            else daughters_loop lineage all_cells last_parent_frame ds'
        end
  end.

(** The [if parent:] block. *)
Definition parent_check (lineage : lineage_t) (cell_lineage : cell)
    : result (option bool) :=
  match parent cell_lineage with
  | None => Ok None
  | Some p =>
      if bool_decide (p = 0) then Ok None
      else
        match dict_lookup lineage p with
        | Raise KeyError => Ok (Some false)
        | Raise e => Raise e
        | Ok parent_lineage =>
            match
              last_parent_frame ← last_item (frames parent_lineage);
              first_daughter_frame ← first_item (frames cell_lineage);
              mret (last_parent_frame, first_daughter_frame)
            with
            | Raise IndexError => Ok (Some false)
            | Raise e => Raise e
            | Ok (last_parent_frame, first_daughter_frame) =>
                if bool_decide (first_daughter_frame - last_parent_frame <> 1)
                then Ok (Some false)
                else Ok None
            end
        end
  end.

(** One iteration of [for cell_label, cell_lineage in lineage.items()]:
    [inl b] is [return b], [inr s] hands the updated [all_cells] to the
    next iteration. *)
Definition record_step (y : volume) (lineage : lineage_t) (all_cells : gset Z)
    (cell_label : Z) (cell_lineage : cell) : result (bool + gset Z) :=
  if bool_decide (cell_label ∉ all_cells) then Ok (inl false)
  else
    all_cells' ← set_remove all_cells cell_label;
    if bool_decide (cell_frames y cell_label <> frames cell_lineage)
    then Ok (inl false)
    else
      last_parent_frame ← last_item (frames cell_lineage);
      d ← daughters_loop lineage all_cells' last_parent_frame
            (daughters cell_lineage);
      match d with
      | Some b => Ok (inl b)
      | None =>
          p ← parent_check lineage cell_lineage;
          match p with
          | Some b => Ok (inl b)
          | None => Ok (inr all_cells')
          end
      end.

Fixpoint records_loop (y : volume) (lineage : lineage_t) (all_cells : gset Z)
    (items : list (Z * cell)) : result (bool + gset Z) :=
  match items with
  | [] => Ok (inr all_cells)
  | (cell_label, cell_lineage) :: items' =>
      r ← record_step y lineage all_cells cell_label cell_lineage;
      match r with
      | inl b => Ok (inl b)
      | inr all_cells' => records_loop y lineage all_cells' items'
      end
  end.

Definition is_valid_lineage (y : volume) (lineage : lineage_t) : result bool :=
  r ← records_loop y lineage (image_cells y) lineage;
  match r with
  | inl b => Ok b
  | inr all_cells => if bool_decide (all_cells <> ∅) then Ok false else Ok true
  end.

(** The link from a record to its declared parent [p] is broken: [p]
    has no record, or one of the two frame lists is empty, or the
    record's first frame minus the parent's last frame is not 1. *)
Definition parent_link_broken (lineage : lineage_t) (r : cell) (p : Z) : Prop :=
  match dict_get lineage p with
  | None => True
  | Some pr =>
      match head (frames r), last (frames pr) with
      | Some first, Some last => first - last <> 1
      | _, _ => True
      end
  end.

End Validator.

(** ** [relabel_sequential_lineage] *)

Module Relabeler.

(** Position of [d] in [l]. *)
Fixpoint index_of (d : Z) (l : list Z) : option nat :=
  match l with
  | [] => None
  | x :: l' => if decide (x = d) then Some O else S <$> index_of d l'
  end.

(** [skimage.segmentation.relabel_sequential], a library function that
    [utils.py] imports.  It raises a [ValueError] on a volume without a
    pixel ([np.min] of it) and on a volume with a negative pixel.  On
    any other label volume it numbers the distinct non-zero values
    [1..K], in ascending order of the old value, and returns the volume
    with every value replaced by its number together with the forward
    map; the forward map sends an old value to its number and every
    other value, [0] included, to [0] ("missing labels get mapped to
    0").  The forward map is kept as the list of the old values in the
    order of their numbers. *)
Definition forward_map : Type := list Z.

(** The number that the forward map holds for [d]. *)
Definition fw_get (fw : forward_map) (d : Z) : Z :=
  match index_of d fw with
  | Some i => Z.of_nat (S i)
  | None => 0
  end.

(** [np.array([d])] has an integer dtype: [int64], or [uint64] from
    [2^63] on.  Of an integer beyond, numpy makes an array of objects. *)
Definition numpy_int (d : Z) : bool := bool_decide (- 2 ^ 63 <= d < 2 ^ 64).

(** [fw[d]]: the forward map makes the array [np.array([d])] of the
    index and refuses one that is not of an integer dtype. *)
Definition fw_getitem (fw : forward_map) (d : Z) : result Z :=
  if numpy_int d then Ok (fw_get fw d) else Raise TypeError.

Definition relabel_error : exn := ValueError "relabel_sequential(...)".

(** [np.min(y)] *)
Definition np_min (y : volume) : result Z :=
  match pixels y with
  | [] => Raise relabel_error
  | p :: ps => Ok (foldl Z.min p ps)
  end.

Definition relabel_sequential (y : volume) : result (volume * forward_map) :=
  m ← np_min y;
  if bool_decide (m < 0) then Raise relabel_error
  else
    let fw := nonzero_ids (np_unique y) in
    Ok (map (map (map (fw_get fw))) y, fw).

(** The loop over [daughters], threading the list it appends to: a
    daughter mapped to [0] is dropped. *)
Fixpoint daughters_loop (fw : forward_map) (ds : list Z) (new_daughters : list Z)
    : result (list Z) :=
  match ds with
  | [] => Ok new_daughters
  | d :: ds' =>
      new_daughter ← fw_getitem fw d;
      if bool_decide (new_daughter = 0) then daughters_loop fw ds' new_daughters
      else daughters_loop fw ds' (new_daughters ++ [new_daughter])
  end.

(** The loop [for cell_id in cell_ids], threading [new_lineage]. *)
Fixpoint cells_loop (y : volume) (fw : forward_map) (lineage : lineage_t)
    (cell_ids : list Z) (new_lineage : lineage_t) : result lineage_t :=
  match cell_ids with
  | [] => Ok new_lineage
  | cell_id :: cell_ids' =>
      new_cell_id ← fw_getitem fw cell_id;
      old ← dict_lookup lineage cell_id;
      new_parent ← match parent old with
                   | Some p => Some <$> fw_getitem fw p
                   | None => Ok None
                   end;
      new_daughters ← daughters_loop fw (daughters old) [];
      let new_frames := cell_frames y cell_id in
      cells_loop y fw lineage cell_ids'
        (dict_set new_lineage new_cell_id
           {| label := new_cell_id; parent := new_parent;
              daughters := new_daughters; frames := new_frames |})
  end.

Definition relabel_sequential_lineage (y : volume) (lineage : lineage_t)
    : result (volume * lineage_t) :=
  '(y_relabel, fw) ← relabel_sequential y;
  let cell_ids := nonzero_ids (np_unique y) in
  new_lineage ← cells_loop y fw lineage cell_ids [];
  mret (y_relabel, new_lineage).


End Relabeler.

(** ** Python strings *)

Module PyStr.

(** The digits [0-9]. *)
Definition is_digit (c : ascii) : bool :=
  (48 <=? nat_of_ascii c)%nat && (nat_of_ascii c <=? 57)%nat.

(** The characters that [str.isdigit] takes for digits: [0-9] and the
    superscripts two, three and one (U+00B2, U+00B3, U+00B9). *)
Definition is_unicode_digit (c : ascii) : bool :=
  let n := nat_of_ascii c in
  is_digit c || (n =? 178)%nat || (n =? 179)%nat || (n =? 185)%nat.

(** The white space that [int] skips around a number: the characters
    9 to 13 and the space, and, which can only be in a string with a
    character beyond ASCII, U+0085 and U+00A0. *)
Definition is_space (c : ascii) : bool :=
  let n := nat_of_ascii c in
  ((9 <=? n)%nat && (n <=? 13)%nat) || (n =? 32)%nat
  || (n =? 133)%nat || (n =? 160)%nat.

Fixpoint lstrip (s : list ascii) : list ascii :=
  match s with
  | [] => []
  | c :: s' => if is_space c then lstrip s' else s
  end.

Definition strip (s : list ascii) : list ascii :=
  rev (lstrip (rev (lstrip s))).

(** The characters of the decimal numeral [u]. *)
Definition numeral (u : uint) : list ascii :=
  list_ascii_of_string (NilEmpty.string_of_uint u).

(** [str(k)] for an integer [k], when it returns. *)
Definition str_of_int (k : Z) : string :=
  NilZero.string_of_int (Z.to_int k).

(** The number of decimal digits of [k]. *)
Definition int_digits (k : Z) : nat :=
  String.length (str_of_int (Z.abs k)).

(** The conversions between [int] and decimal text refuse more than
    4300 digits ([sys.get_int_max_str_digits()]). *)
Definition max_str_digits : nat := 4300.

(** The digits of a decimal literal, with the underscores that Python
    allows between two digits taken out; [prev] tells whether the
    character before was a digit. *)
Fixpoint literal_digits (prev : bool) (s : list ascii) : option (list ascii) :=
  match s with
  | [] => if prev then Some [] else None
  | c :: s' =>
      if is_digit c then cons c <$> literal_digits true s'
      else if decide (c = "_"%char)
           then if prev then literal_digits false s' else None
           else None
  end.

Definition int_error : exn := ValueError "int(...)".

(** [int(s)] for a string [s]: surrounding white space, an optional
    sign, decimal digits; no more than [max_str_digits] digits. *)
Definition int_of_str (s : string) : result Z :=
  let t := strip (list_ascii_of_string s) in
  let '(negative, body) :=
    match t with
    | c :: r =>
        if decide (c = "-"%char) then (true, r)
        else if decide (c = "+"%char) then (false, r)
        else (false, t)
    | [] => (false, t)
    end in
  match literal_digits false body with
  | Some ds =>
      if (max_str_digits <? length ds)%nat then Raise int_error
      else
        match NilEmpty.uint_of_string (string_of_list_ascii ds) with
        | Some u => Ok (if negative : bool then - Z.of_uint u else Z.of_uint u)
        | None => Raise int_error
        end
  | None => Raise int_error
  end.

(** [s.isdigit()] *)
Definition isdigit (s : string) : bool :=
  match list_ascii_of_string s with
  | [] => false
  | l => forallb is_unicode_digit l
  end.

End PyStr.

(** ** [os.path] (POSIX) *)

Module OsPath.

(** [p.rfind(c)], [-1] when [c] does not occur; [i] is the index of
    the first character of [p]. *)
Fixpoint rfind_from (i : Z) (c : ascii) (p : list ascii) : Z :=
  match p with
  | [] => -1
  | x :: p' =>
      let r := rfind_from (i + 1) c p' in
      if bool_decide (r = -1) then (if decide (x = c) then i else -1) else r
  end.
Definition rfind (c : ascii) (p : list ascii) : Z := rfind_from 0 c p.

(** [os.path.splitext(p)]: the extension starts at the last dot of the
    last path component, leading dots of the component apart. *)
Definition splitext (p : string) : string * string :=
  let l := list_ascii_of_string p in
  let sepIndex := rfind "/"%char l in
  let dotIndex := rfind "."%char l in
  if bool_decide (dotIndex > sepIndex)
     && existsb (fun c => negb (bool_decide (c = "."%char)))
          (take (Z.to_nat (dotIndex - (sepIndex + 1)))
             (drop (Z.to_nat (sepIndex + 1)) l))
  then (string_of_list_ascii (take (Z.to_nat dotIndex) l),
        string_of_list_ascii (drop (Z.to_nat dotIndex) l))
  else (p, "").

Definition starts_with_sep (p : string) : bool :=
  match p with
  | String "/" _ => true
  | _ => false
  end.

Definition ends_with_sep (p : string) : bool :=
  match last (list_ascii_of_string p) with
  | Some c => bool_decide (c = "/"%char)
  | None => false
  end.

(** [os.path.join(a, b)] *)
Definition join (a b : string) : string :=
  if starts_with_sep b then b
  else if bool_decide (a = "") || ends_with_sep a then a ++ b
  else a ++ "/" ++ b.

Fixpoint rstrip_sep (l : list ascii) : list ascii :=
  match l with
  | [] => []
  | c :: l' =>
      match rstrip_sep l' with
      | [] => if decide (c = "/"%char) then [] else [c]
      | r => c :: r
      end
  end.

(** [os.path.dirname(p)] *)
Definition dirname (p : string) : string :=
  let l := list_ascii_of_string p in
  let head := take (Z.to_nat (rfind "/"%char l + 1)) l in
  if forallb (fun c => bool_decide (c = "/"%char)) head
  then string_of_list_ascii head
  else string_of_list_ascii (rstrip_sep head).

End OsPath.

(** ** The track container codec *)

Module Codec.

(** An array as a [.npy] file holds it: the dtype as the header spells
    it, the shape, and the bytes of the elements in row-major order. *)
Record npy : Type := Npy {
  dtype : string;
  shape : list nat;
  data : list Byte.byte
}.

(** A value that is passed as [raw] or [tracked], and that [np.load]
    returns: an array, or a Python list of such values (the importer
    passes the lists it has filled). *)
#[warnings="-register-all"]
Inductive ndarray : Type :=
  | NdArray (dtype : string) (shape : list nat) (data : list Byte.byte)
  | ListOf (l : list ndarray).

(** The [lineages] argument of the save path: one mapping, or a list
    of mappings. *)
Inductive lineages_arg : Type :=
  | OneLineage (d : lineage_t)
  | LineageList (l : list lineage_t).

(** A JSON document of the lineage entry: an object whose keys are
    strings and whose values are cell records, or an array of such
    objects.  A cell record of integers, null and integer lists is
    the same value on both sides of [json.dump] and [json.loads]. *)
Inductive json : Type :=
  | JObject (items : list (string * cell))
  | JArray (objs : list (list (string * cell))).

(** What [json.loads] returns for such a document. *)
Inductive json_value : Type :=
  | PyDict (d : dict string cell)
  | PyList (l : list (dict string cell)).

(** The content of an archive member: an array, or a lineage
    document. *)
Inductive content : Type :=
  | NpyFile (a : npy)
  | JsonFile (j : json).

(** A tar archive: its members in the order they were added. *)
Definition archive : Type := list (string * content).

(** What a file, or a run of bytes of a buffer, holds: an archive as
    [tarfile] closes it; an archive that an exception ended, a
    compressed stream of the members added before the exception and
    without the mark of the end of an archive; or bytes that [tarfile]
    does not read. *)
Inductive file : Type :=
  | TarFile (a : archive)
  | Unfinished (a : archive)
  | OtherFile.

Inductive target : Type :=
  | Path (name : string)
  | BytesIO (id : nat).

(** *** The world *)

Inductive access : Type := Reading | Writing.

(** What [open] and [os.listdir] raise for a path: [FileNotFoundError],
    the [ValueError] of a path with a null byte, or another [OSError],
    under the name of its class ([IsADirectoryError],
    [PermissionError], ...). *)
Inductive os_error : Type :=
  | NoSuchFile
  | NullByte
  | OtherError (name : string).

Definition raise_os (e : os_error) : exn :=
  match e with
  | NoSuchFile => FileNotFoundError
  | NullByte => ValueError "embedded null byte"
  | OtherError name => OSError name
  end.

Definition os_result {A} (r : os_error + A) : result A :=
  match r with
  | inl e => Raise (raise_os e)
  | inr a => Ok a
  end.

(** What a path leads to: a file, by its number (two paths to one file
    lead to one number), with the directory and the name under which
    the file is listed, or will be listed once it is created. *)
Record file_ref : Type := FileRef {
  inode : nat;
  folder : nat;
  entry : string
}.

(** A [BytesIO] buffer: the archives that were written into it, one
    after the other, those [before] its position and those [after];
    [junk] tells that bytes which the embedding does not follow come
    after them (what is left of an archive that was written over). *)
Record bytesio : Type := Buffer {
  before : list file;
  after : list file;
  junk : bool
}.

(** What the operating system makes of a path is given with the
    world: [open_path w m p] is the file that [open] finds or creates
    for the path [p] in the mode [m], or the error that it raises
    there (no such directory, a directory, no permission, a null
    byte in the path, ...); [open_dir w p] is the directory that
    [os.listdir] finds for [p].  [files] holds the files that exist,
    [listings] what [os.listdir] returns for a directory, and [buffers]
    the [BytesIO] objects. *)
Record world : Type := World {
  open_path : access -> string -> os_error + file_ref;
  open_dir : string -> os_error + nat;
  files : gmap nat file;
  listings : gmap nat (list string);
  buffers : gmap nat bytesio
}.

Definition listing (w : world) (d : nat) : list string :=
  default [] (listings w !! d).

(** A buffer that the world does not hold is a new, empty one. *)
Definition buffer (w : world) (id : nat) : bytesio :=
  default (Buffer [] [] false) (buffers w !! id).

Definition isinstance_BytesIO (filename : target) : bool :=
  match filename with
  | BytesIO _ => true
  | Path _ => false
  end.

(** [str(filename)]; the text that stands for a buffer has no
    extension. *)
Definition str_of_target (filename : target) : string :=
  match filename with
  | Path name => name
  | BytesIO _ => "<_io.BytesIO object>"
  end.

(** What [tarfile.open(mode='r', ...)] makes of bytes that hold no
    archive: an archive without a member, unless they are at the start
    of the file or buffer, where it raises [ReadError]. *)
Definition no_archive (at_start : bool) : result archive :=
  if at_start then Raise ReadError else Ok [].

(** What it makes of an unfinished archive with nothing after it. *)
Definition unfinished (at_start : bool) (a : archive) : result archive :=
  match a with
  | [] => no_archive at_start
  | _ :: _ => Ok a
  end.

(** [tarfile.open(mode='r', ...)].  A file is read from its start.  A
    buffer is read from its position: an archive that starts there is
    read, to its end; an unfinished archive is read when nothing comes
    after it (the reader of the compressed stream goes on into what
    follows, which is [Undetermined]); at the end of what was written,
    and at bytes that are no archive, [tarfile] finds no archive.  What
    it finds in [junk] is [Undetermined]. *)
Definition tarfile_open_r (filename : target) (w : world) : result archive :=
  match filename with
  | Path name =>
      ref ← os_result (open_path w Reading name);
      match files w !! inode ref with
      | Some (TarFile a) => Ok a
      | Some (Unfinished a) => unfinished true a
      | Some OtherFile => no_archive true
      | None => Raise FileNotFoundError
      end
  | BytesIO id =>
      let b := buffer w id in
      let at_start := match before b with [] => true | _ :: _ => false end in
      match after b with
      | TarFile a :: _ => Ok a
      | Unfinished a :: rest =>
          match rest with
          | [] => if junk b then Raise Undetermined else unfinished at_start a
          | _ :: _ => Raise Undetermined
          end
      | OtherFile :: _ => no_archive at_start
      | [] => if junk b then Raise Undetermined else no_archive at_start
      end
  end.

(** [filename.seek(0)], which the caller does between writing a buffer
    and reading it. *)
Definition rewind (id : nat) (w : world) : world :=
  let b := buffer w id in
  {| open_path := open_path w; open_dir := open_dir w;
     files := files w; listings := listings w;
     buffers := <[id := {| before := []; after := before b ++ after b;
                           junk := junk b |}]> (buffers w) |}.

(** What [tarfile.open(mode='w:gz', ...)] writes to. *)
Inductive handle : Type :=
  | ToFile (ref : file_ref)
  | ToBuffer (id : nat).

(** [tarfile.open(mode='w:gz', ...)]: a path is opened for writing. *)
Definition tarfile_open_w (filename : target) (w : world) : result handle :=
  match filename with
  | Path name => ToFile <$> os_result (open_path w Writing name)
  | BytesIO id => Ok (ToBuffer id)
  end.

(** Leaving [with tarfile.open(mode='w:gz', ...)].  A file holds what
    was written and nothing else, and a file that did not exist is now
    listed in its directory ([os.listdir] promises no order; the new
    name is put last).  A buffer is written from its position on: what
    was after the position is written over, and the position is then
    after what was written. *)
Definition tarfile_close (h : handle) (f : file) (w : world) : world :=
  match h with
  | ToFile ref =>
      {| open_path := open_path w; open_dir := open_dir w;
         files := <[inode ref := f]> (files w);
         listings :=
           match files w !! inode ref with
           | Some _ => listings w
           | None =>
               <[folder ref := (listing w (folder ref) ++ [entry ref])%list]>
                 (listings w)
           end;
         buffers := buffers w |}
  | ToBuffer id =>
      let b := buffer w id in
      {| open_path := open_path w; open_dir := open_dir w;
         files := files w; listings := listings w;
         buffers :=
           <[id := {| before := (before b ++ [f])%list; after := [];
                      junk := junk b
                              || match after b with [] => false | _ :: _ => true end |}]>
             (buffers w) |}
  end.

(** [trks.getmember(name)]: the last member of that name. *)
Fixpoint getmember (a : archive) (name : string) : result content :=
  match a with
  | [] => Raise KeyError
  | (n, c) :: a' =>
      match getmember a' name with
      | Ok c' => Ok c'
      | Raise _ => if decide (n = name) then Ok c else Raise KeyError
      end
  end.

(** *** Arrays *)

Definition np_save_error : exn := ValueError "np.save(...)".
Definition np_load_error : exn := ValueError "np.load(...)".

(** The array that numpy makes of a list of arrays: the arrays stacked
    along a new first axis.  Arrays of different shapes raise a
    [ValueError]; arrays of one shape and different dtypes are
    converted to a common dtype, which is [Undetermined] here. *)
Definition stack (items : list npy) : result npy :=
  match items with
  | [] => Ok (Npy "<f8" [0%nat] [])
  | a :: rest =>
      if forallb (fun b => bool_decide (shape b = shape a)) rest then
        if forallb (fun b => bool_decide (dtype b = dtype a)) rest then
          Ok (Npy (dtype a) (length items :: shape a) (concat (map data items)))
        else Raise Undetermined
      else Raise np_save_error
  end.

(** [np.asanyarray(a)], which [np.save] stores. *)
Fixpoint np_asanyarray (a : ndarray) : result npy :=
  match a with
  | NdArray dt s d => Ok (Npy dt s d)
  | ListOf l =>
      (fix items (l : list ndarray) : result (list npy) :=
         match l with
         | [] => Ok []
         | x :: l' => x' ← np_asanyarray x; r ← items l'; mret (x' :: r)
         end) l ≫= stack
  end.

(** [np.save(file, a)] *)
Definition np_save (a : ndarray) : result content :=
  NpyFile <$> np_asanyarray a.

(** [np.load] of the bytes of a member; an array of objects is
    refused ([allow_pickle] is false). *)
Definition np_load (c : content) : result ndarray :=
  match c with
  | NpyFile a =>
      if bool_decide (dtype a = "|O") then Raise np_load_error
      else Ok (NdArray (dtype a) (shape a) (data a))
  | JsonFile _ => Raise np_load_error
  end.

(** *** Lineage documents *)

(** The [dict] built from a sequence of bindings: a repeated key keeps
    its first position and its last value. *)
Definition build_dict {K} `{EqDecision K} (items : list (K * cell)) : dict K cell :=
  foldl (fun d kv => dict_set d kv.1 kv.2) [] items.

(** An integer that [json] writes and reads: one of no more than
    [max_str_digits] digits. *)
Definition int_ok (k : Z) : bool :=
  (PyStr.int_digits k <=? PyStr.max_str_digits)%nat.

Definition record_ok (r : cell) : bool :=
  int_ok (label r) && from_option int_ok true (parent r)
  && forallb int_ok (daughters r) && forallb int_ok (frames r).

Definition json_dump_error : exn := ValueError "json.dump(...)".
Definition json_loads_error : exn := ValueError "json.loads(...)".
Definition decode_error : exn := ValueError "bytes.decode(...)".

Definition document_ok (j : json) : bool :=
  match j with
  | JObject items => forallb (fun kv => record_ok kv.2) items
  | JArray objs => forallb (forallb (fun kv => record_ok kv.2)) objs
  end.

(** [json.loads(... .decode())] of the bytes of a member: the bytes of
    an array are no text. *)
Definition json_loads (c : content) : result json_value :=
  match c with
  | JsonFile j =>
      if document_ok j then
        match j with
        | JObject items => Ok (PyDict (build_dict items))
        | JArray objs => Ok (PyList (map build_dict objs))
        end
      else Raise json_loads_error
  | NpyFile _ => Raise decode_error
  end.

(** [json.dump]: integer keys are written as their decimal text. *)
Definition dump_object (d : lineage_t) : list (string * cell) :=
  map (fun kv => (PyStr.str_of_int kv.1, kv.2)) d.

Definition dumpable (d : lineage_t) : bool :=
  forallb (fun kv => int_ok kv.1 && record_ok kv.2) d.

Definition json_dump (lineages : lineages_arg) : result json :=
  match lineages with
  | OneLineage d =>
      if dumpable d then Ok (JObject (dump_object d)) else Raise json_dump_error
  | LineageList l =>
      if forallb dumpable l then Ok (JArray (map dump_object l))
      else Raise json_dump_error
  end.

(** [{int(k): v for k, v in tracks.items()}] *)
Fixpoint int_keys (tracks : dict string cell) (acc : lineage_t) : result lineage_t :=
  match tracks with
  | [] => Ok acc
  | (k, v) :: tracks' =>
      k' ← PyStr.int_of_str k;
      int_keys tracks' (dict_set acc k' v)
  end.

Record loaded : Type := Loaded {
  lineages : list lineage_t;
  X : ndarray;
  y : ndarray
}.

(** The lineage part of [load_trks], from the member found. *)
Definition decode_lineages (trk_data : content) : result (list lineage_t) :=
  v ← json_loads trk_data;
  let l := match v with PyList l => l | PyDict d => [d] end in
  mapM (fun tracks => int_keys tracks []) l.

Definition no_lineage : exn :=
  ValueError "Invalid .trk file, no lineage data found.".

Definition find_lineage (trks : archive) : result content :=
  match getmember trks "lineages.json" with
  | Raise KeyError =>
      match getmember trks "lineage.json" with
      | Raise KeyError => Raise no_lineage
      | r => r
      end
  | r => r
  end.

(** [load_trks] changes no file.  Reading moves the position of a
    buffer; where the position is after a load is not followed (the
    function returns no world): a buffer that was loaded is rewound
    before it is used again. *)
Definition load_trks (filename : target) (w : world) : result loaded :=
  trks ← tarfile_open_r filename w;
  raw ← getmember trks "raw.npy" ≫= np_load;
  tracked ← getmember trks "tracked.npy" ≫= np_load;
  trk_data ← find_lineage trks;
  lineages ← decode_lineages trk_data;
  mret {| lineages := lineages; X := raw; y := tracked |}.

(** *** The save path *)

(** The body of [with tarfile.open(...) as trks]: the members that were
    added, and the exception that ended it if one did. *)
Definition add_members (lineages : lineages_arg) (raw tracked : ndarray)
    (lineage_name : string) : result unit * archive :=
  match json_dump lineages with
  | Raise e => (Raise e, [])
  | Ok j =>
      match np_save raw with
      | Raise e => (Raise e, [(lineage_name, JsonFile j)])
      | Ok r =>
          match np_save tracked with
          | Raise e => (Raise e, [(lineage_name, JsonFile j); ("raw.npy", r)])
          | Ok t =>
              (Ok (), [(lineage_name, JsonFile j); ("raw.npy", r);
                       ("tracked.npy", t)])
          end
      end
  end.

(** What the target holds when the [with] block is left: the archive
    of the members that were added, which an exception leaves
    unfinished. *)
Definition written (r : result unit) (members : archive) : file :=
  match r with
  | Ok _ => TarFile members
  | Raise _ => Unfinished members
  end.

(** The temporary files are created and removed inside the call; the
    directory of temporary files is not part of the world, and is
    taken to be writable. *)
Definition save_track_data (filename : target) (lineages : lineages_arg)
    (raw tracked : ndarray) (lineage_name : string) (w : world)
    : result unit * world :=
  match tarfile_open_w filename w with
  | Raise e => (Raise e, w)
  | Ok trks =>
      let '(r, members) := add_members lineages raw tracked lineage_name in
      (r, tarfile_close trks (written r members) w)
  end.

Definition bad_extension (ext : string) (filename : target) : exn :=
  ValueError ("filename must end with `" ++ ext ++ "`. Found "
              ++ str_of_target filename).

(** The test both save functions start with: the target is not a
    [BytesIO] and its extension is not [suffix]. *)
Definition extension_refused (suffix : string) (filename : target) : bool :=
  let ext := (OsPath.splitext (str_of_target filename)).2 in
  negb (isinstance_BytesIO filename) && negb (bool_decide (ext = suffix)).

Definition save_trks (filename : target) (lineages : lineages_arg)
    (raw tracked : ndarray) (w : world) : result unit * world :=
  let ext := (OsPath.splitext (str_of_target filename)).2 in
  if negb (isinstance_BytesIO filename) && negb (bool_decide (ext = ".trks"))
  then (Raise (bad_extension ".trks" filename), w)
  else save_track_data filename lineages raw tracked "lineages.json" w.

Definition too_many_lineages : exn :=
  ValueError "For trk file, lineages must be a dictionary or list with a single dictionary".

Definition save_trk (filename : target) (lineage : lineages_arg)
    (raw tracked : ndarray) (w : world) : result unit * world :=
  let ext := (OsPath.splitext (str_of_target filename)).2 in
  if negb (isinstance_BytesIO filename) && negb (bool_decide (ext = ".trk"))
  then (Raise (bad_extension ".trk" filename), w)
  else
    match lineage with
    | LineageList l =>
        if bool_decide (1 < length l)%nat then (Raise too_many_lineages, w)
        else
          match l with
          | [] => (Raise IndexError, w)
          | d :: _ => save_track_data filename (OneLineage d) raw tracked "lineage.json" w
          end
    | OneLineage d =>
        save_track_data filename (OneLineage d) raw tracked "lineage.json" w
    end.

(** The list of lineages a [lineages] argument stands for: what
    [load_trks] returns for it. *)
Definition as_list (lineages : lineages_arg) : list lineage_t :=
  match lineages with
  | OneLineage d => [d]
  | LineageList l => l
  end.

(** A Python [dict] has no repeated key. *)
Definition well_keyed (lineages : lineages_arg) : Prop :=
  Forall (fun d : lineage_t => NoDup d.*1) (as_list lineages).

End Codec.

(** ** The batch importer *)

Module Importer.
Import Codec.

(** [re.split('([0-9]+)', key)]: the text between the runs of digits
    and, the pattern having a group, the runs themselves; the list
    starts and ends with a text, which may be empty.  [cur] is the
    piece being read, reversed, and [in_run] tells whether it is a run
    of digits. *)
Fixpoint split_from (cur : list ascii) (in_run : bool) (s : list ascii)
    : list string :=
  match s with
  | [] =>
      if in_run then [string_of_list_ascii (rev cur); ""]
      else [string_of_list_ascii (rev cur)]
  | c :: s' =>
      if bool_decide (PyStr.is_digit c = in_run) then split_from (c :: cur) in_run s'
      else string_of_list_ascii (rev cur) :: split_from [c] (negb in_run) s'
  end.

Definition re_split_digits (key : string) : list string :=
  split_from [] false (list_ascii_of_string key).

(** An element of a sort key: [int] or [str]. *)
Inductive key_item : Type :=
  | KInt (n : Z)
  | KStr (s : string).

#[export] Instance key_item_eq_dec : EqDecision key_item.
Proof. solve_decision. Defined.

(** [convert = lambda text: int(text) if text.isdigit() else text] *)
Definition convert (text : string) : result key_item :=
  if PyStr.isdigit text then KInt <$> PyStr.int_of_str text
  else Ok (KStr text).

(** [alphanum_key = lambda key: [convert(c) for c in re.split(...)]] *)
Definition alphanum_key (key : string) : result (list key_item) :=
  mapM convert (re_split_digits key).

(** [a < b] on key items; an [int] and a [str] do not compare. *)
Definition item_lt (a b : key_item) : result bool :=
  match a, b with
  | KInt m, KInt n => Ok (m <? n)
  | KStr s, KStr t => Ok (String.ltb s t)
  | _, _ => Raise TypeError
  end.

(** [a < b] on lists: decided at the first position where the two
    differ, else by the lengths. *)
Fixpoint key_lt (a b : list key_item) : result bool :=
  match a, b with
  | [], [] => Ok false
  | [], _ :: _ => Ok true
  | _ :: _, [] => Ok false
  | x :: a', z :: b' =>
      if decide (x = z) then key_lt a' b' else item_lt x z
  end.

(** [sorted(l, key=...)] is stable and compares keys with [<] only:
    an element goes before the first element to its right whose key
    is not smaller than its own. *)
Fixpoint insert_keyed (x : list key_item * string)
    (l : list (list key_item * string)) : result (list (list key_item * string)) :=
  match l with
  | [] => Ok [x]
  | h :: t =>
      b ← key_lt h.1 x.1;
      if b : bool then cons h <$> insert_keyed x t else Ok (x :: l)
  end.

Fixpoint sort_keyed (l : list (list key_item * string))
    : result (list (list key_item * string)) :=
  match l with
  | [] => Ok []
  | x :: l' => sort_keyed l' ≫= insert_keyed x
  end.

(** [file_list_sorted = sorted(file_list, key=alphanum_key)] *)
Definition file_list_sorted (file_list : list string) : result (list string) :=
  keyed ← mapM (fun f => k ← alphanum_key f; mret (k, f)) file_list;
  s ← sort_keyed keyed;
  mret (s.*2).

(** [os.listdir(dirname)] *)
Definition listdir (dirname : string) (w : world) : result (list string) :=
  d ← os_result (open_dir w dirname);
  mret (listing w d).

(** The loop [for filename in file_list_sorted], threading the three
    lists it appends to. *)
Fixpoint load_loop (dirname : string) (w : world) (names : list string)
    (acc : list lineage_t * list ndarray * list ndarray)
    : result (list lineage_t * list ndarray * list ndarray) :=
  match names with
  | [] => Ok acc
  | filename :: names' =>
      trk ← load_trks (Path (OsPath.join dirname filename)) w;
      l ← match lineages trk with
          | [] => Raise IndexError
          | l :: _ => Ok l
          end;
      load_loop dirname w names'
        ((acc.1.1 ++ [l])%list, (acc.1.2 ++ [X trk])%list, (acc.2 ++ [y trk])%list)
  end.

Definition trk_folder_to_trks (dirname trks_filename : string) (w : world)
    : result unit * world :=
  match
    file_list ← listdir dirname w;
    sorted ← file_list_sorted file_list;
    load_loop dirname w sorted ([], [], [])
  with
  | Raise e => (Raise e, w)
  | Ok (lineages, raw, tracked) =>
      let file_path := OsPath.join (OsPath.dirname dirname) trks_filename in
      save_trks (Path file_path) (LineageList lineages)
        (ListOf raw) (ListOf tracked) w
  end.

(** *** The shape of sort keys *)

(** The piece being read is a run of digits [0-9], or has none. *)
Definition run_ok (in_run : bool) (cur : list ascii) : Prop :=
  if in_run then cur <> [] /\ Forall (fun c => PyStr.is_digit c = true) cur
  else Forall (fun c => PyStr.is_digit c = false) cur.

(** The pieces of a split: a text, then runs of digits and texts in
    turn, a text at the end. *)
Fixpoint alternates (in_run : bool) (l : list string) : Prop :=
  match l with
  | [] => in_run = true
  | p :: l' =>
      run_ok in_run (list_ascii_of_string p) /\ alternates (negb in_run) l'
  end.

(** A key of the shape of the pieces: [str], [int], [str], ... *)
Fixpoint shaped (in_run : bool) (k : list key_item) : Prop :=
  match k with
  | [] => in_run = true
  | KInt _ :: k' => in_run = true /\ shaped false k'
  | KStr _ :: k' => in_run = false /\ shaped true k'
  end.

(** Two key items of one type. *)
Definition same_kind (x z : key_item) : Prop :=
  match x, z with
  | KInt _, KInt _ | KStr _, KStr _ => True
  | _, _ => False
  end.

(** A name of ASCII characters and of no more than [max_str_digits]
    of them: [alphanum_key] returns a key for it. *)
Definition plain_name (f : string) : Prop :=
  Forall (fun c => (nat_of_ascii c < 128)%nat) (list_ascii_of_string f)
  /\ (String.length f <= PyStr.max_str_digits)%nat.

(** An entry of the list being sorted carries the key of its name. *)
Definition keyed (kv : list key_item * string) : Prop :=
  alphanum_key kv.2 = Ok kv.1 /\ shaped false kv.1.

(** [a] may stand before [b]: the key of [b] is not smaller. *)
Definition in_order (a b : list key_item * string) : Prop :=
  key_lt b.1 a.1 = Ok false.

End Importer.

(** ** Sample data *)

Module Samples.
Import Codec.

(** One frame of one pixel, of cell 1. *)
Definition one_pixel : volume := [[[1]]].

(** Cell 1 in frame 0 divides; cell 2 is in frame 1. *)
Definition mother_then_daughter : volume := [[[1]]; [[2]]].
Definition mother : cell := Cell 1 None [2] [0].
Definition daughter : cell := Cell 2 (Some 1) [] [1].

(** Two small arrays, as values and as members of an archive. *)
Definition sample_raw : ndarray :=
  NdArray "<f4" [1; 1; 2]%nat [Byte.x00; Byte.x01].
Definition sample_tracked : ndarray :=
  NdArray "<i4" [1; 1; 2]%nat [Byte.x01; Byte.x02].
Definition raw_member : content :=
  NpyFile (Npy "<f4" [1; 1; 2]%nat [Byte.x00; Byte.x01]).
Definition tracked_member : content :=
  NpyFile (Npy "<i4" [1; 1; 2]%nat [Byte.x01; Byte.x02]).

(** A world in which the paths of a table lead to files and
    directories, in either mode, and no other path leads anywhere. *)
Definition table_world (paths : list (string * file_ref))
    (dirs : list (string * nat)) (files : gmap nat file)
    (listings : gmap nat (list string)) (buffers : gmap nat bytesio) : world :=
  {| open_path := fun _ p =>
       match dict_get paths p with
       | Some ref => inr ref
       | None => inl NoSuchFile
       end;
     open_dir := fun p =>
       match dict_get dirs p with
       | Some d => inr d
       | None => inl NoSuchFile
       end;
     Codec.files := files; Codec.listings := listings;
     Codec.buffers := buffers |}.

(** A world with no file. *)
Definition empty_world : world := table_world [] [] ∅ ∅ ∅.

(** An archive that has the single-movie and the batch lineage entry. *)
Definition both_entries : archive :=
  [("raw.npy", raw_member);
   ("tracked.npy", tracked_member);
   ("lineage.json", JsonFile (JObject [("1", mother)]));
   ("lineages.json", JsonFile (JArray [[("2", daughter)]]))].
Definition both_entries_world : world :=
  table_world [("both.trk", FileRef 1 0 "both.trk")] []
    {[ 1%nat := TarFile both_entries ]} {[ 0%nat := ["both.trk"] ]} ∅.

(** A directory of three single-movie archives, listed out of order;
    the directory above it holds nothing else. *)
Definition movie (k : Z) : archive :=
  [("lineage.json", JsonFile (JObject [(PyStr.str_of_int k, Cell k None [] [0])]));
   ("raw.npy", raw_member);
   ("tracked.npy", tracked_member)].
Definition movie_world : world :=
  table_world
    [("data/movies/movie1.trk", FileRef 11 2 "movie1.trk");
     ("data/movies/movie2.trk", FileRef 12 2 "movie2.trk");
     ("data/movies/movie10.trk", FileRef 13 2 "movie10.trk");
     ("data/all.trks", FileRef 20 1 "all.trks")]
    [("data", 1%nat); ("data/movies", 2%nat)]
    {[ 11%nat := TarFile (movie 1); 12%nat := TarFile (movie 2);
       13%nat := TarFile (movie 10) ]}
    {[ 1%nat := ["movies"];
       2%nat := ["movie10.trk"; "movie1.trk"; "movie2.trk"] ]}
    ∅.

End Samples.

(** ** [get_max_cells] *)

Module Counting.

(** [cells[cells != 0].shape[0]] for [cells = np.unique(y[frame])] *)
Definition n_cells (frame : frame_t) : nat :=
  length (nonzero_ids (np_unique [frame])).

(** The loop [for frame in range(y.shape[0])], threading [max_cells]. *)
Fixpoint frames_loop (y : list frame_t) (max_cells : nat) : nat :=
  match y with
  | [] => max_cells
  | frame :: y' =>
      let n_cells := n_cells frame in
      if bool_decide (max_cells < n_cells)%nat then frames_loop y' n_cells
      else frames_loop y' max_cells
  end.

Definition get_max_cells (y : volume) : nat := frames_loop y 0%nat.

End Counting.

(** ** What the validator accepts *)

Module ValidatorSpec.

(** The record [later] starts in the frame after the last frame of the
    record [earlier]. *)
Definition starts_after (later earlier : cell) : Prop :=
  match head (frames later), last (frames earlier) with
  | Some first, Some last => first - last = 1
  | _, _ => False
  end.

(** The daughter [d] of the record [r] has a record, which starts in
    the frame after the last frame of [r]. *)
Definition daughter_linked (lineage : lineage_t) (r : cell) (d : Z) : Prop :=
  exists dr, dict_get lineage d = Some dr /\ starts_after dr r.

(** The parent of [r] is null or [0], or it has a record, in the frame
    after whose last frame [r] starts. *)
Definition parent_linked (lineage : lineage_t) (r : cell) : Prop :=
  match parent r with
  | None => True
  | Some p =>
      p = 0 \/ exists pr, dict_get lineage p = Some pr /\ starts_after r pr
  end.

(** The records [items] pass the loop of the validator from the working
    set [s] of cells. *)
Fixpoint records_pass (y : volume) (lineage : lineage_t) (s : gset Z)
    (items : list (Z * cell)) : Prop :=
  match items with
  | [] => True
  | (k, r) :: items' =>
      k ∈ s
      /\ cell_frames y k = frames r
      /\ Forall (fun d => d ∈ s ∖ {[k]} /\ daughter_linked lineage r d)
           (daughters r)
      /\ parent_linked lineage r
      /\ records_pass y lineage (s ∖ {[k]}) items'
  end.

(** The same in terms of the order of the records: the frames of each
    record are those of its cell in the volume, each of its daughters
    is the key of a record further down and is linked to it, and its
    parent is linked to it. *)
Fixpoint records_ok (y : volume) (lineage : lineage_t)
    (items : list (Z * cell)) : Prop :=
  match items with
  | [] => True
  | (k, r) :: items' =>
      cell_frames y k = frames r
      /\ Forall (fun d => d ∈ items'.*1 /\ daughter_linked lineage r d)
           (daughters r)
      /\ parent_linked lineage r
      /\ records_ok y lineage items'
  end.

(** The lineages that [is_valid_lineage] accepts. *)
Definition accepted (y : volume) (lineage : lineage_t) : Prop :=
  NoDup lineage.*1
  /\ (forall c, c ∈ lineage.*1 <-> c <> 0 /\ c ∈ pixels y)
  /\ records_ok y lineage lineage.

(** Two lineages with the same keys in the same order, whose records
    differ in their [label] fields at most. *)
Definition same_but_labels (l1 l2 : lineage_t) : Prop :=
  Forall2 (fun kr1 kr2 =>
             kr1.1 = kr2.1
             /\ parent kr1.2 = parent kr2.2
             /\ daughters kr1.2 = daughters kr2.2
             /\ frames kr1.2 = frames kr2.2) l1 l2.

End ValidatorSpec.

(** ** Lineage documents *)

Module CodecSpec.
Import Codec.

(** An array proper, whose elements are not Python objects. *)
Definition is_array (a : ndarray) : Prop :=
  match a with
  | NdArray dt _ _ => dt <> "|O"
  | ListOf _ => False
  end.

(** The array that [np.load] returns for what [np.save] stores of
    [a]. *)
Definition reloaded (a : ndarray) : result ndarray := np_save a ≫= np_load.



End CodecSpec.

(** ** The loads of the importer *)

Module ImporterSpec.
Import Codec.

(** The file [f] of the directory loads, with a lineage to take. *)
Definition loads_a_movie (dirname : string) (w : world) (f : string) : Prop :=
  exists l, load_trks (Path (OsPath.join dirname f)) w = Ok l /\ lineages l <> [].

(** The round of the loop for the file [f] raises [e]: [load_trks]
    raises it, or the file loads with an empty list of lineages and
    [e] is the [IndexError] of taking the first. *)
Definition fails_with (dirname : string) (w : world) (f : string) (e : exn)
    : Prop :=
  load_trks (Path (OsPath.join dirname f)) w = Raise e
  \/ (e = IndexError
      /\ exists l, load_trks (Path (OsPath.join dirname f)) w = Ok l
                   /\ lineages l = []).

End ImporterSpec.

(** ** What the relabeler returns *)

Module RelabelerSpec.
Import Relabeler.

(** The daughters that the loop over [daughters] keeps: the numbers of
    those that the forward map has. *)
Fixpoint fix_daughters (fw : forward_map) (ds : list Z) : list Z :=
  match ds with
  | [] => []
  | d :: ds' =>
      let new_daughter := fw_get fw d in
      if bool_decide (new_daughter = 0) then fix_daughters fw ds'
      else new_daughter :: fix_daughters fw ds'
  end.

(** The record the loop builds for [cell_id] from its old record. *)
Definition new_record (y : volume) (fw : forward_map) (cell_id : Z) (old : cell)
    : cell :=
  {| label := fw_get fw cell_id;
     parent := match parent old with
               | Some p => Some (fw_get fw p)
               | None => None
               end;
     daughters := fix_daughters fw (daughters old);
     frames := cell_frames y cell_id |}.

(** The parent and the daughters of the record are integers that
    numpy holds, so that the forward map takes them as indices. *)
Definition refs_in_range (r : cell) : Prop :=
  (forall p, parent r = Some p -> numpy_int p = true)
  /\ Forall (fun d => numpy_int d = true) (daughters r).


End RelabelerSpec.

(** * Properties *)

(** ** Results *)

Lemma bind_ok {A B} (a : A) (f : A -> result B) : Ok a ≫= f = f a.
Proof. done. Qed.


(** ** Label volumes *)

Section VolumeFacts.
Implicit Types (y : volume) (c : Z) (l : list Z).

Lemma elem_of_concat {A} (x : A) (ls : list (list A)) :
  x ∈ concat ls <-> exists r : list A, x ∈ r /\ r ∈ ls.
Proof.
  rewrite list_elem_of_In, in_concat. split.
  - intros (r & H1 & H2). exists r. by rewrite !list_elem_of_In.
  - intros (r & H1 & H2). exists r. by rewrite <- !list_elem_of_In.
Qed.

Lemma elem_of_insert_sorted x a l :
  x ∈ insert_sorted a l <-> x = a \/ x ∈ l.
Proof.
  induction l as [|h t IH]; simpl.
  - rewrite list_elem_of_singleton. set_solver.
  - destruct (Z.ltb_spec a h); [set_solver|].
    destruct (Z.eqb_spec a h) as [->|]; [set_solver|].
    rewrite !elem_of_cons, IH. tauto.
Qed.

Lemma elem_of_np_unique y c : c ∈ np_unique y <-> c ∈ pixels y.
Proof.
  unfold np_unique. induction (pixels y) as [|p ps IH]; simpl; [done|].
  rewrite elem_of_insert_sorted, IH. set_solver.
Qed.

Lemma insert_sorted_lt a l :
  StronglySorted Z.lt l -> StronglySorted Z.lt (insert_sorted a l).
Proof.
  induction 1 as [|h t Hs IH Hall]; simpl; [repeat constructor|].
  destruct (Z.ltb_spec a h).
  - constructor; [by constructor|].
    constructor; [done|]. eapply Forall_impl; [exact Hall|]. simpl. lia.
  - destruct (Z.eqb_spec a h); [by constructor|].
    constructor; [done|]. apply Forall_forall. intros z Hz.
    apply elem_of_insert_sorted in Hz as [->|Hz]; [lia|].
    by eapply Forall_forall in Hall.
Qed.

Lemma np_unique_sorted y : StronglySorted Z.lt (np_unique y).
Proof.
  unfold np_unique. induction (pixels y); simpl; [constructor|].
  by apply insert_sorted_lt.
Qed.

Lemma sorted_lt_NoDup l : StronglySorted Z.lt l -> NoDup l.
Proof.
  induction 1 as [|h t Hs IH Hall]; constructor; [|done].
  intros Hin. eapply Forall_forall in Hall; [|exact Hin]. lia.
Qed.

Lemma elem_of_nonzero_ids c l : c ∈ nonzero_ids l <-> c <> 0 /\ c ∈ l.
Proof. unfold nonzero_ids. by rewrite list_elem_of_filter. Qed.

Lemma nonzero_ids_NoDup l : NoDup l -> NoDup (nonzero_ids l).
Proof. apply NoDup_filter. Qed.

Lemma cell_ids_NoDup y : NoDup (nonzero_ids (np_unique y)).
Proof. apply nonzero_ids_NoDup, sorted_lt_NoDup, np_unique_sorted. Qed.

Lemma elem_of_cell_ids y c :
  c ∈ nonzero_ids (np_unique y) <-> c <> 0 /\ c ∈ pixels y.
Proof. by rewrite elem_of_nonzero_ids, elem_of_np_unique. Qed.

Lemma frame_has_true c (f : frame_t) : frame_has c f = true <-> c ∈ concat f.
Proof.
  unfold frame_has. rewrite existsb_exists, elem_of_concat. split.
  - intros (row & Hrow & Hc). apply existsb_exists in Hc as (z & Hz & Heq).
    apply Z.eqb_eq in Heq as <-. exists row. by rewrite !list_elem_of_In.
  - intros (row & Hc & Hrow). exists row. rewrite <- list_elem_of_In.
    split; [done|]. apply existsb_exists. exists c.
    rewrite <- list_elem_of_In. split; [done|]. apply Z.eqb_refl.
Qed.

Lemma nonzero_from_nil i b : nonzero_from i b = [] <-> true ∉ b.
Proof.
  revert i. induction b as [|x b IH]; intros i; simpl; [set_solver|].
  destruct x; [set_solver|]. rewrite IH. set_solver.
Qed.

Lemma elem_of_pixels y c :
  c ∈ pixels y <-> exists f : frame_t, f ∈ y /\ c ∈ concat f.
Proof.
  unfold pixels. rewrite elem_of_concat. split.
  - intros (row & Hc & Hrow). apply elem_of_concat in Hrow as (f & Hrow & Hf).
    exists f. split; [done|]. apply elem_of_concat. by exists row.
  - intros (f & Hf & Hc). apply elem_of_concat in Hc as (row & Hc & Hrow).
    exists row. split; [done|]. apply elem_of_concat. by exists f.
Qed.

Lemma cell_frames_nil y c : cell_frames y c = [] <-> c ∉ pixels y.
Proof.
  unfold cell_frames, any_axis12.
  rewrite nonzero_from_nil, list_elem_of_fmap, elem_of_pixels.
  split.
  - intros Hno (f & Hf & Hc). apply Hno. exists f. split; [|done].
    symmetry. by apply frame_has_true.
  - intros Hno (f & Hc & Hf). apply Hno. exists f.
    split; [done|]. by apply frame_has_true.
Qed.

Lemma elem_of_image_cells y c :
  c ∈ Validator.image_cells y <-> c <> 0 /\ c ∈ pixels y.
Proof.
  unfold Validator.image_cells. by rewrite elem_of_list_to_set, elem_of_cell_ids.
Qed.

End VolumeFacts.

(** ** The lineage validator *)

Module ValidatorFacts.
Import Validator Samples.

Lemma dict_mem_true (lineage : lineage_t) k :
  dict_mem lineage k = true -> exists r, dict_get lineage k = Some r.
Proof. unfold dict_mem. destruct (dict_get lineage k); eauto. discriminate. Qed.

Lemma last_item_ok (l : list Z) : l <> [] -> is_ok (last_item l).
Proof.
  unfold last_item, is_ok. intros Hl.
  destruct (last l) eqn:E; [eauto|]. by apply last_None in E.
Qed.

(** The daughters loop returns: it either runs to its end or returns
    [False]. *)
Lemma daughters_loop_returns lineage all_cells lpf ds :
  daughters_loop lineage all_cells lpf ds = Ok None
  \/ daughters_loop lineage all_cells lpf ds = Ok (Some false).
Proof.
  induction ds as [|d ds IH]; simpl; [by left|].
  destruct (bool_decide (d ∉ all_cells)); simpl; [by right|].
  destruct (dict_mem lineage d) eqn:Hmem; simpl; [|by right].
  apply dict_mem_true in Hmem as [r Hr].
  unfold dict_lookup. rewrite Hr. simpl.
  destruct (frames r) as [|f fs]; simpl; [by right|].
  destruct (bool_decide (f - lpf <> 1)); [by right|exact IH].
Qed.

Lemma parent_check_returns lineage r :
  parent_check lineage r = Ok None \/ parent_check lineage r = Ok (Some false).
Proof.
  unfold parent_check. destruct (parent r) as [p|]; [|by left].
  destruct (bool_decide (p = 0)); [by left|].
  unfold dict_lookup. destruct (dict_get lineage p) as [pr|]; [|by right].
  unfold last_item. destruct (last (frames pr)); simpl; [|by right].
  destruct (frames r); simpl; [by right|].
  destruct (bool_decide _); [by right|by left].
Qed.

(** The access [cell_lineage['frames'][-1]] is in bounds wherever it
    is reached. *)
Lemma last_parent_frame_ok y (all_cells : gset Z) k r :
  all_cells ⊆ image_cells y -> k ∈ all_cells ->
  cell_frames y k = frames r -> is_ok (last_item (frames r)).
Proof.
  intros Hsub Hk Hfr. apply last_item_ok. rewrite <- Hfr.
  intros Hnil. apply cell_frames_nil in Hnil. apply Hnil.
  apply Hsub, elem_of_image_cells in Hk. tauto.
Qed.

Lemma record_step_returns y lineage (all_cells : gset Z) k r :
  all_cells ⊆ image_cells y ->
  record_step y lineage all_cells k r = Ok (inl false)
  \/ exists s : gset Z,
       record_step y lineage all_cells k r = Ok (inr s) /\ s ⊆ image_cells y.
Proof.
  intros Hsub. unfold record_step.
  case_bool_decide as Hk; [by left|].
  unfold set_remove. rewrite decide_True by done. simpl.
  case_bool_decide as Hfr; [by left|].
  assert (cell_frames y k = frames r) as Hfr' by (by destruct (decide (cell_frames y k = frames r))).
  destruct (last_parent_frame_ok y all_cells k r Hsub Hk Hfr') as [lpf ->]. simpl.
  destruct (daughters_loop_returns lineage (all_cells ∖ {[k]}) lpf (daughters r))
    as [-> | ->]; simpl; [|by left].
  destruct (parent_check_returns lineage r) as [-> | ->]; simpl; [|by left].
  right. eexists. split; [done|]. set_solver.
Qed.

Lemma records_loop_returns y lineage items : forall all_cells : gset Z,
  all_cells ⊆ image_cells y ->
  records_loop y lineage all_cells items = Ok (inl false)
  \/ exists s : gset Z, records_loop y lineage all_cells items = Ok (inr s).
Proof.
  induction items as [|[k r] items IH]; intros all_cells Hsub; simpl; [eauto|].
  destruct (record_step_returns y lineage all_cells k r Hsub)
    as [-> | (s & -> & Hs)]; simpl; [by left|].
  by apply IH.
Qed.

(** C10. [is_valid_lineage] raises no exception, on any label volume
    and any lineage of records with [frames] and [daughters] lists: it
    returns a boolean.  In particular the unguarded access to the last
    element of the record's [frames] is in bounds: it is reached only
    for a cell that is still in [all_cells], a set of non-zero pixel
    values of the volume, and whose stored frames equal the frames in
    which the volume holds the cell, a list that is then not empty
    ([last_parent_frame_ok]). *)
Theorem is_valid_lineage_no_exception (y : volume) (lineage : lineage_t) :
  exists b, is_valid_lineage y lineage = Ok b.
Proof.
  unfold is_valid_lineage.
  destruct (records_loop_returns y lineage lineage (image_cells y))
    as [-> | [s ->]]; [done|simpl; eauto|simpl].
  destruct (bool_decide _); eauto.
Qed.

(** *** The parent check *)

Lemma parent_check_broken lineage r p :
  parent r = Some p -> p <> 0 -> parent_link_broken lineage r p ->
  parent_check lineage r = Ok (Some false).
Proof.
  unfold parent_check, parent_link_broken, dict_lookup. intros -> Hp Hbroken.
  rewrite bool_decide_eq_false_2 by done.
  destruct (dict_get lineage p) as [pr|]; [|done].
  unfold last_item. destruct (last (frames pr)) as [l|]; simpl; [|done].
  destruct (frames r) as [|f fs]; simpl in *; [done|].
  by rewrite bool_decide_eq_true_2.
Qed.

Lemma record_step_broken y lineage (all_cells : gset Z) k r p :
  all_cells ⊆ image_cells y ->
  parent r = Some p -> p <> 0 -> parent_link_broken lineage r p ->
  record_step y lineage all_cells k r = Ok (inl false).
Proof.
  intros Hsub Hpar Hp Hbroken.
  destruct (record_step_returns y lineage all_cells k r Hsub)
    as [H | (s & H & _)]; [done|].
  revert H. unfold record_step.
  case_bool_decide; [done|].
  destruct (set_remove all_cells k); simpl; [|done].
  case_bool_decide; [done|].
  destruct (last_item (frames r)); simpl; [|done].
  destruct (daughters_loop _ _ _ _) as [[b|]|]; simpl; [done| |done].
  by rewrite (parent_check_broken lineage r p).
Qed.

Lemma records_loop_broken y lineage k r p items : forall all_cells : gset Z,
  all_cells ⊆ image_cells y -> (k, r) ∈ items ->
  parent r = Some p -> p <> 0 -> parent_link_broken lineage r p ->
  records_loop y lineage all_cells items = Ok (inl false).
Proof.
  induction items as [|[k' r'] items IH]; intros all_cells Hsub Hin Hpar Hp Hbr.
  { by apply elem_of_nil in Hin. }
  simpl. apply elem_of_cons in Hin as [Heq | Hin].
  - injection Heq as <- <-.
    by rewrite (record_step_broken y lineage all_cells k r p).
  - destruct (record_step_returns y lineage all_cells k' r' Hsub)
      as [-> | (s & -> & Hs)]; simpl; [done|].
    by apply IH.
Qed.

(** C3, as amended. Whenever a cell record of the lineage declares a
    parent that is neither null nor [0], [is_valid_lineage] returns
    [False] if that parent has no record in the lineage, or if the
    record's first frame minus the parent record's last frame is not 1,
    or if either of the two frame lists is empty. *)
Theorem broken_parent_link_is_invalid (y : volume) (lineage : lineage_t)
    (cell_label : Z) (cell_lineage : cell) (p : Z) :
  (cell_label, cell_lineage) ∈ lineage ->
  parent cell_lineage = Some p ->
  p <> 0 ->
  parent_link_broken lineage cell_lineage p ->
  is_valid_lineage y lineage = Ok false.
Proof.
  intros Hin Hpar Hp Hbr. unfold is_valid_lineage.
  by rewrite (records_loop_broken y lineage cell_label cell_lineage p lineage).
Qed.

Lemma broken_parent_link_is_invalid_witness :
  is_valid_lineage one_pixel [(1, Cell 1 (Some 5) [] [0])] = Ok false.
Proof.
  apply (broken_parent_link_is_invalid one_pixel _ 1 (Cell 1 (Some 5) [] [0]) 5).
  - left.
  - reflexivity.
  - discriminate.
  - exact I.
Defined.

(** C3 as stated fails for the parent [0]: the guard [if parent:]
    skips the whole check, and a record whose parent [0] has no record
    in the lineage validates. *)
Lemma parent_zero_is_not_checked :
  parent (Cell 1 (Some 0) [] [0]) = Some 0
  /\ dict_get [(1, Cell 1 (Some 0) [] [0])] 0 = None
  /\ is_valid_lineage one_pixel [(1, Cell 1 (Some 0) [] [0])] = Ok true.
Proof. by vm_compute. Qed.

(** *** The daughter check *)

(** C2. The daughter test reads the working set [all_cells], from
    which the records already visited have been removed, not the set
    of ids of the image.  Cell 2 is in the image and in the lineage and
    starts in the frame after the last frame of cell 1; the lineage
    validates when the record of cell 1 comes first, and is rejected
    at the daughter test when the record of cell 2 comes first. *)
Theorem daughter_check_depends_on_order :
  2 ∈ image_cells mother_then_daughter
  /\ dict_get [(2, daughter); (1, mother)] 2 = Some daughter
  /\ head (frames daughter) = Some 1 /\ last (frames mother) = Some 0
  /\ is_valid_lineage mother_then_daughter [(1, mother); (2, daughter)] = Ok true
  /\ is_valid_lineage mother_then_daughter [(2, daughter); (1, mother)] = Ok false
  /\ daughters_loop [(2, daughter); (1, mother)]
       (image_cells mother_then_daughter ∖ {[2]} ∖ {[1]}) 0 [2] = Ok (Some false).
Proof. repeat split; by vm_compute. Qed.

End ValidatorFacts.

(** ** The lineage relabeler *)

Module RelabelerFacts.
Import Relabeler RelabelerSpec Samples.

Lemma index_of_lookup d (l : list Z) i : index_of d l = Some i -> l !! i = Some d.
Proof.
  revert i. induction l as [|x l IH]; intros i; simpl; [done|].
  case_decide as Hx; [intros [= <-]; by subst|].
  destruct (index_of d l) as [j|]; simpl; [|done].
  intros [= <-]. by apply IH.
Qed.

Lemma index_of_elem d (l : list Z) : d ∈ l -> exists i, index_of d l = Some i.
Proof.
  induction l as [|x l IH]; simpl; [by intros ?%elem_of_nil|].
  intros Hd. case_decide as Hx; [eauto|].
  apply elem_of_cons in Hd as [->|Hd]; [done|].
  destruct (IH Hd) as [i ->]. simpl. eauto.
Qed.

(** A value has a non-zero image under the forward map exactly when
    the map has it. *)
Lemma fw_get_nonzero (fw : forward_map) d : fw_get fw d <> 0 <-> d ∈ fw.
Proof.
  unfold fw_get. split.
  - destruct (index_of d fw) as [i|] eqn:E; [|done].
    intros _. apply index_of_lookup in E. by eapply list_elem_of_lookup_2.
  - intros [i ->]%index_of_elem. lia.
Qed.

(** The forward map is injective on the values it has. *)
Lemma fw_get_inj (fw : forward_map) c v : c ∈ fw -> fw_get fw v = fw_get fw c -> v = c.
Proof.
  intros Hc Heq. assert (fw_get fw c <> 0) as Hnz by by apply fw_get_nonzero.
  revert Heq Hnz. unfold fw_get.
  destruct (index_of c fw) as [i|] eqn:Ec; [|done].
  destruct (index_of v fw) as [j|] eqn:Ev; [|lia].
  intros Heq _. assert (j = i) as -> by lia.
  apply index_of_lookup in Ec, Ev. congruence.
Qed.

Lemma frame_has_relabel (fw : forward_map) c (f : frame_t) :
  c ∈ fw -> frame_has (fw_get fw c) (map (map (fw_get fw)) f) = frame_has c f.
Proof.
  intros Hc. unfold frame_has. induction f as [|row f IH]; simpl; [done|].
  f_equal; [|done]. clear IH.
  induction row as [|v row IH]; simpl; [done|]. f_equal; [|done].
  destruct (Z.eqb_spec c v) as [->|Hne]; [apply Z.eqb_refl|].
  apply Z.eqb_neq. intros Heq. apply Hne. symmetry. by eapply fw_get_inj.
Qed.

(** A cell is in the same frames of the old volume as its new id is
    in the relabeled volume. *)
Lemma cell_frames_relabel (fw : forward_map) (y : volume) c :
  c ∈ fw ->
  cell_frames (map (map (map (fw_get fw))) y) (fw_get fw c) = cell_frames y c.
Proof.
  intros Hc. unfold cell_frames, any_axis12. f_equal.
  rewrite map_map. apply map_ext. intros f. by apply frame_has_relabel.
Qed.

Lemma elem_of_dict_set (d : lineage_t) k v k' v' :
  (k, v) ∈ dict_set d k' v' -> (k, v) = (k', v') \/ (k, v) ∈ d.
Proof.
  induction d as [|[k0 v0] d IH]; simpl.
  - intros ->%list_elem_of_singleton. by left.
  - case_decide; rewrite !elem_of_cons; naive_solver.
Qed.

(** *** The lookups of the loop *)

Lemma fw_getitem_Ok (fw : forward_map) d n :
  fw_getitem fw d = Ok n <-> numpy_int d = true /\ n = fw_get fw d.
Proof. unfold fw_getitem. destruct (numpy_int d); naive_solver. Qed.

Lemma fw_getitem_raises (fw : forward_map) d e :
  fw_getitem fw d = Raise e <-> numpy_int d = false /\ e = TypeError.
Proof. unfold fw_getitem. destruct (numpy_int d); naive_solver. Qed.

Lemma numpy_int_range d : numpy_int d = true <-> - 2 ^ 63 <= d < 2 ^ 64.
Proof. unfold numpy_int. apply bool_decide_eq_true. Qed.

(** The loop over the daughters returns when every daughter is an
    index that the forward map takes, and it appends the numbers of
    the daughters that the map has. *)
Lemma daughters_loop_Ok (fw : forward_map) ds : forall acc l,
  daughters_loop fw ds acc = Ok l
  <-> Forall (fun d => numpy_int d = true) ds
      /\ l = (acc ++ fix_daughters fw ds)%list.
Proof.
  induction ds as [|d ds IH]; intros acc l; simpl.
  { rewrite app_nil_r. split; [intros [= <-]; by split|by intros [_ ->]]. }
  rewrite Forall_cons. unfold fw_getitem.
  destruct (numpy_int d); [|split; [done|by intros [[? _] _]]].
  rewrite bind_ok. case_bool_decide; rewrite IH; [naive_solver|].
  rewrite <- app_assoc. naive_solver.
Qed.

Lemma daughters_loop_raises (fw : forward_map) ds : forall acc e,
  daughters_loop fw ds acc = Raise e ->
  e = TypeError /\ ~ Forall (fun d => numpy_int d = true) ds.
Proof.
  induction ds as [|d ds IH]; intros acc e; simpl; [done|].
  rewrite Forall_cons. unfold fw_getitem.
  destruct (numpy_int d) eqn:Ed.
  - rewrite bind_ok. case_bool_decide; intros [-> Hno]%IH; naive_solver.
  - intros [= <-]. naive_solver.
Qed.

Lemma new_parent_Ok (fw : forward_map) (old : cell) (np : option Z) :
  match parent old with
  | Some p => Some <$> fw_getitem fw p
  | None => Ok None
  end = Ok np
  <-> (forall p, parent old = Some p -> numpy_int p = true)
      /\ np = match parent old with
              | Some p => Some (fw_get fw p)
              | None => None
              end.
Proof.
  destruct (parent old) as [p|]; [|naive_solver].
  unfold fw_getitem. destruct (numpy_int p) eqn:Ep; simpl; [naive_solver|].
  split; [done|]. intros [Hp _]. by rewrite (Hp p) in Ep.
Qed.

(** One round of the loop over the cells: it goes on when the cell is
    an index that the forward map takes and has a record whose parent
    and daughters are such indices, and it then adds the new record of
    the cell. *)
Lemma cells_loop_cons_Ok y fw lineage c cell_ids acc new_lineage :
  cells_loop y fw lineage (c :: cell_ids) acc = Ok new_lineage
  <-> numpy_int c = true
      /\ exists old,
           dict_get lineage c = Some old /\ refs_in_range old
           /\ cells_loop y fw lineage cell_ids
                (dict_set acc (fw_get fw c) (new_record y fw c old))
              = Ok new_lineage.
Proof.
  cbn [cells_loop]. unfold dict_lookup, refs_in_range.
  destruct (fw_getitem fw c) as [n|e] eqn:Ec.
  2:{ apply fw_getitem_raises in Ec as [Ec _]. rewrite Ec.
      split; [done|by intros [? _]]. }
  apply fw_getitem_Ok in Ec as [-> ->]. rewrite bind_ok.
  destruct (dict_get lineage c) as [old|];
    [|split; [done|by intros [_ (? & ? & _)]]].
  rewrite bind_ok.
  destruct (match parent old with
            | Some p => Some <$> fw_getitem fw p
            | None => Ok None
            end) as [np|e] eqn:Enp.
  - apply new_parent_Ok in Enp as [Hp ->]. rewrite bind_ok.
    destruct (daughters_loop fw (daughters old) []) as [nd|e] eqn:End.
    + apply daughters_loop_Ok in End as [Hds ->]. rewrite bind_ok.
      unfold new_record. simpl. split.
      * intros Hloop. split; [done|]. exists old. by repeat split.
      * by intros [_ (old' & [= <-] & _ & Hloop)].
    + apply daughters_loop_raises in End as [-> Hno].
      split; [done|]. by intros [_ (old' & [= <-] & [_ Hds] & _)].
  - split; [done|]. intros [_ (old' & [= <-] & [Hp _] & _)].
    assert (match parent old with
            | Some p => Some <$> fw_getitem fw p
            | None => Ok None
            end
            = Ok match parent old with
                 | Some p => Some (fw_get fw p)
                 | None => None
                 end) as Hnp by (by apply new_parent_Ok).
    congruence.
Qed.

(** Every record the loop leaves in [new_lineage] was there before or
    was built for one of the cells, with the frames of that cell in
    the old volume. *)
Lemma cells_loop_frames y fw lineage cell_ids : forall acc new_lineage k r,
  cells_loop y fw lineage cell_ids acc = Ok new_lineage ->
  (k, r) ∈ new_lineage ->
  (k, r) ∈ acc
  \/ exists c, c ∈ cell_ids /\ k = fw_get fw c /\ frames r = cell_frames y c.
Proof.
  induction cell_ids as [|c cell_ids IH]; intros acc nl k r.
  - intros [= <-]. by left.
  - intros (_ & old & _ & _ & Hloop)%cells_loop_cons_Ok Hin.
    destruct (IH _ _ _ _ Hloop Hin) as [Hacc | (c' & ? & ? & ?)].
    + apply elem_of_dict_set in Hacc as [[= -> ->] | Hacc]; [|by left].
      right. exists c. split; [left|done].
    + right. exists c'. split; [by right|done].
Qed.

(** *** The library call *)

Lemma foldl_min_le (ps : list Z) : forall p,
  foldl Z.min p ps <= p /\ Forall (fun c => foldl Z.min p ps <= c) ps
  /\ foldl Z.min p ps ∈ p :: ps.
Proof.
  induction ps as [|q ps IH]; intros p; simpl.
  { split; [lia|]. split; [constructor|left]. }
  destruct (IH (Z.min p q)) as (Hle & Hall & Hin). split; [lia|]. split.
  - constructor; [lia|done].
  - apply elem_of_cons in Hin as [Hin | Hin]; [|by right; right].
    rewrite Hin. destruct (Z.min_spec p q) as [[_ ->] | [_ ->]]; [left|right; left].
Qed.

(** [relabel_sequential] returns exactly on a volume that has a pixel
    and no negative one, and raises its [ValueError] on any other. *)
Lemma relabel_sequential_cases (y : volume) :
  (pixels y <> [] /\ Forall (fun c => 0 <= c) (pixels y)
   /\ relabel_sequential y
      = Ok (map (map (map (fw_get (nonzero_ids (np_unique y))))) y,
            nonzero_ids (np_unique y)))
  \/ ((pixels y = [] \/ Exists (fun c => c < 0) (pixels y))
      /\ relabel_sequential y = Raise relabel_error).
Proof.
  unfold relabel_sequential, np_min.
  destruct (pixels y) as [|p ps] eqn:E; [right; split; [by left|done]|].
  rewrite bind_ok. destruct (foldl_min_le ps p) as (Hle & Hall & Hin).
  case_bool_decide as Hneg.
  - right. split; [|done]. right. apply Exists_exists. eauto.
  - left. split; [done|]. split; [|done].
    constructor; [lia|]. eapply Forall_impl; [exact Hall|]. simpl. lia.
Qed.

Lemma relabel_sequential_Ok (y y_relabel : volume) (fw : forward_map) :
  relabel_sequential y = Ok (y_relabel, fw)
  <-> pixels y <> [] /\ Forall (fun c => 0 <= c) (pixels y)
      /\ y_relabel = map (map (map (fw_get (nonzero_ids (np_unique y))))) y
      /\ fw = nonzero_ids (np_unique y).
Proof.
  destruct (relabel_sequential_cases y) as [(Hne & Hpos & ->) | [Hbad ->]].
  - naive_solver.
  - split; [done|]. intros (Hne & Hpos & _). destruct Hbad as [? | Hneg]; [done|].
    apply Exists_exists in Hneg as (c & Hc & Hlt).
    rewrite Forall_forall in Hpos. specialize (Hpos c Hc). lia.
Qed.

Lemma relabel_run (y y_relabel : volume) (lineage new_lineage : lineage_t) :
  relabel_sequential_lineage y lineage = Ok (y_relabel, new_lineage)
  <-> pixels y <> [] /\ Forall (fun c => 0 <= c) (pixels y)
      /\ y_relabel = map (map (map (fw_get (nonzero_ids (np_unique y))))) y
      /\ cells_loop y (nonzero_ids (np_unique y)) lineage
           (nonzero_ids (np_unique y)) [] = Ok new_lineage.
Proof.
  unfold relabel_sequential_lineage.
  destruct (relabel_sequential_cases y) as [(Hne & Hpos & ->) | [Hbad ->]].
  - rewrite bind_ok. cbv beta iota.
    destruct (cells_loop _ _ _ _ _) as [nl|e]; [rewrite bind_ok|].
    + split; [by intros [= <- <-]|by intros (_ & _ & -> & [= ->])].
    + split; [done|by intros (_ & _ & _ & ?)].
  - split; [done|]. intros (Hne & Hpos & _). destruct Hbad as [? | Hneg]; [done|].
    apply Exists_exists in Hneg as (c & Hc & Hlt).
    rewrite Forall_forall in Hpos. specialize (Hpos c Hc). lia.
Qed.

Lemma nonzero_from_sorted b : forall i,
  StronglySorted Z.lt (nonzero_from i b)
  /\ Forall (fun z => Z.of_nat i <= z) (nonzero_from i b).
Proof.
  induction b as [|x b IH]; intros i; simpl; [split; constructor|].
  destruct (IH (S i)) as [Hs Hall].
  assert (Forall (fun z => Z.of_nat i < z) (nonzero_from (S i) b)) as Hlt.
  { eapply Forall_impl; [exact Hall|]. simpl. lia. }
  destruct x.
  - split; [by constructor|]. constructor; [lia|].
    eapply Forall_impl; [exact Hlt|]. simpl. lia.
  - split; [done|]. eapply Forall_impl; [exact Hlt|]. simpl. lia.
Qed.

Lemma elem_of_nonzero_from b : forall i z,
  z ∈ nonzero_from i b
  <-> exists j, z = Z.of_nat (i + j) /\ b !! j = Some true.
Proof.
  induction b as [|x b IH]; intros i z; simpl.
  - split; [by intros ?%elem_of_nil|]. by intros (j & _ & ?).
  - assert (z ∈ nonzero_from (S i) b
            <-> exists j, z = Z.of_nat (i + S j) /\ b !! j = Some true) as IH'.
    { rewrite IH. by setoid_rewrite Nat.add_succ_r. }
    destruct x; [rewrite elem_of_cons|]; rewrite IH'; split.
    + intros [-> | (j & -> & Hj)]; [exists O|exists (S j)]; split; try done.
      f_equal. lia.
    + intros ([|j] & -> & Hj); [left; f_equal; lia|right; eauto].
    + intros (j & -> & Hj). by exists (S j).
    + intros ([|j] & -> & Hj); [done|eauto].
Qed.

(** [cell_frames y c] lists, in ascending order, the indices of the
    frames of [y] that hold [c]. *)
Lemma cell_frames_spec (y : volume) c :
  StronglySorted Z.lt (cell_frames y c)
  /\ forall i : nat,
       Z.of_nat i ∈ cell_frames y c
       <-> exists f : frame_t, y !! i = Some f /\ c ∈ concat f.
Proof.
  split; [apply nonzero_from_sorted|]. intros i.
  unfold cell_frames, any_axis12. rewrite elem_of_nonzero_from.
  unfold volume in *. split.
  - intros (j & Hj & Hb). assert (j = i) as -> by lia.
    rewrite list_lookup_fmap in Hb.
    destruct (y !! i) as [f|]; [|done]. injection Hb as Hb.
    exists f. split; [done|]. by apply frame_has_true.
  - intros (f & Hf & Hc). exists i. split; [done|].
    rewrite list_lookup_fmap, Hf. simpl. f_equal. by apply frame_has_true.
Qed.

(** C5. In every result of [relabel_sequential_lineage], the [frames]
    of each output record are exactly the ascending list of the
    indices of the frames of the returned volume in which the new id
    of the record occurs as a pixel value. *)
Theorem relabeled_frames_match_new_volume (y : volume) (lineage : lineage_t)
    (y_relabel : volume) (new_lineage : lineage_t) (new_id : Z) (r : cell) :
  relabel_sequential_lineage y lineage = Ok (y_relabel, new_lineage) ->
  (new_id, r) ∈ new_lineage ->
  frames r = cell_frames y_relabel new_id
  /\ StronglySorted Z.lt (frames r)
  /\ forall i : nat,
       Z.of_nat i ∈ frames r
       <-> exists f : frame_t, y_relabel !! i = Some f /\ new_id ∈ concat f.
Proof.
  intros (_ & _ & -> & Hloop)%relabel_run Hin.
  destruct (cells_loop_frames _ _ _ _ _ _ _ _ Hloop Hin)
    as [Hnil | (c & Hc & -> & Hfr)]; [by apply elem_of_nil in Hnil|].
  assert (frames r
          = cell_frames (map (map (map (fw_get (nonzero_ids (np_unique y))))) y)
              (fw_get (nonzero_ids (np_unique y)) c)) as Heq.
  { by rewrite cell_frames_relabel. }
  split; [done|]. rewrite Heq. apply cell_frames_spec.
Qed.

Lemma relabeled_frames_match_new_volume_witness :
  frames (Cell 2 (Some 1) [] [1])
  = cell_frames [[[1]]; [[2]]] 2
  /\ StronglySorted Z.lt (frames (Cell 2 (Some 1) [] [1]))
  /\ forall i : nat,
       Z.of_nat i ∈ frames (Cell 2 (Some 1) [] [1])
       <-> exists f : frame_t, [[[1]]; [[2]]] !! i = Some f /\ 2 ∈ concat f.
Proof.
  apply (relabeled_frames_match_new_volume [[[4]]; [[7]]]
           [(7, Cell 7 (Some 4) [] [0; 1; 2]); (4, Cell 4 None [7; 9] [])]
           [[[1]]; [[2]]]
           [(1, Cell 1 None [2] [0]); (2, Cell 2 (Some 1) [] [1])]).
  - vm_compute. reflexivity.
  - right. left.
Defined.

(** *** Totality *)

Lemma dict_get_in (lineage : lineage_t) k r :
  dict_get lineage k = Some r -> (k, r) ∈ lineage.
Proof.
  induction lineage as [|[k' r'] lineage IH]; simpl; [done|].
  case_decide as Hk; [intros [= ->]; subst; left|]. intros ?%IH. by right.
Qed.

Lemma cells_loop_total y fw lineage cell_ids : forall acc,
  (forall c, c ∈ cell_ids -> numpy_int c = true) ->
  (forall c, c ∈ cell_ids -> dict_mem lineage c = true) ->
  (forall k r, (k, r) ∈ lineage -> refs_in_range r) ->
  exists new_lineage, cells_loop y fw lineage cell_ids acc = Ok new_lineage.
Proof.
  induction cell_ids as [|c cell_ids IH]; intros acc Hint Hrec Hrefs; [by eexists|].
  assert (dict_mem lineage c = true) as Hc by (apply Hrec; left).
  unfold dict_mem in Hc.
  destruct (dict_get lineage c) as [old|] eqn:Eold; [|done].
  destruct (IH (dict_set acc (fw_get fw c) (new_record y fw c old)))
    as [nl Hnl].
  { intros c' Hc'. apply Hint. by right. }
  { intros c' Hc'. apply Hrec. by right. }
  { done. }
  exists nl. apply cells_loop_cons_Ok. split; [apply Hint; left|].
  exists old. split; [done|]. split; [|done].
  eapply Hrefs, dict_get_in, Eold.
Qed.







End RelabelerFacts.

(** ** Integers as decimal text *)

Module PyStrFacts.
Import PyStr.

Lemma numeral_digits u : Forall (fun c => is_digit c = true) (numeral u).
Proof. unfold numeral. induction u; simpl; constructor; done. Qed.

Lemma numeral_nonempty u : u <> Nil -> numeral u <> [].
Proof. unfold numeral. by destruct u. Qed.

Lemma digit_not_space c : is_digit c = true -> is_space c = false.
Proof.
  unfold is_digit, is_space.
  intros [H1 H2]%andb_prop. apply Nat.leb_le in H1, H2.
  repeat (apply orb_false_iff; split).
  - apply andb_false_iff. right. apply Nat.leb_gt. lia.
  - apply Nat.eqb_neq. lia.
  - apply Nat.eqb_neq. lia.
  - apply Nat.eqb_neq. lia.
Qed.

Lemma lstrip_head c l : is_space c = false -> lstrip (c :: l) = c :: l.
Proof. simpl. by intros ->. Qed.

Lemma lstrip_no_space l : Forall (fun c => is_space c = false) l -> lstrip l = l.
Proof. destruct 1; [done|]. by apply lstrip_head. Qed.

Lemma strip_no_space l : Forall (fun c => is_space c = false) l -> strip l = l.
Proof.
  intros Hl. unfold strip. rewrite (lstrip_no_space l Hl).
  rewrite lstrip_no_space; [apply rev_involutive|].
  apply Forall_forall. intros c Hc%list_elem_of_In%in_rev%list_elem_of_In.
  by eapply Forall_forall in Hl.
Qed.

Lemma literal_digits_all ds :
  Forall (fun c => is_digit c = true) ds -> literal_digits true ds = Some ds.
Proof. induction 1 as [|c ds Hc _ IH]; simpl; [done|]. by rewrite Hc, IH. Qed.

Lemma literal_digits_numeral ds :
  ds <> [] -> Forall (fun c => is_digit c = true) ds ->
  literal_digits false ds = Some ds.
Proof.
  intros Hne Hds. destruct Hds as [|c ds Hc Hds]; [done|].
  simpl. by rewrite Hc, literal_digits_all.
Qed.

(** [int] reads a numeral of no more than [max_str_digits] digits
    back. *)
Lemma int_of_numeral (negative : bool) u :
  u <> Nil -> (length (numeral u) <= max_str_digits)%nat ->
  int_of_str (string_of_list_ascii ((if negative then ["-"%char] else []) ++ numeral u))
  = Ok (if negative then - Z.of_uint u else Z.of_uint u).
Proof.
  intros Hu Hlen. unfold int_of_str.
  rewrite list_ascii_of_string_of_list_ascii.
  pose proof (numeral_digits u) as Hds. pose proof (numeral_nonempty u Hu) as Hne.
  assert (Forall (fun c => is_space c = false) (numeral u)) as Hsp.
  { eapply Forall_impl; [exact Hds|]. apply digit_not_space. }
  assert (NilEmpty.uint_of_string (string_of_list_ascii (numeral u)) = Some u)
    as Hparse.
  { unfold numeral. rewrite string_of_list_ascii_of_string. apply NilEmpty.usu. }
  assert ((max_str_digits <? length (numeral u))%nat = false) as Hlim
    by (apply Nat.ltb_ge; lia).
  destruct negative; simpl.
  - rewrite strip_no_space by (by constructor).
    rewrite decide_True by done.
    by rewrite (literal_digits_numeral _ Hne Hds), Hlim, Hparse.
  - rewrite (strip_no_space _ Hsp).
    destruct (numeral u) as [|c ds] eqn:E; [done|].
    pose proof Hds as [Hc _]%Forall_cons.
    rewrite decide_False by (by intros ->).
    rewrite decide_False by (by intros ->).
    by rewrite (literal_digits_numeral _ Hne Hds), Hlim, Hparse.
Qed.

Lemma str_of_int_numeral k :
  exists (negative : bool) u,
    u <> Nil
    /\ str_of_int k
       = string_of_list_ascii ((if negative then ["-"%char] else []) ++ numeral u)
    /\ (if negative then - Z.of_uint u else Z.of_uint u) = k
    /\ int_digits k = length (numeral u).
Proof.
  pose proof (DecimalZ.of_to k) as Hk. unfold int_digits, str_of_int.
  assert (forall u, String.length (NilZero.string_of_uint u) = length (numeral u)
                    \/ u = Nil) as Hlen.
  { intros u. destruct u; [by right|left..]; unfold numeral; simpl;
      f_equal; induction (NilEmpty.string_of_uint u) as [|a s IH];
      simpl; congruence. }
  destruct k as [|p|p]; simpl in *.
  - exists false, zero. by vm_compute.
  - exists false, (Pos.to_uint p). pose proof (Unsigned.to_uint_nonnil p) as Hp.
    split; [done|]. split; [|split; [done|]].
    + unfold numeral. cbn [app].
      rewrite string_of_list_ascii_of_string. by destruct (Pos.to_uint p).
    + by destruct (Hlen (Pos.to_uint p)).
  - exists true, (Pos.to_uint p). pose proof (Unsigned.to_uint_nonnil p) as Hp.
    split; [done|]. split; [|split; [done|]].
    + unfold numeral. cbn [app string_of_list_ascii].
      rewrite string_of_list_ascii_of_string. by destruct (Pos.to_uint p).
    + by destruct (Hlen (Pos.to_uint p)).
Qed.

(** [int(str(k)) == k], for an integer of no more than
    [max_str_digits] digits. *)
Lemma int_of_str_of_int k :
  (int_digits k <= max_str_digits)%nat -> int_of_str (str_of_int k) = Ok k.
Proof.
  destruct (str_of_int_numeral k) as (negative & u & Hu & -> & <- & ->).
  by apply int_of_numeral.
Qed.

Lemma to_int_not_nil k : Z.to_int k <> Pos Nil /\ Z.to_int k <> Neg Nil.
Proof.
  destruct k as [|p|p]; simpl; split; try done;
    intros [= H]; by apply (Unsigned.to_uint_nonnil p).
Qed.

Lemma str_of_int_inj k1 k2 : str_of_int k1 = str_of_int k2 -> k1 = k2.
Proof.
  unfold str_of_int. intros Heq.
  destruct (to_int_not_nil k1) as [H1 H1'], (to_int_not_nil k2) as [H2 H2'].
  pose proof (NilZero.isi _ H1 H1') as E1. pose proof (NilZero.isi _ H2 H2') as E2.
  rewrite Heq, E2 in E1. injection E1 as E1.
  rewrite <- (DecimalZ.of_to k1), <- (DecimalZ.of_to k2). by rewrite E1.
Qed.

(** [int] raises nothing but its [ValueError]. *)
Lemma int_of_str_raises s e : int_of_str s = Raise e -> e = int_error.
Proof.
  unfold int_of_str.
  destruct (match strip (list_ascii_of_string s) with
            | [] => _ | _ :: _ => _ end) as [negative body].
  destruct (literal_digits false body) as [ds|]; [|congruence].
  destruct (_ <? _)%nat; [congruence|].
  destruct (NilEmpty.uint_of_string _); [done|congruence].
Qed.

End PyStrFacts.

(** ** The track container codec *)

Module CodecFacts.
Import Codec CodecSpec PyStrFacts Samples.

Section DictFacts.
Context {K : Type} `{EqDecision K}.
Implicit Types (d acc items : dict K cell).

Lemma dict_set_fresh d k v : k ∉ d.*1 -> dict_set d k v = (d ++ [(k, v)])%list.
Proof.
  induction d as [|[k' v'] d IH]; simpl; [done|].
  rewrite not_elem_of_cons. intros [Hne Hd].
  rewrite decide_False by done. by rewrite IH.
Qed.

Lemma foldl_dict_set_distinct items : forall acc,
  NoDup (acc.*1 ++ items.*1) ->
  foldl (fun d kv => dict_set d kv.1 kv.2) acc items = (acc ++ items)%list.
Proof.
  induction items as [|[k v] items IH]; intros acc Hnd; simpl.
  { by rewrite app_nil_r. }
  simpl in Hnd. rewrite dict_set_fresh.
  - rewrite IH; [by rewrite <- app_assoc|].
    rewrite fmap_app. simpl. by rewrite <- app_assoc.
  - apply NoDup_app in Hnd as (_ & Hdisj & _). intros Hk.
    apply (Hdisj k Hk). left.
Qed.

Lemma build_dict_distinct items : NoDup items.*1 -> build_dict items = items.
Proof. intros Hnd. unfold build_dict. by rewrite foldl_dict_set_distinct. Qed.

End DictFacts.

Lemma dump_object_keys (d : lineage_t) :
  (dump_object d).*1 = PyStr.str_of_int <$> d.*1.
Proof. unfold dump_object. induction d as [|[k v] d IH]; simpl; [done|]. by f_equal. Qed.

Lemma dump_object_distinct (d : lineage_t) : NoDup d.*1 -> NoDup (dump_object d).*1.
Proof.
  intros Hnd. rewrite dump_object_keys. apply NoDup_fmap_2; [|done].
  intros k1 k2. apply str_of_int_inj.
Qed.

(** Re-keying what was dumped gives the mapping back, binding by binding. *)
Lemma int_ok_digits k : int_ok k = true <-> (PyStr.int_digits k <= PyStr.max_str_digits)%nat.
Proof. unfold int_ok. apply Nat.leb_le. Qed.

Lemma dumpable_cons kv (d : lineage_t) :
  dumpable (kv :: d) = true
  <-> int_ok kv.1 = true /\ record_ok kv.2 = true /\ dumpable d = true.
Proof. unfold dumpable. simpl. rewrite !andb_true_iff. tauto. Qed.

Lemma int_keys_dump (d : lineage_t) : forall acc : lineage_t,
  NoDup (acc.*1 ++ d.*1) -> dumpable d = true ->
  int_keys (dump_object d) acc = Ok (acc ++ d)%list.
Proof.
  induction d as [|[k v] d IH]; intros acc Hnd Hok; simpl.
  { by rewrite app_nil_r. }
  apply dumpable_cons in Hok as (Hk & _ & Hok). simpl in Hk.
  rewrite int_of_str_of_int by (by apply int_ok_digits). simpl. simpl in Hnd.
  rewrite dict_set_fresh.
  - rewrite IH; [by rewrite <- app_assoc| |done].
    rewrite fmap_app. simpl. by rewrite <- app_assoc.
  - apply NoDup_app in Hnd as (_ & Hdisj & _). intros Hin.
    apply (Hdisj k Hin). left.
Qed.

Lemma rekey_dumped (l : list lineage_t) :
  Forall (fun d : lineage_t => NoDup d.*1) l ->
  Forall (fun d => dumpable d = true) l ->
  mapM (fun tracks => int_keys tracks []) (map build_dict (map dump_object l)) = Ok l.
Proof.
  induction 1 as [|d l Hd _ IH]; intros Hok; simpl; [done|].
  apply Forall_cons in Hok as [Hdok Hok].
  rewrite build_dict_distinct by by apply dump_object_distinct.
  rewrite int_keys_dump by done. simpl. by rewrite IH.
Qed.

Lemma dumped_records_ok (d : lineage_t) :
  dumpable d = true -> forallb (fun kv => record_ok kv.2) (dump_object d) = true.
Proof.
  induction d as [|[k v] d IH]; [done|].
  intros (_ & Hv & Hd)%dumpable_cons. simpl in *. by rewrite Hv, IH.
Qed.

Lemma forallb_true_Forall {A} (f : A -> bool) (l : list A) :
  forallb f l = true <-> Forall (fun x => f x = true) l.
Proof.
  induction l as [|x l IH]; simpl; [by split; [constructor|]|].
  rewrite andb_true_iff, Forall_cons. tauto.
Qed.

(** [json.dump] returns exactly when no integer of the lineages has
    too many digits. *)
Lemma json_dump_Ok (lineages : lineages_arg) :
  Forall (fun d => dumpable d = true) (as_list lineages)
  <-> exists j, json_dump lineages = Ok j.
Proof.
  destruct lineages as [d|l]; simpl.
  - rewrite Forall_singleton. destruct (dumpable d); naive_solver.
  - rewrite <- forallb_true_Forall. destruct (forallb dumpable l); naive_solver.
Qed.

Lemma json_dump_raises (lineages : lineages_arg) e :
  json_dump lineages = Raise e -> e = json_dump_error.
Proof.
  destruct lineages as [d|l]; simpl;
    [destruct (dumpable d)|destruct (forallb dumpable l)]; congruence.
Qed.

Lemma decode_dumped (lineages : lineages_arg) (j : json) :
  well_keyed lineages -> json_dump lineages = Ok j ->
  decode_lineages (JsonFile j) = Ok (as_list lineages).
Proof.
  unfold well_keyed, decode_lineages. intros Hkeys Hj.
  assert (Forall (fun d => dumpable d = true) (as_list lineages)) as Hok
    by (apply json_dump_Ok; eauto).
  destruct lineages as [d|l]; simpl in *.
  - pose proof (proj1 (Forall_singleton _ _) Hok) as Hd. simpl in Hd.
    rewrite Hd in Hj. injection Hj as <-.
    simpl. rewrite (dumped_records_ok d Hd), bind_ok.
    by apply (rekey_dumped [d] Hkeys).
  - pose proof Hok as Hok'. apply forallb_true_Forall in Hok'.
    rewrite Hok' in Hj. injection Hj as <-. simpl.
    assert (forallb (forallb (fun kv => record_ok kv.2)) (map dump_object l)
            = true) as ->.
    { apply forallb_true_Forall, Forall_fmap.
      eapply Forall_impl; [exact Hok|]. apply dumped_records_ok. }
    rewrite bind_ok. by apply rekey_dumped.
Qed.

(** *** Arrays *)

Lemma ndarray_nested_ind (P : ndarray -> Prop) :
  (forall dt s d, P (NdArray dt s d)) ->
  (forall l, Forall P l -> P (ListOf l)) ->
  forall a, P a.
Proof.
  intros Harray Hlist. fix IH 1. intros [dt s d|l]; [apply Harray|].
  apply Hlist. induction l as [|x l IHl]; constructor; [apply IH|apply IHl].
Qed.

Lemma stack_raises (items : list npy) e :
  stack items = Raise e -> e = np_save_error \/ e = Undetermined.
Proof.
  unfold stack. destruct items as [|a rest]; [done|].
  repeat destruct (forallb _ _); naive_solver.
Qed.

(** [np.save] raises nothing but its [ValueError], on lists of arrays
    of different shapes, where the embedding follows it. *)
Lemma np_save_raises (a : ndarray) e :
  np_save a = Raise e -> e = np_save_error \/ e = Undetermined.
Proof.
  unfold np_save.
  assert (np_asanyarray a = Raise e -> e = np_save_error \/ e = Undetermined)
    as Hraise; [|destruct (np_asanyarray a); naive_solver].
  revert e. induction a as [dt s d|l IH] using ndarray_nested_ind; intros e;
    [done|]. cbn [np_asanyarray].
  match goal with
  | |- context [?f l ≫= stack] => set (items := f)
  end.
  assert (forall e, items l = Raise e -> e = np_save_error \/ e = Undetermined)
    as Hitems.
  { clear e. induction IH as [|x l Hx _ IHl]; intros e; cbn; [done|].
    destruct (np_asanyarray x) as [x'|e'] eqn:Ex; [|intros [= <-]; by apply Hx].
    rewrite bind_ok. fold items.
    destruct (items l) as [r|e'] eqn:Er; [done|]. intros [= <-]. by apply IHl. }
  destruct (items l) as [r|e'] eqn:Er; [rewrite bind_ok; apply stack_raises|].
  intros [= <-]. by apply Hitems.
Qed.

Lemma np_save_array dt s d : np_save (NdArray dt s d) = Ok (NpyFile (Npy dt s d)).
Proof. done. Qed.

(** An array proper comes back from [np.save] and [np.load] as it
    was. *)
Lemma reloaded_array (a : ndarray) : is_array a -> reloaded a = Ok a.
Proof.
  destruct a as [dt s d|l]; [|done]. intros Hdt. unfold reloaded.
  rewrite np_save_array, bind_ok. unfold np_load. simpl.
  by rewrite bool_decide_eq_false_2.
Qed.

Lemma reloaded_Ok (a a' : ndarray) :
  reloaded a = Ok a' <-> exists c, np_save a = Ok c /\ np_load c = Ok a'.
Proof.
  unfold reloaded. destruct (np_save a) as [c|e]; [rewrite bind_ok|];
    naive_solver.
Qed.

(** *** Opening what was written *)

Lemma getmember_raises (a : archive) name e :
  getmember a name = Raise e -> e = KeyError.
Proof.
  induction a as [|[n c] a IH]; cbn [getmember]; [congruence|].
  destruct (getmember a name); [done|].
  destruct (decide (n = name)); congruence.
Qed.

Lemma getmember_absent (a : archive) name :
  name ∉ a.*1 <-> getmember a name = Raise KeyError.
Proof.
  induction a as [|[n c] a IH]; [set_solver|].
  rewrite fmap_cons, not_elem_of_cons, IH. cbn [getmember fst].
  destruct (getmember a name) as [c'|e] eqn:E; [naive_solver|].
  apply getmember_raises in E as ->.
  destruct (decide (n = name)); split; try done; intros []; congruence.
Qed.


(** A file that was written is read back under a path that leads to
    it. *)
Lemma open_written_file name ref f w :
  open_path w Reading name = inr ref ->
  tarfile_open_r (Path name) (tarfile_close (ToFile ref) (TarFile f) w) = Ok f.
Proof.
  intros Href. cbn [tarfile_open_r tarfile_close open_path files].
  rewrite Href. cbn [os_result]. rewrite bind_ok. by rewrite lookup_insert_eq.
Qed.

Lemma buffer_written id f w :
  buffer (tarfile_close (ToBuffer id) f w) id
  = {| before := (before (buffer w id) ++ [f])%list; after := [];
       junk := junk (buffer w id)
               || match after (buffer w id) with [] => false | _ :: _ => true end |}.
Proof. unfold buffer at 1. cbn [tarfile_close buffers]. by rewrite lookup_insert_eq. Qed.

Lemma buffer_rewound id w :
  buffer (rewind id w) id
  = {| before := []; after := (before (buffer w id) ++ after (buffer w id))%list;
       junk := junk (buffer w id) |}.
Proof. unfold buffer at 1. cbn [rewind buffers]. by rewrite lookup_insert_eq. Qed.

(** A buffer that was written from its start is read back after it
    was rewound. *)
Lemma open_written_buffer id a w :
  before (buffer w id) = [] ->
  tarfile_open_r (BytesIO id) (rewind id (tarfile_close (ToBuffer id) (TarFile a) w))
  = Ok a.
Proof.
  intros Hstart. cbn [tarfile_open_r]. rewrite buffer_rewound, buffer_written.
  cbn [before after]. by rewrite Hstart.
Qed.

(** A buffer that was written at its end, and not rewound, is read as
    an archive without a member. *)
Lemma open_unwound_buffer id f w :
  after (buffer w id) = [] -> junk (buffer w id) = false ->
  tarfile_open_r (BytesIO id) (tarfile_close (ToBuffer id) f w) = Ok [].
Proof.
  intros Hend Hjunk. cbn [tarfile_open_r]. rewrite buffer_written.
  cbn [before after junk]. rewrite Hend, Hjunk. cbn [orb].
  by destruct (before (buffer w id)).
Qed.

(** *** The save path *)

Lemma add_members_Ok lineages raw tracked lineage_name j r t :
  json_dump lineages = Ok j -> np_save raw = Ok r -> np_save tracked = Ok t ->
  add_members lineages raw tracked lineage_name
  = (Ok (), [(lineage_name, JsonFile j); ("raw.npy", r); ("tracked.npy", t)]).
Proof. unfold add_members. by intros -> -> ->. Qed.

Lemma add_members_raises lineages raw tracked lineage_name e :
  (add_members lineages raw tracked lineage_name).1 = Raise e ->
  e = json_dump_error \/ e = np_save_error \/ e = Undetermined.
Proof.
  unfold add_members.
  destruct (json_dump lineages) as [j|e1] eqn:Ej.
  2:{ intros [= <-]. left. by eapply json_dump_raises. }
  destruct (np_save raw) as [r|e1] eqn:Er.
  2:{ intros [= <-]. right. by eapply np_save_raises. }
  destruct (np_save tracked) as [t|e1] eqn:Et; [done|].
  intros [= <-]. right. by eapply np_save_raises.
Qed.

(** What the save path raises: the error of opening the target, the
    [ValueError] of [json.dump] or that of [np.save]. *)
Lemma save_track_data_raises filename lineages raw tracked lineage_name w e :
  (save_track_data filename lineages raw tracked lineage_name w).1 = Raise e ->
  (exists oe, e = raise_os oe)
  \/ e = json_dump_error \/ e = np_save_error \/ e = Undetermined.
Proof.
  unfold save_track_data.
  destruct (tarfile_open_w filename w) as [h|e1] eqn:Eh.
  - pose proof (add_members_raises lineages raw tracked lineage_name e).
    destruct (add_members _ _ _ _) as [r members]. simpl in *. tauto.
  - intros [= <-]. left. destruct filename as [name|id]; [|done].
    simpl in Eh. destruct (open_path w Writing name) as [oe|ref]; [|done].
    injection Eh as <-. by exists oe.
Qed.

Lemma save_track_data_Ok filename lineages raw tracked lineage_name w h j r t :
  tarfile_open_w filename w = Ok h ->
  json_dump lineages = Ok j -> np_save raw = Ok r -> np_save tracked = Ok t ->
  save_track_data filename lineages raw tracked lineage_name w
  = (Ok (),
     tarfile_close h
       (TarFile [(lineage_name, JsonFile j); ("raw.npy", r); ("tracked.npy", t)]) w).
Proof.
  intros Hh Hj Hr Ht. unfold save_track_data.
  by rewrite Hh, (add_members_Ok _ _ _ lineage_name j r t Hj Hr Ht).
Qed.

(** Loading an archive with the three members of the save path. *)
Lemma load_members (filename : target) (w : world) (lineages : lineages_arg)
    (lineage_name : string) (j : json) (r t : content) (raw' tracked' : ndarray) :
  lineage_name = "lineage.json" \/ lineage_name = "lineages.json" ->
  well_keyed lineages -> json_dump lineages = Ok j ->
  np_load r = Ok raw' -> np_load t = Ok tracked' ->
  tarfile_open_r filename w
  = Ok [(lineage_name, JsonFile j); ("raw.npy", r); ("tracked.npy", t)] ->
  load_trks filename w
  = Ok {| Codec.lineages := as_list lineages; X := raw'; y := tracked' |}.
Proof.
  intros Hname Hkeys Hj Hr Ht Hopen. unfold load_trks.
  rewrite Hopen, bind_ok.
  assert (find_lineage
            [(lineage_name, JsonFile j); ("raw.npy", r); ("tracked.npy", t)]
          = Ok (JsonFile j)) as Hfind.
  { by destruct Hname as [-> | ->]. }
  assert (getmember [(lineage_name, JsonFile j); ("raw.npy", r);
                     ("tracked.npy", t)] "raw.npy" = Ok r) as ->.
  { by destruct Hname as [-> | ->]. }
  assert (getmember [(lineage_name, JsonFile j); ("raw.npy", r);
                     ("tracked.npy", t)] "tracked.npy" = Ok t) as ->.
  { by destruct Hname as [-> | ->]. }
  rewrite Hfind. cbn [mbind result_bind]. rewrite Hr, Ht.
  by rewrite (decode_dumped lineages j Hkeys Hj).
Qed.

(** Loading what the save path wrote: a file under the same path, when
    that leads to the file for reading as for writing; a buffer that
    was written from its start, once it is rewound; and a buffer that
    was written at its end and is not rewound reads as an archive that
    has no array. *)
Lemma load_saved (lineages : lineages_arg) (raw tracked raw' tracked' : ndarray)
    (lineage_name : string) (w : world) :
  lineage_name = "lineage.json" \/ lineage_name = "lineages.json" ->
  well_keyed lineages ->
  Forall (fun d => dumpable d = true) (as_list lineages) ->
  reloaded raw = Ok raw' -> reloaded tracked = Ok tracked' ->
  (forall name ref,
     open_path w Writing name = inr ref -> open_path w Reading name = inr ref ->
     exists w',
       save_track_data (Path name) lineages raw tracked lineage_name w = (Ok (), w')
       /\ load_trks (Path name) w'
          = Ok {| Codec.lineages := as_list lineages; X := raw'; y := tracked' |})
  /\ (forall id,
        exists w',
          save_track_data (BytesIO id) lineages raw tracked lineage_name w
          = (Ok (), w')
          /\ (before (buffer w id) = [] ->
              load_trks (BytesIO id) (rewind id w')
              = Ok {| Codec.lineages := as_list lineages;
                      X := raw'; y := tracked' |})
          /\ (after (buffer w id) = [] -> junk (buffer w id) = false ->
              load_trks (BytesIO id) w' = Raise KeyError)).
Proof.
  intros Hname Hkeys [j Hj]%json_dump_Ok
    (r & Hr & Hraw)%reloaded_Ok (t & Ht & Htracked)%reloaded_Ok.
  split.
  - intros name ref Hw Hrd. eexists. split.
    + apply (save_track_data_Ok _ _ _ _ _ _ (ToFile ref) j r t); [|done..].
      simpl. by rewrite Hw.
    + eapply load_members; [done..|]. by apply open_written_file.
  - intros id. eexists. split; [|split].
    + by apply (save_track_data_Ok _ _ _ _ _ _ (ToBuffer id) j r t).
    + intros Hstart. eapply load_members; [done..|].
      by apply open_written_buffer.
    + intros Hend Hjunk. unfold load_trks.
      by rewrite open_unwound_buffer.
Qed.

(** C1. For every raw array, label array and lineage payload (one
    mapping of integer cell ids to cell records, or a list of such
    mappings, of integers that [json] writes), written by
    [save_track_data] under either lineage entry name, [load_trks]
    returns the two arrays as they were saved and the list of lineages
    with every key back as the integer it was and every record equal
    to the original: from a file, under the path it was saved to, and
    from a buffer that was written from its start, once the caller has
    rewound it.  (A buffer that is read where the save path left it, at
    its end, has no array: [load_trks] raises [KeyError].) *)
Theorem load_after_save (lineages : lineages_arg) (raw tracked : ndarray)
    (lineage_name : string) (w : world) :
  lineage_name = "lineage.json" \/ lineage_name = "lineages.json" ->
  well_keyed lineages ->
  Forall (fun d => dumpable d = true) (as_list lineages) ->
  is_array raw -> is_array tracked ->
  (forall name ref,
     open_path w Writing name = inr ref -> open_path w Reading name = inr ref ->
     exists w',
       save_track_data (Path name) lineages raw tracked lineage_name w = (Ok (), w')
       /\ load_trks (Path name) w'
          = Ok {| Codec.lineages := as_list lineages; X := raw; y := tracked |})
  /\ (forall id,
        exists w',
          save_track_data (BytesIO id) lineages raw tracked lineage_name w
          = (Ok (), w')
          /\ (before (buffer w id) = [] ->
              load_trks (BytesIO id) (rewind id w')
              = Ok {| Codec.lineages := as_list lineages;
                      X := raw; y := tracked |})
          /\ (after (buffer w id) = [] -> junk (buffer w id) = false ->
              load_trks (BytesIO id) w' = Raise KeyError)).
Proof.
  intros Hname Hkeys Hok Hraw Htracked.
  apply load_saved; [done..|by apply reloaded_array|by apply reloaded_array].
Qed.

Lemma load_after_save_witness :
  (forall name ref,
     open_path movie_world Writing name = inr ref ->
     open_path movie_world Reading name = inr ref ->
     exists w',
       save_track_data (Path name) (OneLineage [(1, mother); (-2, daughter)])
         sample_raw sample_tracked "lineage.json" movie_world = (Ok (), w')
       /\ load_trks (Path name) w'
          = Ok {| Codec.lineages := [[(1, mother); (-2, daughter)]];
                  X := sample_raw; y := sample_tracked |})
  /\ (forall id,
        exists w',
          save_track_data (BytesIO id) (OneLineage [(1, mother); (-2, daughter)])
            sample_raw sample_tracked "lineage.json" movie_world = (Ok (), w')
          /\ (before (buffer movie_world id) = [] ->
              load_trks (BytesIO id) (rewind id w')
              = Ok {| Codec.lineages := [[(1, mother); (-2, daughter)]];
                      X := sample_raw; y := sample_tracked |})
          /\ (after (buffer movie_world id) = [] ->
              junk (buffer movie_world id) = false ->
              load_trks (BytesIO id) w' = Raise KeyError)).
Proof.
  apply (load_after_save (OneLineage [(1, mother); (-2, daughter)])
           sample_raw sample_tracked "lineage.json" movie_world).
  - by left.
  - repeat constructor; set_solver.
  - repeat constructor.
  - discriminate.
  - discriminate.
Defined.

(** *** Locating the lineage entry *)

Lemma find_lineage_batch (trks : archive) c :
  getmember trks "lineages.json" = Ok c -> find_lineage trks = Ok c.
Proof. unfold find_lineage. by intros ->. Qed.

Lemma find_lineage_single (trks : archive) c :
  "lineages.json" ∉ trks.*1 -> getmember trks "lineage.json" = Ok c ->
  find_lineage trks = Ok c.
Proof. unfold find_lineage. by intros ->%getmember_absent ->. Qed.

Lemma find_lineage_none (trks : archive) :
  "lineages.json" ∉ trks.*1 -> "lineage.json" ∉ trks.*1 ->
  find_lineage trks = Raise no_lineage.
Proof. unfold find_lineage. by intros ->%getmember_absent ->%getmember_absent. Qed.

(** C6, as amended. [load_trks] first reads the entries [raw.npy] and
    [tracked.npy].  For an archive that holds both arrays it locates the
    lineage entry by trying the batch entry name [lineages.json] first
    and the single-movie entry name [lineage.json] second: an archive
    that has the batch entry is decoded from it, whether or not it also
    has the single-movie entry; one that has only the single-movie entry
    is decoded from that; one that has neither raises the
    invalid-container error. *)
Theorem lineage_entry_lookup (filename : target) (w : world) (trks : archive)
    (raw tracked : ndarray) :
  tarfile_open_r filename w = Ok trks ->
  getmember trks "raw.npy" ≫= np_load = Ok raw ->
  getmember trks "tracked.npy" ≫= np_load = Ok tracked ->
  (forall c, getmember trks "lineages.json" = Ok c ->
     load_trks filename w
     = l ← decode_lineages c; mret {| lineages := l; X := raw; y := tracked |})
  /\ (forall c, "lineages.json" ∉ trks.*1 ->
       getmember trks "lineage.json" = Ok c ->
       load_trks filename w
       = l ← decode_lineages c; mret {| lineages := l; X := raw; y := tracked |})
  /\ ("lineages.json" ∉ trks.*1 -> "lineage.json" ∉ trks.*1 ->
      load_trks filename w = Raise no_lineage).
Proof.
  intros Hopen Hraw Htracked. unfold load_trks.
  rewrite Hopen, bind_ok. cbv beta.
  rewrite Hraw, bind_ok. cbv beta.
  rewrite Htracked, bind_ok. cbv beta.
  split; [|split].
  - intros c Hc. by rewrite (find_lineage_batch trks c Hc), bind_ok.
  - intros c Hno Hc. by rewrite (find_lineage_single trks c Hno Hc), bind_ok.
  - intros Hno1 Hno2. by rewrite (find_lineage_none trks Hno1 Hno2).
Qed.

Lemma lineage_entry_lookup_witness :
  (forall c, getmember both_entries "lineages.json" = Ok c ->
     load_trks (Path "both.trk") both_entries_world
     = l ← decode_lineages c;
       mret {| lineages := l; X := sample_raw; y := sample_tracked |})
  /\ (forall c, "lineages.json" ∉ both_entries.*1 ->
       getmember both_entries "lineage.json" = Ok c ->
       load_trks (Path "both.trk") both_entries_world
       = l ← decode_lineages c;
         mret {| lineages := l; X := sample_raw; y := sample_tracked |})
  /\ ("lineages.json" ∉ both_entries.*1 -> "lineage.json" ∉ both_entries.*1 ->
      load_trks (Path "both.trk") both_entries_world = Raise no_lineage).
Proof.
  apply (lineage_entry_lookup (Path "both.trk") both_entries_world both_entries
           sample_raw sample_tracked); by vm_compute.
Defined.

(** C6 as stated fails twice: an archive with both lineage entries is
    decoded from the batch entry, not from the single-movie entry; and an
    archive with neither lineage entry and no [raw.npy] raises
    [KeyError], not the invalid-container error. *)
Lemma load_reads_batch_entry_first :
  getmember both_entries "lineage.json" = Ok (JsonFile (JObject [("1", mother)]))
  /\ getmember both_entries "lineages.json"
     = Ok (JsonFile (JArray [[("2", daughter)]]))
  /\ load_trks (Path "both.trk") both_entries_world
     = Ok {| lineages := [[(2, daughter)]]; X := sample_raw; y := sample_tracked |}
  /\ load_trks (BytesIO 0)
       (table_world [] [] ∅ ∅ {[ 0%nat := Buffer [] [TarFile []] false ]})
     = Raise KeyError.
Proof. repeat split; by vm_compute. Qed.

(** *** Extension checks *)

Lemma bad_extension_not_saving ext filename :
  ~ ((exists oe, bad_extension ext filename = raise_os oe)
     \/ bad_extension ext filename = json_dump_error
     \/ bad_extension ext filename = np_save_error
     \/ bad_extension ext filename = Undetermined).
Proof.
  unfold bad_extension.
  intros [[[| |n] H] | [H | [H | H]]]; simpl in H; discriminate.
Qed.

(** With a target that passes the extension test, neither save function
    raises the extension error, whatever the save path does. *)
Lemma save_trk_cases filename lineage raw tracked w :
  extension_refused ".trk" filename = false ->
  (exists d, save_trk filename lineage raw tracked w
             = save_track_data filename (OneLineage d) raw tracked "lineage.json" w)
  \/ save_trk filename lineage raw tracked w = (Raise too_many_lineages, w)
  \/ save_trk filename lineage raw tracked w = (Raise IndexError, w).
Proof.
  unfold extension_refused, save_trk. intros ->.
  destruct lineage as [d|[|d [|d' l]]]; simpl; eauto.
Qed.

Lemma save_trk_not_extension filename lineage raw tracked w ext target :
  extension_refused ".trk" filename = false ->
  (save_trk filename lineage raw tracked w).1 <> Raise (bad_extension ext target).
Proof.
  intros Hext Hraise.
  destruct (save_trk_cases filename lineage raw tracked w Hext)
    as [[d E] | [E | E]]; rewrite E in Hraise.
  - apply save_track_data_raises in Hraise.
    by apply (bad_extension_not_saving ext target).
  - discriminate.
  - discriminate.
Qed.

Lemma save_trks_not_extension filename lineages raw tracked w ext target :
  extension_refused ".trks" filename = false ->
  (save_trks filename lineages raw tracked w).1
  <> Raise (bad_extension ext target).
Proof.
  unfold extension_refused, save_trks. intros -> Hraise.
  apply save_track_data_raises in Hraise.
  by apply (bad_extension_not_saving ext target).
Qed.

(** C7, as amended. For every string filename, [save_trk] raises the
    extension error exactly when the extension of the filename is not
    [.trk], and [save_trks] exactly when it is not [.trks]; the call
    then writes nothing.  (With the right extension either function can
    still raise a [ValueError]: [save_trk] for a lineage list of more
    than one element, and both where the save path raises one.)  For a
    [BytesIO] target neither function checks an extension: [save_trks]
    goes straight to the save path, and so does [save_trk] for a single
    mapping, and neither ever raises an extension error. *)
Theorem extension_checks (name : string) (id : nat) (lineage : lineages_arg)
    (raw tracked : ndarray) (w : world) :
  ((save_trk (Path name) lineage raw tracked w).1
     = Raise (bad_extension ".trk" (Path name))
   <-> (OsPath.splitext name).2 <> ".trk")
  /\ ((OsPath.splitext name).2 <> ".trk" ->
      save_trk (Path name) lineage raw tracked w
      = (Raise (bad_extension ".trk" (Path name)), w))
  /\ ((save_trks (Path name) lineage raw tracked w).1
        = Raise (bad_extension ".trks" (Path name))
      <-> (OsPath.splitext name).2 <> ".trks")
  /\ ((OsPath.splitext name).2 <> ".trks" ->
      save_trks (Path name) lineage raw tracked w
      = (Raise (bad_extension ".trks" (Path name)), w))
  /\ save_trks (BytesIO id) lineage raw tracked w
     = save_track_data (BytesIO id) lineage raw tracked "lineages.json" w
  /\ (forall d, save_trk (BytesIO id) (OneLineage d) raw tracked w
               = save_track_data (BytesIO id) (OneLineage d) raw tracked
                   "lineage.json" w)
  /\ (forall ext, (save_trk (BytesIO id) lineage raw tracked w).1
                 <> Raise (bad_extension ext (BytesIO id)))
  /\ (forall ext, (save_trks (BytesIO id) lineage raw tracked w).1
                 <> Raise (bad_extension ext (BytesIO id))).
Proof.
  assert (forall suffix, (OsPath.splitext name).2 <> suffix
                         <-> extension_refused suffix (Path name) = true) as Hext.
  { intros suffix. unfold extension_refused. simpl.
    case_bool_decide; naive_solver. }
  assert ((OsPath.splitext name).2 <> ".trk" ->
          save_trk (Path name) lineage raw tracked w
          = (Raise (bad_extension ".trk" (Path name)), w)) as Htrk.
  { intros Hne. unfold save_trk. simpl. by rewrite bool_decide_eq_false_2. }
  assert ((OsPath.splitext name).2 <> ".trks" ->
          save_trks (Path name) lineage raw tracked w
          = (Raise (bad_extension ".trks" (Path name)), w)) as Htrks.
  { intros Hne. unfold save_trks. simpl. by rewrite bool_decide_eq_false_2. }
  split; [|split; [done|split; [|split; [done|]]]].
  - split; [|by intros ->%Htrk]. intros Hraise. apply Hext.
    destruct (extension_refused ".trk" (Path name)) eqn:E; [done|].
    by apply save_trk_not_extension in Hraise.
  - split; [|by intros ->%Htrks]. intros Hraise. apply Hext.
    destruct (extension_refused ".trks" (Path name)) eqn:E; [done|].
    by apply save_trks_not_extension in Hraise.
  - split; [done|]. split; [done|]. split; intros ext.
    + by apply save_trk_not_extension.
    + by apply save_trks_not_extension.
Qed.

(** C7 as stated fails for [save_trk]: a filename with the single-movie
    extension and a lineage list of two mappings raise a [ValueError]. *)
Lemma save_trk_raises_with_right_extension :
  (OsPath.splitext "movie.trk").2 = ".trk"
  /\ (save_trk (Path "movie.trk") (LineageList [[]; []])
        sample_raw sample_tracked empty_world).1
     = Raise (ValueError
         "For trk file, lineages must be a dictionary or list with a single dictionary").
Proof. split; by vm_compute. Qed.

(** *** An empty lineage list *)

(** C9, as amended. A call of [save_trk] whose lineage is the empty list
    raises an exception and writes nothing: the extension error when the
    target is a string path whose extension is not [.trk], and otherwise
    the [IndexError] of taking the first element of the empty list.  The
    empty list is neither normalized to a mapping nor reported as the
    list of more than one element. *)
Theorem save_trk_empty_list (filename : target) (raw tracked : ndarray) (w : world) :
  save_trk filename (LineageList []) raw tracked w
  = (Raise (if extension_refused ".trk" filename
            then bad_extension ".trk" filename else IndexError), w)
  /\ (save_trk filename (LineageList []) raw tracked w).1 <> Raise too_many_lineages
  /\ (save_trk filename (LineageList []) raw tracked w).1 <> Ok ().
Proof.
  unfold save_trk, extension_refused.
  destruct (negb (isinstance_BytesIO filename) && _); by repeat split.
Qed.

(** C9 as stated fails for a string filename with another extension:
    the extension error comes first, not the [IndexError]. *)
Lemma save_trk_empty_list_wrong_extension :
  save_trk (Path "movie.trks") (LineageList []) sample_raw sample_tracked empty_world
  = (Raise (ValueError "filename must end with `.trk`. Found movie.trks"), empty_world)
  /\ ValueError "filename must end with `.trk`. Found movie.trks" <> IndexError.
Proof. split; [by vm_compute|done]. Qed.

End CodecFacts.

(** ** The batch importer *)

Module ImporterFacts.
Import Codec Importer ImporterSpec PyStr PyStrFacts Samples.

(** *** Every file name has a sort key *)

Lemma is_digit_cases c :
  is_digit c = true ->
  c ∈ ["0"; "1"; "2"; "3"; "4"; "5"; "6"; "7"; "8"; "9"]%char.
Proof.
  unfold is_digit. intros [H1 H2]%andb_prop. apply Nat.leb_le in H1, H2.
  rewrite <- (ascii_nat_embedding c).
  assert (exists k, (k < 10)%nat /\ nat_of_ascii c = (48 + k)%nat) as (k & Hk & ->).
  { exists (nat_of_ascii c - 48)%nat. lia. }
  do 10 (destruct k as [|k]; [vm_compute; by repeat constructor|]). lia.
Qed.

Lemma uint_of_digits (l : list ascii) :
  Forall (fun c => is_digit c = true) l ->
  exists u, NilEmpty.uint_of_string (string_of_list_ascii l) = Some u.
Proof.
  induction 1 as [|c l Hc _ [u IH]]; simpl; [eauto|]. rewrite IH.
  apply is_digit_cases in Hc.
  repeat (apply elem_of_cons in Hc as [-> | Hc]; [simpl; eauto|]).
  by apply elem_of_nil in Hc.
Qed.

Lemma forallb_Forall {A} (f : A -> bool) (l : list A) :
  forallb f l = true <-> Forall (fun x => f x = true) l.
Proof.
  induction l as [|x l IH]; simpl; [by split; [constructor|]|].
  rewrite andb_true_iff, Forall_cons. tauto.
Qed.

(** [int] accepts a run of digits [0-9] of no more than
    [max_str_digits] digits. *)
Lemma int_of_str_digits s :
  list_ascii_of_string s <> [] ->
  Forall (fun c => is_digit c = true) (list_ascii_of_string s) ->
  (String.length s <= max_str_digits)%nat ->
  exists n, int_of_str s = Ok n.
Proof.
  unfold int_of_str. intros Hne Hds Hlen.
  destruct (list_ascii_of_string s) as [|c l] eqn:E; [done|].
  assert (Forall (fun c => is_space c = false) (c :: l)) as Hsp.
  { eapply Forall_impl; [exact Hds|]. apply digit_not_space. }
  rewrite (strip_no_space _ Hsp).
  pose proof Hds as [Hc _]%Forall_cons.
  rewrite decide_False by (by intros ->).
  rewrite decide_False by (by intros ->).
  rewrite (literal_digits_numeral (c :: l) ltac:(done) Hds).
  assert (length (c :: l) = String.length s) as Hl.
  { rewrite <- E. clear. induction s as [|a s IH]; simpl; congruence. }
  rewrite (proj2 (Nat.ltb_ge _ _)) by lia.
  destruct (uint_of_digits _ Hds) as [u Hu]. rewrite Hu. eauto.
Qed.

(** [isdigit] takes a text for a number when it has a character and
    only digits and superscripts. *)
Lemma isdigit_true s :
  isdigit s = true
  <-> list_ascii_of_string s <> []
      /\ Forall (fun c => is_unicode_digit c = true) (list_ascii_of_string s).
Proof.
  unfold isdigit. destruct (list_ascii_of_string s) as [|c l]; [naive_solver|].
  rewrite forallb_Forall. naive_solver.
Qed.

Lemma superscript_not_space c :
  is_unicode_digit c = true -> is_space c = false.
Proof.
  unfold is_unicode_digit. rewrite !orb_true_iff.
  intros [[[H | H] | H] | H]; [by apply digit_not_space|..];
    apply Nat.eqb_eq in H; unfold is_space; rewrite H; reflexivity.
Qed.

(** [int] refuses a text without a digit [0-9] that [isdigit] takes for
    a number: one of superscripts. *)
Lemma int_of_str_superscripts s :
  isdigit s = true ->
  Forall (fun c => is_digit c = false) (list_ascii_of_string s) ->
  int_of_str s = Raise int_error.
Proof.
  intros [Hne Hds]%isdigit_true Hno. unfold int_of_str.
  destruct (list_ascii_of_string s) as [|c l] eqn:E; [done|].
  assert (Forall (fun c => is_space c = false) (c :: l)) as Hsp.
  { eapply Forall_impl; [exact Hds|]. apply superscript_not_space. }
  rewrite (strip_no_space _ Hsp).
  apply Forall_cons in Hds as [Hc _]. apply Forall_cons in Hno as [Hd _].
  assert (c <> "-"%char /\ c <> "+"%char /\ c <> "_"%char) as (H1 & H2 & H3).
  { unfold is_unicode_digit in Hc. rewrite Hd in Hc. simpl in Hc.
    repeat split; intros ->; discriminate. }
  rewrite decide_False by done. rewrite decide_False by done.
  simpl. rewrite Hd. by rewrite decide_False.
Qed.

Lemma run_ok_piece in_run cur :
  run_ok in_run cur ->
  run_ok in_run (list_ascii_of_string (string_of_list_ascii (rev cur))).
Proof.
  rewrite list_ascii_of_string_of_list_ascii. unfold run_ok.
  destruct in_run.
  - intros [Hne Hds]. split; [|by apply Forall_rev].
    intros Hrev. apply (f_equal (@rev ascii)) in Hrev.
    by rewrite rev_involutive in Hrev.
  - apply Forall_rev.
Qed.

Lemma split_from_alternates s : forall cur in_run,
  run_ok in_run cur -> alternates in_run (split_from cur in_run s).
Proof.
  induction s as [|c s IH]; intros cur in_run Hcur; simpl.
  - destruct in_run; cbn [alternates negb].
    + split; [by apply run_ok_piece|]. split; [constructor|done].
    + split; [by apply run_ok_piece|done].
  - case_bool_decide as Hc.
    + apply IH. unfold run_ok in *. destruct in_run.
      * split; [done|]. constructor; [done|]. apply Hcur.
      * by constructor.
    + simpl. split; [by apply run_ok_piece|]. apply IH.
      unfold run_ok. destruct in_run, (is_digit c) eqn:Ec; try done; simpl.
      * by repeat constructor.
      * split; [done|]. by repeat constructor.
Qed.

(** The key of a piece: a number for a run of digits, the text itself
    for a text; there is none for a text of superscripts. *)
Lemma convert_piece in_run p x :
  run_ok in_run (list_ascii_of_string p) -> convert p = Ok x ->
  if in_run then exists n, x = KInt n else x = KStr p.
Proof.
  unfold convert, run_ok. destruct in_run.
  - intros [Hne Hds]. assert (isdigit p = true) as ->.
    { apply isdigit_true. split; [done|].
      eapply Forall_impl; [exact Hds|]. intros c Hc. unfold is_unicode_digit.
      by rewrite Hc. }
    destruct (int_of_str p) as [n|e]; [|done]. intros [= <-]. by exists n.
  - intros Hno. destruct (isdigit p) eqn:Ep; [|by intros [= <-]].
    by rewrite (int_of_str_superscripts p Ep Hno).
Qed.

Lemma convert_pieces l : forall in_run k,
  alternates in_run l -> mapM convert l = Ok k -> shaped in_run k.
Proof.
  induction l as [|p l IH]; intros in_run k; cbn [mapM alternates].
  - by intros -> [= <-].
  - intros [Hp Hl].
    destruct (convert p) as [x|e] eqn:Ex; [|done]. rewrite bind_ok.
    destruct (mapM convert l) as [k'|e] eqn:Ek; [|done]. rewrite bind_ok.
    intros [= <-]. pose proof (IH _ _ Hl eq_refl) as Hs.
    pose proof (convert_piece in_run p x Hp Ex) as Hx.
    destruct in_run; [destruct Hx as [n ->]|subst x]; by simpl.
Qed.

(** A key of a file name has the shape text, number, text, ... *)
Lemma alphanum_key_shaped f k : alphanum_key f = Ok k -> shaped false k.
Proof.
  unfold alphanum_key, re_split_digits.
  apply convert_pieces, split_from_alternates. constructor.
Qed.

Lemma mapM_raises {A B} (f : A -> result B) (l : list A) e :
  mapM f l = Raise e -> exists x, x ∈ l /\ f x = Raise e.
Proof.
  induction l as [|x l IH]; cbn [mapM]; [done|].
  destruct (f x) as [z|e'] eqn:Ex; [|intros [= <-]; exists x; split; [left|done]].
  rewrite bind_ok. destruct (mapM f l) as [k|e'] eqn:Ek; [done|].
  intros [= <-]. destruct (IH eq_refl) as (x' & ? & ?).
  exists x'. split; [by right|done].
Qed.

(** The key function raises nothing but the [ValueError] of [int]. *)
Lemma alphanum_key_raises f e : alphanum_key f = Raise e -> e = int_error.
Proof.
  unfold alphanum_key. intros (p & _ & Hp)%mapM_raises.
  unfold convert in Hp. destruct (isdigit p); [|done].
  destruct (int_of_str p) as [n|e'] eqn:En; [done|].
  injection Hp as <-. by eapply int_of_str_raises.
Qed.

(** *** Plain names have a key *)

Lemma split_from_chars (Q : ascii -> Prop) s : forall cur in_run,
  Forall Q cur -> Forall Q s ->
  Forall (fun p => Forall Q (list_ascii_of_string p)
                   /\ (String.length p <= length cur + length s)%nat)
    (split_from cur in_run s).
Proof.
  assert (forall cur : list ascii,
            Forall Q cur ->
            Forall Q (list_ascii_of_string (string_of_list_ascii (rev cur)))
            /\ String.length (string_of_list_ascii (rev cur)) = length cur) as Hp.
  { intros cur Hcur. rewrite list_ascii_of_string_of_list_ascii.
    split; [by apply Forall_rev|].
    rewrite <- (length_rev cur). generalize (rev cur). clear.
    induction l as [|a l IH]; simpl; congruence. }
  assert (Forall Q (list_ascii_of_string "") /\ (String.length "" <= 0)%nat)
    as Hnil by (split; [constructor|simpl; lia]).
  induction s as [|c s IH]; intros cur in_run Hcur Hs; simpl.
  - destruct (Hp cur Hcur) as [H1 H2].
    destruct in_run; repeat constructor; try done; simpl; lia.
  - apply Forall_cons in Hs as [Hc Hs]. case_bool_decide.
    + eapply Forall_impl; [apply IH; [by constructor|done]|].
      simpl. intros p [? ?]. split; [done|lia].
    + destruct (Hp cur Hcur) as [H1 H2]. constructor; [split; [done|lia]|].
      eapply Forall_impl; [apply (IH [c]); [by repeat constructor|done]|].
      simpl. intros p [? ?]. split; [done|lia].
Qed.

Lemma convert_plain in_run p :
  run_ok in_run (list_ascii_of_string p) ->
  Forall (fun c => (nat_of_ascii c < 128)%nat) (list_ascii_of_string p) ->
  (String.length p <= max_str_digits)%nat ->
  exists x, convert p = Ok x.
Proof.
  unfold convert. intros Hrun Hascii Hlen. destruct (isdigit p) eqn:Ep; [|eauto].
  destruct in_run.
  - destruct Hrun as [Hne Hds].
    destruct (int_of_str_digits p Hne Hds Hlen) as [n ->]. simpl. eauto.
  - exfalso. apply isdigit_true in Ep as [Hne Hds]. unfold run_ok in Hrun.
    destruct (list_ascii_of_string p) as [|c l]; [done|].
    apply Forall_cons in Hds as [Hc _], Hrun as [Hd _], Hascii as [Ha _].
    unfold is_unicode_digit in Hc. rewrite Hd in Hc. simpl in Hc.
    rewrite !orb_true_iff in Hc.
    destruct Hc as [[Hc | Hc] | Hc]; apply Nat.eqb_eq in Hc; lia.
Qed.

Lemma convert_plain_pieces l : forall in_run,
  alternates in_run l ->
  Forall (fun p => Forall (fun c => (nat_of_ascii c < 128)%nat)
                     (list_ascii_of_string p)
                   /\ (String.length p <= max_str_digits)%nat) l ->
  exists k, mapM convert l = Ok k.
Proof.
  induction l as [|p l IH]; intros in_run; cbn [mapM alternates]; [by eauto|].
  intros [Hp Hl] [[Ha Hn] Hall]%Forall_cons.
  destruct (convert_plain in_run p Hp Ha Hn) as [x ->]. rewrite bind_ok.
  destruct (IH _ Hl Hall) as [k ->]. rewrite bind_ok. eauto.
Qed.

Lemma alphanum_key_plain f : plain_name f -> exists k, alphanum_key f = Ok k.
Proof.
  intros [Hascii Hlen]. unfold alphanum_key, re_split_digits.
  apply (convert_plain_pieces _ false).
  - apply split_from_alternates. constructor.
  - eapply Forall_impl;
      [apply (split_from_chars (fun c => (nat_of_ascii c < 128)%nat));
       [constructor|done]|].
    simpl. intros p [? Hp]. split; [done|].
    assert (length (list_ascii_of_string f) = String.length f) as Hl.
    { clear. induction f as [|a f IH]; simpl; congruence. }
    lia.
Qed.

(** *** Keys of one shape are totally ordered *)

Lemma ascii_compare_refl a : Ascii.compare a a = Eq.
Proof. apply N.compare_refl. Qed.

Lemma ascii_compare_lt_trans a b c :
  Ascii.compare a b = Lt -> Ascii.compare b c = Lt -> Ascii.compare a c = Lt.
Proof. unfold Ascii.compare. rewrite !N.compare_lt_iff. lia. Qed.

Lemma string_compare_lt_trans s : forall t u,
  String.compare s t = Lt -> String.compare t u = Lt -> String.compare s u = Lt.
Proof.
  induction s as [|a s IH]; intros [|b t] [|c u]; simpl; try done.
  destruct (Ascii.compare a b) eqn:Eab; [|clear IH|done];
    destruct (Ascii.compare b c) eqn:Ebc; try done.
  - apply Ascii.compare_eq_iff in Eab as ->, Ebc as ->.
    rewrite ascii_compare_refl. apply IH.
  - apply Ascii.compare_eq_iff in Eab as ->. by rewrite Ebc.
  - apply Ascii.compare_eq_iff in Ebc as <-. by rewrite Eab.
  - by rewrite (ascii_compare_lt_trans a b c).
Qed.

Lemma string_ltb_trans s t u :
  String.ltb s t = true -> String.ltb t u = true -> String.ltb s u = true.
Proof.
  unfold String.ltb. intros Hst Htu.
  rewrite (string_compare_lt_trans s t u); [done| |].
  - by destruct (String.compare s t).
  - by destruct (String.compare t u).
Qed.

Lemma string_ltb_asym s t :
  String.ltb s t = true -> String.ltb t s = false /\ s <> t.
Proof.
  unfold String.ltb. rewrite (String.compare_antisym t s).
  destruct (String.compare s t) eqn:E; try done. intros _. split; [done|].
  intros ->. pose proof (String.compare_antisym t t) as H.
  rewrite E in H. done.
Qed.

Lemma string_ltb_connex s t :
  s <> t -> String.ltb s t = false -> String.ltb t s = true.
Proof.
  unfold String.ltb. rewrite (String.compare_antisym t s).
  destruct (String.compare s t) eqn:E; try done.
  by apply String.compare_eq_iff in E.
Qed.

Lemma item_lt_total x z : same_kind x z -> exists b, item_lt x z = Ok b.
Proof. destruct x, z; simpl; by eauto. Qed.

Lemma item_lt_asym x z : item_lt x z = Ok true -> item_lt z x = Ok false /\ x <> z.
Proof.
  destruct x as [m|s], z as [n|t]; simpl; try done; intros [= H].
  - apply Z.ltb_lt in H. split; [f_equal; apply Z.ltb_ge; lia|].
    intros [= ->]. lia.
  - apply string_ltb_asym in H as [-> Hne]. split; [done|]. by intros [= ->].
Qed.

Lemma item_lt_connex x z :
  same_kind x z -> x <> z -> item_lt x z = Ok false -> item_lt z x = Ok true.
Proof.
  destruct x as [m|s], z as [n|t]; simpl; try done; intros _ Hne [= H]; f_equal.
  - apply Z.ltb_ge in H. apply Z.ltb_lt.
    destruct (decide (m = n)) as [->|]; [done|lia].
  - apply string_ltb_connex; [|done]. by intros ->.
Qed.

Lemma item_lt_trans x y z :
  item_lt x y = Ok true -> item_lt y z = Ok true -> item_lt x z = Ok true.
Proof.
  destruct x as [m|s], y as [n|t], z as [o|u]; simpl; try done;
    intros [= H1] [= H2]; f_equal.
  - apply Z.ltb_lt in H1, H2. apply Z.ltb_lt. lia.
  - by apply (string_ltb_trans s t u).
Qed.

Lemma shaped_heads in_run x k z k' :
  shaped in_run (x :: k) -> shaped in_run (z :: k') ->
  same_kind x z /\ shaped (negb in_run) k /\ shaped (negb in_run) k'.
Proof. destruct x, z, in_run; simpl; naive_solver. Qed.

(** Two keys of file names compare without a [TypeError]. *)
Lemma key_lt_total k1 : forall in_run k2,
  shaped in_run k1 -> shaped in_run k2 -> exists b, key_lt k1 k2 = Ok b.
Proof.
  induction k1 as [|x k1 IH]; intros in_run [|z k2] H1 H2;
    cbn [key_lt]; eauto.
  destruct (shaped_heads _ _ _ _ _ H1 H2) as (Hkind & Hk1 & Hk2).
  destruct (decide (x = z)); [by eapply IH|by apply item_lt_total].
Qed.

Lemma key_lt_asym k1 : forall k2,
  key_lt k1 k2 = Ok true -> key_lt k2 k1 = Ok false.
Proof.
  induction k1 as [|x k1 IH]; intros [|z k2]; cbn [key_lt]; try done.
  destruct (decide (x = z)) as [->|Hne].
  - rewrite decide_True by done. apply IH.
  - intros [H Hne']%item_lt_asym. by rewrite decide_False.
Qed.

(** "Not greater" is transitive on keys of one shape. *)
Lemma key_le_trans a : forall in_run k c,
  shaped in_run a -> shaped in_run k -> shaped in_run c ->
  key_lt k a = Ok false -> key_lt c k = Ok false -> key_lt c a = Ok false.
Proof.
  induction a as [|xa a IH]; intros in_run [|xk k] [|xc c] Ha Hk Hc;
    cbn [key_lt]; try done.
  destruct (shaped_heads _ _ _ _ _ Ha Hk) as (Hak & Ha' & Hk').
  destruct (shaped_heads _ _ _ _ _ Hk Hc) as (Hkc & _ & Hc').
  destruct (decide (xk = xa)) as [Hka|Hka], (decide (xc = xk)) as [Hck|Hck].
  - subst. rewrite decide_True by done. by apply IH with (negb in_run).
  - subst. by rewrite decide_False.
  - subst. by rewrite decide_False.
  - intros H1 H2.
    assert (item_lt xa xk = Ok true) as H1'.
    { apply item_lt_connex; [by destruct xa, xk|done|done]. }
    assert (item_lt xk xc = Ok true) as H2'.
    { apply item_lt_connex; [by destruct xk, xc|done|done]. }
    pose proof (item_lt_trans _ _ _ H1' H2') as [H3 Hne]%item_lt_asym.
    by rewrite decide_False.
Qed.

(** *** The sort *)

Lemma insert_keyed_sorted x l :
  keyed x -> Forall keyed l -> StronglySorted in_order l ->
  exists l', insert_keyed x l = Ok l' /\ l' ≡ₚ x :: l /\ StronglySorted in_order l'.
Proof.
  intros Hx Hl Hs. induction Hs as [|h t Hs IH Hht]; cbn [insert_keyed].
  { exists [x]. repeat split; [done|]. by repeat constructor. }
  apply Forall_cons in Hl as [Hh Ht].
  destruct (key_lt_total h.1 false x.1) as [b Hb]; [apply Hh|apply Hx|].
  rewrite Hb, bind_ok. destruct b.
  - destruct (IH Ht) as (t' & -> & Hperm & Hs').
    exists (h :: t'). split; [done|]. split.
    + rewrite Hperm. apply perm_swap.
    + constructor; [done|]. rewrite Hperm. constructor; [|done].
      by apply key_lt_asym.
  - exists (x :: h :: t). split; [done|]. split; [done|].
    constructor; [by constructor|]. constructor; [done|].
    rewrite Forall_forall in Hht, Ht |- *. intros y Hy.
    apply (key_le_trans x.1 false h.1 y.1);
      [apply Hx|apply Hh|by apply Ht|done|by apply Hht].
Qed.

Lemma sort_keyed_sorted l :
  Forall keyed l ->
  exists l', sort_keyed l = Ok l' /\ l' ≡ₚ l /\ StronglySorted in_order l'.
Proof.
  induction 1 as [|x l Hx Hl (l' & Hsort & Hperm & Hs)]; cbn [sort_keyed].
  { exists []. repeat split; [done|constructor]. }
  rewrite Hsort, bind_ok.
  destruct (insert_keyed_sorted x l' Hx) as (l'' & -> & Hperm' & Hs'');
    [by rewrite Hperm|done|].
  exists l''. repeat split; [|done]. by rewrite Hperm', Hperm.
Qed.

Lemma keyed_file_list file_list l :
  mapM (fun f => k ← alphanum_key f; mret (k, f)) file_list = Ok l ->
  l.*2 = file_list /\ Forall keyed l.
Proof.
  revert l. induction file_list as [|f file_list IH]; intros l; cbn [mapM].
  { by intros [= <-]. }
  destruct (alphanum_key f) as [k|e] eqn:Ek; [|done]. rewrite !bind_ok.
  cbv beta.
  destruct (mapM _ file_list) as [l'|e] eqn:El; [|done]. rewrite bind_ok.
  intros [= <-]. destruct (IH l' eq_refl) as [Hnames Hkeyed].
  split; [by rewrite fmap_cons, Hnames|]. constructor; [|done].
  split; [done|]. by eapply alphanum_key_shaped.
Qed.

Lemma keyed_file_list_raises file_list e :
  mapM (fun f => k ← alphanum_key f; mret (k, f)) file_list = Raise e ->
  e = int_error /\ exists f, f ∈ file_list /\ alphanum_key f = Raise int_error.
Proof.
  intros (f & Hf & Hraise)%mapM_raises.
  destruct (alphanum_key f) as [k|e'] eqn:Ek; [done|]. injection Hraise as <-.
  apply alphanum_key_raises in Ek as He. subst e'. eauto.
Qed.

Lemma sorted_lookup_order (l : list (list key_item * string)) : forall i j a b,
  StronglySorted in_order l ->
  l !! i = Some a -> l !! j = Some b -> (i < j)%nat -> in_order a b.
Proof.
  intros i j a b Hs. revert i j.
  induction Hs as [|h t Hs IH Hht]; intros i j; [done|].
  destruct i as [|i], j as [|j]; simpl; try lia.
  - intros [= <-] Hb _. rewrite Forall_forall in Hht.
    apply Hht. by eapply list_elem_of_lookup_2.
  - intros Ha Hb Hij. apply (IH i j); [done|done|lia].
Qed.

(** [sorted] returns unless the key function raises for one of the
    names.  The sorted list is a rearrangement of the listing in which
    a name with a smaller key stands before a name with a greater
    key. *)
Lemma file_list_sorted_spec (file_list : list string) :
  (exists sorted,
     file_list_sorted file_list = Ok sorted
     /\ sorted ≡ₚ file_list
     /\ forall i j f g kf kg,
          sorted !! i = Some f -> sorted !! j = Some g ->
          alphanum_key f = Ok kf -> alphanum_key g = Ok kg ->
          key_lt kf kg = Ok true -> (i < j)%nat)
  \/ (file_list_sorted file_list = Raise int_error
      /\ exists f, f ∈ file_list /\ alphanum_key f = Raise int_error).
Proof.
  unfold file_list_sorted.
  destruct (mapM _ file_list) as [l|e] eqn:Hl.
  2:{ right. by apply keyed_file_list_raises in Hl as [-> ?]. }
  left. apply keyed_file_list in Hl as [Hnames Hkeyed].
  destruct (sort_keyed_sorted l Hkeyed) as (s & Hsort & Hperm & Hs).
  exists (s.*2). rewrite bind_ok. cbv beta. rewrite Hsort.
  split; [done|]. split; [by rewrite Hperm, Hnames|].
  intros i j f g kf kg Hi Hj Hf Hg Hlt.
  rewrite list_lookup_fmap in Hi, Hj.
  destruct (s !! i) as [[kf' f']|] eqn:Ei; [|done].
  destruct (s !! j) as [[kg' g']|] eqn:Ej; [|done].
  simpl in Hi, Hj. injection Hi as ->. injection Hj as ->.
  assert (Forall keyed s) as Hks by by rewrite Hperm.
  rewrite Forall_forall in Hks.
  pose proof (Hks _ (list_elem_of_lookup_2 _ _ _ Ei)) as [Hkf _].
  pose proof (Hks _ (list_elem_of_lookup_2 _ _ _ Ej)) as [Hkg _].
  simpl in Hkf, Hkg. rewrite Hf in Hkf. rewrite Hg in Hkg.
  injection Hkf as <-. injection Hkg as <-.
  destruct (decide (i < j)%nat) as [|Hge]; [done|exfalso].
  destruct (decide (i = j)) as [->|Hne].
  - rewrite Ei in Ej. injection Ej as -> ->.
    apply key_lt_asym in Hlt as Hlt'. congruence.
  - assert (in_order (kg, g) (kf, f)) as Ho.
    { apply (sorted_lookup_order s j i); [done|done|done|lia]. }
    unfold in_order in Ho. simpl in Ho. congruence.
Qed.

(** A listing of plain names is sorted. *)
Lemma file_list_sorted_plain (file_list : list string) :
  Forall plain_name file_list -> exists sorted, file_list_sorted file_list = Ok sorted.
Proof.
  intros Hplain.
  destruct (file_list_sorted_spec file_list)
    as [(sorted & ? & _) | (_ & f & Hf & Hraise)]; [by eauto|].
  rewrite Forall_forall in Hplain.
  destruct (alphanum_key_plain f (Hplain f Hf)) as [k Hk]. congruence.
Qed.

(** *** The three movies *)

Lemma movies_sorted (file_list : list string) :
  file_list ≡ₚ ["movie1.trk"; "movie2.trk"; "movie10.trk"] ->
  file_list_sorted file_list = Ok ["movie1.trk"; "movie2.trk"; "movie10.trk"].
Proof.
  intros Hperm. symmetry in Hperm. apply permutations_Permutation in Hperm.
  vm_compute in Hperm.
  repeat (apply elem_of_cons in Hperm as [-> | Hperm]; [by vm_compute|]).
  by apply elem_of_nil in Hperm.
Qed.

(** *** The loop over the sorted names *)

(** The loop, when every file loads and has a lineage: it collects the
    first lineage and the two arrays of each file, in the order of the
    names. *)
Lemma load_loop_returns dirname w names : forall acc trks ds,
  Forall2 (fun f l => load_trks (Path (OsPath.join dirname f)) w = Ok l)
    names trks ->
  Forall2 (fun l d => head (lineages l) = Some d) trks ds ->
  load_loop dirname w names acc
  = Ok ((acc.1.1 ++ ds)%list, (acc.1.2 ++ (X <$> trks))%list,
        (acc.2 ++ (y <$> trks))%list).
Proof.
  induction names as [|f names IH]; intros [[a1 a2] a3] trks ds Hloads Hheads.
  { apply Forall2_nil_inv_l in Hloads as ->.
    apply Forall2_nil_inv_l in Hheads as ->. simpl. by rewrite !app_nil_r. }
  apply Forall2_cons_inv_l in Hloads as (l & trks' & Hl & Hloads & ->).
  apply Forall2_cons_inv_l in Hheads as (d & ds' & Hd & Hheads & ->).
  cbn [load_loop]. rewrite Hl, bind_ok.
  destruct (lineages l) as [|d0 rest] eqn:El; [done|]. injection Hd as ->.
  rewrite bind_ok, (IH _ trks' ds' Hloads Hheads). simpl.
  by rewrite <- !app_assoc.
Qed.

Lemma loads_all dirname w names :
  Forall (loads_a_movie dirname w) names ->
  exists (trks : list loaded) (ds : list lineage_t),
    Forall2 (fun f l => load_trks (Path (OsPath.join dirname f)) w = Ok l)
      names trks
    /\ Forall2 (fun l d => head (lineages l) = Some d) trks ds.
Proof.
  induction 1 as [|f names (l & Hl & Hne) _ (trks & ds & Hloads & Hheads)].
  { exists [], []. split; constructor. }
  destruct (lineages l) as [|d rest] eqn:El; [done|].
  exists (l :: trks), (d :: ds). split; constructor; try done. by rewrite El.
Qed.

(** The loop stops at the first file that does not load, or that has
    no lineage, with the exception of that round; the files after it
    are not loaded. *)
Lemma load_loop_stops dirname w pre f post e : forall acc,
  Forall (loads_a_movie dirname w) pre ->
  fails_with dirname w f e ->
  load_loop dirname w (pre ++ f :: post) acc = Raise e.
Proof.
  induction pre as [|g pre IH]; intros acc Hpre Hf.
  - cbn [app load_loop]. destruct Hf as [-> | (-> & l & -> & Hl)]; [done|].
    rewrite bind_ok. by rewrite Hl.
  - apply Forall_cons in Hpre as [(l & Hl & Hne) Hpre].
    cbn [app load_loop]. rewrite Hl, bind_ok.
    destruct (lineages l) as [|d rest]; [done|]. rewrite bind_ok.
    by apply IH.
Qed.

Lemma load_loop_raises dirname w f names : forall acc,
  f ∈ names ->
  (forall l, load_trks (Path (OsPath.join dirname f)) w = Ok l -> lineages l = []) ->
  exists e, load_loop dirname w names acc = Raise e.
Proof.
  induction names as [|f' names IH]; intros acc Hin Hbad; simpl.
  { by apply elem_of_nil in Hin. }
  destruct (load_trks (Path (OsPath.join dirname f')) w) as [l|e] eqn:El;
    [|by exists e].
  rewrite bind_ok.
  destruct (lineages l) as [|d rest] eqn:Ed; [by exists IndexError|].
  rewrite bind_ok. apply elem_of_cons in Hin as [-> | Hin]; [|by apply IH].
  apply Hbad in El. congruence.
Qed.

(** The importer, from the listing on. *)
Lemma importer_unfold dirname trks_filename w file_list :
  listdir dirname w = Ok file_list ->
  trk_folder_to_trks dirname trks_filename w
  = match file_list_sorted file_list
          ≫= (fun sorted => load_loop dirname w sorted ([], [], [])) with
    | Raise e => (Raise e, w)
    | Ok (lineages, raw, tracked) =>
        save_trks (Path (OsPath.join (OsPath.dirname dirname) trks_filename))
          (LineageList lineages) (ListOf raw) (ListOf tracked) w
    end.
Proof. intros Hdir. unfold trk_folder_to_trks. by rewrite Hdir, bind_ok. Qed.

(** C8. The importer sorts the names of the listing by the natural key
    and loads the files by going through the sorted list from its
    first name on.  [sorted] returns unless [int] refuses a piece of a
    name (one of superscript digits, or of more than [max_str_digits]
    digits), in which case nothing is loaded; it returns for every
    listing of plain names.  The sorted list is a rearrangement of the
    listing in which [movie1.trk] stands before [movie2.trk] and
    [movie2.trk] before [movie10.trk], wherever the three names occur;
    when the listing holds these three names and no other, in whatever
    order, the sorted list is [movie1.trk], [movie2.trk], [movie10.trk],
    the order of the numbers and not the order of the texts.  The
    files are loaded in the order of the sorted list: the importer
    raises the exception of the first name of the sorted list whose
    round fails, and when every round returns it hands to [save_trks]
    the lineages and the arrays in the order of the sorted list. *)
Theorem natural_sort_of_movies (dirname trks_filename : string) (w : world)
    (file_list : list string) :
  listdir dirname w = Ok file_list ->
  ((exists sorted,
      file_list_sorted file_list = Ok sorted
      /\ sorted ≡ₚ file_list
      /\ (forall i j k : nat,
            sorted !! i = Some "movie1.trk" ->
            sorted !! j = Some "movie2.trk" ->
            sorted !! k = Some "movie10.trk" ->
            (i < j < k)%nat)
      /\ (file_list ≡ₚ ["movie1.trk"; "movie2.trk"; "movie10.trk"] ->
          sorted = ["movie1.trk"; "movie2.trk"; "movie10.trk"])
      /\ (forall pre f post e,
            sorted = (pre ++ f :: post)%list ->
            Forall (loads_a_movie dirname w) pre ->
            fails_with dirname w f e ->
            trk_folder_to_trks dirname trks_filename w = (Raise e, w))
      /\ (forall (trks : list loaded) (ds : list lineage_t),
            Forall2 (fun f l => load_trks (Path (OsPath.join dirname f)) w = Ok l)
              sorted trks ->
            Forall2 (fun l d => head (lineages l) = Some d) trks ds ->
            trk_folder_to_trks dirname trks_filename w
            = save_trks
                (Path (OsPath.join (OsPath.dirname dirname) trks_filename))
                (LineageList ds) (ListOf (X <$> trks)) (ListOf (y <$> trks)) w))
   \/ (file_list_sorted file_list = Raise int_error
       /\ trk_folder_to_trks dirname trks_filename w = (Raise int_error, w)))
  /\ (Forall plain_name file_list ->
      exists sorted, file_list_sorted file_list = Ok sorted).
Proof.
  intros Hdir. split; [|apply file_list_sorted_plain].
  rewrite (importer_unfold dirname trks_filename w file_list Hdir).
  destruct (file_list_sorted_spec file_list)
    as [(sorted & Hsorted & Hperm & Horder) | [Hraise _]].
  2:{ right. split; [done|]. by rewrite Hraise. }
  left. exists sorted. rewrite Hsorted, bind_ok.
  split; [done|]. split; [done|]. split; [|split; [|split]].
  - intros i j k Hi Hj Hk. split.
    + eapply (Horder i j); [done|done| | |]; by vm_compute.
    + eapply (Horder j k); [done|done| | |]; by vm_compute.
  - intros Hthree%movies_sorted. congruence.
  - intros pre f post e -> Hpre Hf.
    by rewrite (load_loop_stops dirname w pre f post e).
  - intros trks ds Hloads Hheads.
    by rewrite (load_loop_returns dirname w sorted _ trks ds Hloads Hheads).
Qed.

Lemma natural_sort_of_movies_witness :
  ((exists sorted,
      file_list_sorted ["movie10.trk"; "movie1.trk"; "movie2.trk"] = Ok sorted
      /\ sorted ≡ₚ ["movie10.trk"; "movie1.trk"; "movie2.trk"]
      /\ (forall i j k : nat,
            sorted !! i = Some "movie1.trk" ->
            sorted !! j = Some "movie2.trk" ->
            sorted !! k = Some "movie10.trk" ->
            (i < j < k)%nat)
      /\ (["movie10.trk"; "movie1.trk"; "movie2.trk"]
            ≡ₚ ["movie1.trk"; "movie2.trk"; "movie10.trk"] ->
          sorted = ["movie1.trk"; "movie2.trk"; "movie10.trk"])
      /\ (forall pre f post e,
            sorted = (pre ++ f :: post)%list ->
            Forall (loads_a_movie "data/movies" movie_world) pre ->
            fails_with "data/movies" movie_world f e ->
            trk_folder_to_trks "data/movies" "all.trks" movie_world
            = (Raise e, movie_world))
      /\ (forall (trks : list loaded) (ds : list lineage_t),
            Forall2 (fun f l => load_trks (Path (OsPath.join "data/movies" f))
                                  movie_world = Ok l) sorted trks ->
            Forall2 (fun l d => head (lineages l) = Some d) trks ds ->
            trk_folder_to_trks "data/movies" "all.trks" movie_world
            = save_trks
                (Path (OsPath.join (OsPath.dirname "data/movies") "all.trks"))
                (LineageList ds) (ListOf (X <$> trks)) (ListOf (y <$> trks))
                movie_world))
   \/ (file_list_sorted ["movie10.trk"; "movie1.trk"; "movie2.trk"]
       = Raise int_error
       /\ trk_folder_to_trks "data/movies" "all.trks" movie_world
          = (Raise int_error, movie_world)))
  /\ (Forall plain_name ["movie10.trk"; "movie1.trk"; "movie2.trk"] ->
      exists sorted,
        file_list_sorted ["movie10.trk"; "movie1.trk"; "movie2.trk"] = Ok sorted).
Proof.
  apply (natural_sort_of_movies "data/movies" "all.trks" movie_world
           ["movie10.trk"; "movie1.trk"; "movie2.trk"]).
  by vm_compute.
Defined.

(** The importer on the sample directory: the batch archive holds the
    three lineages in the order movie 1, movie 2, movie 10, and the
    directory above lists it. *)
Example import_sample_directory :
  exists w',
    trk_folder_to_trks "data/movies" "all.trks" movie_world = (Ok (), w')
    /\ (l ← load_trks (Path "data/all.trks") w'; mret (lineages l))
       = Ok [[(1, Cell 1 None [] [0])]; [(2, Cell 2 None [] [0])];
             [(10, Cell 10 None [] [0])]]
    /\ exists names, listdir "data" w' = Ok names
                     /\ names ≡ₚ ["all.trks"; "movies"].
Proof.
  eexists. split; [by vm_compute|]. split; [by vm_compute|].
  eexists. split; [by vm_compute|]. apply Permutation_swap.
Qed.

(** A name of a superscript digit makes the sort raise: [isdigit]
    takes it for a number and [int] does not. *)
Example superscript_name_is_refused :
  file_list_sorted ["movie1.trk"; String (ascii_of_nat 178) ""] = Raise int_error.
Proof. by vm_compute. Qed.

End ImporterFacts.

(** ** What the validator accepts *)

Module ValidatorSpecFacts.
Import Validator ValidatorSpec ValidatorFacts Samples.

Lemma last_item_Some (l : list Z) x : last_item l = Ok x <-> last l = Some x.
Proof. unfold last_item. destruct (last l); naive_solver. Qed.

(** The daughters loop runs to its end exactly when every daughter is
    in the working set and is linked to the record. *)
Lemma daughters_loop_None lineage (s : gset Z) r lpf ds :
  last (frames r) = Some lpf ->
  daughters_loop lineage s lpf ds = Ok None
  <-> Forall (fun d => d ∈ s /\ daughter_linked lineage r d) ds.
Proof.
  intros Hlast. induction ds as [|d ds IH]; [by split; [constructor|]|].
  rewrite Forall_cons, <- IH. clear IH. cbn [daughters_loop].
  unfold daughter_linked, starts_after. rewrite Hlast.
  case_bool_decide as Hd; cbn [orb].
  { split; [done|]. intros [[Hin _] _]. done. }
  unfold dict_mem, dict_lookup.
  destruct (dict_get lineage d) as [dr|]; cbn [negb].
  2:{ split; [done|]. by intros [[_ (dr' & ? & _)] _]. }
  rewrite bind_ok.
  destruct (frames dr) as [|f fs] eqn:E; cbn [first_item].
  { split; [done|]. intros [[_ (dr' & [= <-] & Hst)] _]. by rewrite E in Hst. }
  case_bool_decide as Hf.
  - split; [done|]. intros [[_ (dr' & [= <-] & Hst)] _].
    rewrite E in Hst. simpl in Hst. lia.
  - split; [|by intros [_ ?]]. intros Hloop. split; [|done].
    split; [done|]. exists dr. split; [done|]. rewrite E. simpl. lia.
Qed.

(** The parent check lets a record pass exactly when its parent is
    linked to it. *)
Lemma parent_check_None lineage r :
  parent_check lineage r = Ok None <-> parent_linked lineage r.
Proof.
  unfold parent_check, parent_linked, starts_after.
  destruct (parent r) as [p|]; [|done].
  case_bool_decide as Hp; [by split; [left|]|].
  unfold dict_lookup. destruct (dict_get lineage p) as [pr|].
  2:{ split; [done|]. by intros [? | (pr' & ? & _)]. }
  unfold last_item. destruct (last (frames pr)) as [l|] eqn:El; rewrite ?bind_ok.
  2:{ split; [done|]. intros [? | (pr' & [= <-] & Hst)]; [done|].
      rewrite El in Hst. by destruct (head (frames r)). }
  destruct (frames r) as [|f fs]; cbn [first_item head]; rewrite ?bind_ok.
  { split; [done|]. by intros [? | (pr' & [= <-] & Hst)]. }
  cbn [mret result_ret]. case_bool_decide as Hf.
  - split; [done|]. intros [? | (pr' & [= <-] & Hst)]; [done|].
    rewrite El in Hst. lia.
  - split; [|done]. intros _. right. exists pr. split; [done|]. rewrite El. lia.
Qed.

Lemma record_step_inr y lineage (s s' : gset Z) k r :
  s ⊆ image_cells y ->
  record_step y lineage s k r = Ok (inr s')
  <-> k ∈ s /\ s' = s ∖ {[k]}
      /\ cell_frames y k = frames r
      /\ Forall (fun d => d ∈ s ∖ {[k]} /\ daughter_linked lineage r d)
           (daughters r)
      /\ parent_linked lineage r.
Proof.
  intros Hsub. unfold record_step.
  case_bool_decide as Hk; [naive_solver|].
  unfold set_remove. rewrite decide_True by done. rewrite bind_ok.
  case_bool_decide as Hfr; [naive_solver|].
  assert (cell_frames y k = frames r) as Hfr'
    by (by destruct (decide (cell_frames y k = frames r))).
  destruct (last_parent_frame_ok y s k r Hsub Hk Hfr') as [lpf Hlpf].
  rewrite Hlpf, bind_ok. apply last_item_Some in Hlpf.
  pose proof (daughters_loop_None lineage (s ∖ {[k]}) r lpf (daughters r) Hlpf)
    as Hds.
  pose proof (parent_check_None lineage r) as Hpc.
  destruct (daughters_loop_returns lineage (s ∖ {[k]}) lpf (daughters r))
    as [Hd | Hd]; rewrite Hd in *; rewrite bind_ok.
  - destruct (parent_check_returns lineage r) as [Hp | Hp];
      rewrite Hp in *; rewrite bind_ok.
    + split; [intros [= <-]|]; naive_solver.
    + split; [done|]. intros (_ & _ & _ & _ & Hpl). by apply Hpc in Hpl.
  - split; [done|]. intros (_ & _ & _ & Hdl & _). by apply Hds in Hdl.
Qed.

Lemma records_loop_inr y lineage items : forall s s' : gset Z,
  s ⊆ image_cells y ->
  records_loop y lineage s items = Ok (inr s')
  <-> records_pass y lineage s items /\ s' = s ∖ list_to_set items.*1.
Proof.
  induction items as [|[k r] items IH]; intros s s' Hsub; simpl.
  { assert (s ∖ ∅ = s) as Hs by set_solver.
    split; [intros [= <-]|intros [_ ->]]; by rewrite Hs. }
  pose proof (record_step_inr y lineage s) as Hstep.
  destruct (record_step_returns y lineage s k r Hsub) as [E | (s1 & E & Hs1)];
    rewrite E, bind_ok.
  - split; [done|]. intros [(Hk & Hfr & Hds & Hp & _) _].
    assert (record_step y lineage s k r = Ok (inr (s ∖ {[k]}))) as E'
      by (apply Hstep; [done|naive_solver]).
    congruence.
  - apply Hstep in E as (Hk & -> & Hfr & Hds & Hp); [|done].
    rewrite IH by set_solver.
    assert (s ∖ {[k]} ∖ list_to_set items.*1
            = s ∖ ({[k]} ∪ list_to_set items.*1)) as -> by set_solver.
    naive_solver.
Qed.

(** With the working set emptied at the end, the records that pass are
    the records in order: the working set is the set of the keys still
    to come. *)
Lemma records_pass_ok y lineage items : forall s : gset Z,
  records_pass y lineage s items /\ s ∖ list_to_set items.*1 = ∅
  <-> NoDup items.*1 /\ s = list_to_set items.*1 /\ records_ok y lineage items.
Proof.
  induction items as [|[k r] items IH]; intros s.
  { cbn [records_pass records_ok]. rewrite fmap_nil, list_to_set_nil.
    split; [intros [_ Hs]|intros (_ & -> & _)].
    - split; [constructor|]. split; [set_solver|done].
    - split; [done|set_solver]. }
  cbn [records_pass records_ok]. rewrite fmap_cons, list_to_set_cons, NoDup_cons.
  cbn [fst]. split.
  - intros [(Hk & Hfr & Hds & Hp & Hpass) Hs].
    destruct (IH (s ∖ {[k]})) as [(Hnd & Hs' & Hok) _].
    { split; [done|]. set_solver. }
    assert (k ∉ items.*1) as Hfresh.
    { intros Hin. assert (k ∈ s ∖ {[k]}) by (rewrite Hs'; set_solver).
      set_solver. }
    split; [done|]. split.
    { rewrite <- Hs'. apply set_eq. intros c.
      destruct (decide (c = k)) as [->|]; set_solver. }
    split; [done|]. split; [|done].
    eapply Forall_impl; [exact Hds|]. intros d [Hd Hl]. split; [|done].
    rewrite Hs' in Hd. set_solver.
  - intros ([Hfresh Hnd] & -> & Hfr & Hds & Hp & Hok).
    assert (({[k]} ∪ list_to_set items.*1 : gset Z) ∖ {[k]}
            = list_to_set items.*1) as Hs' by set_solver.
    split; [|set_solver]. split; [set_solver|]. split; [done|].
    rewrite Hs'. split.
    { eapply Forall_impl; [exact Hds|]. intros d [Hd Hl]. split; [|done].
      set_solver. }
    split; [done|].
    destruct (IH (list_to_set items.*1)) as [_ [Hpass _]]; [|done].
    done.
Qed.

Lemma is_valid_cases y lineage :
  is_valid_lineage y lineage = Ok true \/ is_valid_lineage y lineage = Ok false.
Proof.
  unfold is_valid_lineage.
  destruct (records_loop_returns y lineage lineage (image_cells y))
    as [-> | [s ->]]; [done|by right|simpl].
  destruct (bool_decide _); eauto.
Qed.

Lemma not_valid_false y lineage :
  is_valid_lineage y lineage <> Ok true -> is_valid_lineage y lineage = Ok false.
Proof. by destruct (is_valid_cases y lineage). Qed.

Lemma is_valid_pass y lineage :
  is_valid_lineage y lineage = Ok true
  <-> records_pass y lineage (image_cells y) lineage
      /\ image_cells y ∖ list_to_set lineage.*1 = ∅.
Proof.
  unfold is_valid_lineage.
  pose proof (records_loop_inr y lineage lineage (image_cells y)) as Hloop.
  destruct (records_loop_returns y lineage lineage (image_cells y))
    as [E | [s E]]; [done| |]; rewrite E, bind_ok.
  - split; [done|]. intros [Hpass _].
    assert (records_loop y lineage (image_cells y) lineage
            = Ok (inr (image_cells y ∖ list_to_set lineage.*1))) as E'
      by (by apply Hloop).
    congruence.
  - apply Hloop in E as [Hpass ->]; [|done].
    case_bool_decide as Hs; [naive_solver|].
    split; [|done]. intros _. split; [done|].
    by destruct (decide (image_cells y ∖ list_to_set lineage.*1 = ∅)).
Qed.

Lemma is_valid_accepted y lineage :
  is_valid_lineage y lineage = Ok true <-> accepted y lineage.
Proof.
  rewrite is_valid_pass, records_pass_ok. unfold accepted.
  assert (image_cells y = list_to_set lineage.*1
          <-> forall c, c ∈ lineage.*1 <-> c <> 0 /\ c ∈ pixels y) as ->; [|done].
  rewrite set_eq. setoid_rewrite elem_of_image_cells.
  setoid_rewrite elem_of_list_to_set. naive_solver.
Qed.

(** The conditions on a record of an accepted lineage, record by
    record. *)
Lemma records_ok_elem y lineage items k r :
  records_ok y lineage items -> (k, r) ∈ items ->
  cell_frames y k = frames r
  /\ Forall (fun d => d ∈ items.*1 /\ daughter_linked lineage r d) (daughters r)
  /\ parent_linked lineage r.
Proof.
  induction items as [|[k' r'] items IH]; simpl; [by intros _ ?%elem_of_nil|].
  intros (Hfr & Hds & Hp & Hok) [[= -> ->] | Hin]%elem_of_cons.
  - split; [done|]. split; [|done].
    eapply Forall_impl; [exact Hds|]. intros d [Hd Hl]. split; [by right|done].
  - destruct (IH Hok Hin) as (Hfr' & Hds' & Hp'). split; [done|].
    split; [|done].
    eapply Forall_impl; [exact Hds'|]. intros d [Hd Hl]. split; [by right|done].
Qed.

Lemma dict_get_keys (lineage : lineage_t) k :
  k ∈ lineage.*1 <-> exists r, dict_get lineage k = Some r.
Proof.
  induction lineage as [|[k' r'] lineage IH]; simpl.
  - split; [by intros ?%elem_of_nil|by intros [? ?]].
  - rewrite elem_of_cons, IH. case_decide; naive_solver.
Qed.

Lemma dict_get_elem (lineage : lineage_t) k r :
  dict_get lineage k = Some r -> (k, r) ∈ lineage.
Proof.
  induction lineage as [|[k' r'] lineage IH]; simpl; [done|].
  case_decide as Hk; [intros [= ->]; subst; left|right; auto].
Qed.

Lemma dict_get_NoDup (lineage : lineage_t) k r :
  NoDup lineage.*1 -> (k, r) ∈ lineage -> dict_get lineage k = Some r.
Proof.
  induction lineage as [|[k' r'] lineage IH]; simpl; [by intros _ ?%elem_of_nil|].
  rewrite NoDup_cons. intros [Hfresh Hnd] [[= -> ->] | Hin]%elem_of_cons.
  - by rewrite decide_True.
  - rewrite decide_False; [auto|]. intros ->. apply Hfresh.
    apply list_elem_of_fmap. by exists (k, r).
Qed.

Lemma sorted_head_le (l : list Z) h x :
  StronglySorted Z.lt l -> head l = Some h -> x ∈ l -> h <= x.
Proof.
  destruct 1 as [|a l Hs Hall]; [done|]. intros [= ->].
  intros [-> | Hx]%elem_of_cons; [lia|].
  rewrite Forall_forall in Hall. specialize (Hall x Hx). lia.
Qed.

Lemma sorted_le_last (l : list Z) m x :
  StronglySorted Z.lt l -> last l = Some m -> x ∈ l -> x <= m.
Proof.
  intros Hs. revert x. induction Hs as [|a l Hs IH Hall]; intros x; [done|].
  destruct l as [|b l]; simpl.
  - intros [= ->] ->%list_elem_of_singleton. lia.
  - intros Hlast [-> | Hx]%elem_of_cons; [|by apply IH].
    rewrite Forall_forall in Hall.
    assert (a < b) by (apply Hall; left).
    assert (b <= m) by (apply IH; [done|left]). lia.
Qed.

(** X1. [is_valid_lineage] returns [True] exactly for the lineages in
    which no key is repeated, the keys are the non-zero pixel values of
    the volume, and each record has the frames of its cell in the
    volume, has for daughters only keys of records that come after it in
    the mapping and start in the frame after its last frame, and has a
    parent that is null or [0] or has a record in the frame after whose
    last frame the record starts. *)
Theorem valid_lineages_characterized (y : volume) (lineage : lineage_t) :
  is_valid_lineage y lineage = Ok true <-> accepted y lineage.
Proof. apply is_valid_accepted. Qed.

(** X2. A lineage is rejected when the volume has a cell without a
    record, when a record has a key that is not a cell of the volume,
    and when the frames of a record are not the frames in which the
    volume holds its cell. *)
Theorem mismatch_with_image_is_invalid (y : volume) (lineage : lineage_t) :
  (exists c, c <> 0 /\ c ∈ pixels y /\ dict_get lineage c = None)
  \/ (exists k r, (k, r) ∈ lineage /\ (k = 0 \/ k ∉ pixels y))
  \/ (exists k r, (k, r) ∈ lineage /\ frames r <> cell_frames y k) ->
  is_valid_lineage y lineage = Ok false.
Proof.
  intros Hbad. apply not_valid_false.
  intros (Hnd & Hkeys & Hok)%is_valid_accepted.
  destruct Hbad as [(c & Hnz & Hc & Hno) | [(k & r & Hin & Hk) | (k & r & Hin & Hfr)]].
  - assert (c ∈ lineage.*1) as [r Hr]%dict_get_keys by by apply Hkeys.
    congruence.
  - assert (k ∈ lineage.*1) as Hkey.
    { apply list_elem_of_fmap. by exists (k, r). }
    apply Hkeys in Hkey. tauto.
  - destruct (records_ok_elem y lineage lineage k r Hok Hin) as (Hfr' & _).
    congruence.
Qed.

Lemma mismatch_with_image_is_invalid_witness :
  is_valid_lineage [[[1; 2]]] [(1, Cell 1 None [] [0])] = Ok false.
Proof.
  apply (mismatch_with_image_is_invalid [[[1; 2]]] [(1, Cell 1 None [] [0])]).
  left. exists 2. split; [done|]. split; [|reflexivity].
  vm_compute. right. left.
Defined.

(** X3. A lineage is rejected when a record names a daughter that has
    no record, or whose record has no frame or does not start in the
    frame after the last frame of the record, or whose record does not
    come after the record in the mapping. *)
Theorem broken_daughter_link_is_invalid (y : volume) (lineage : lineage_t)
    (i : nat) (k : Z) (r : cell) (d : Z) :
  lineage !! i = Some (k, r) ->
  d ∈ daughters r ->
  ~ daughter_linked lineage r d \/ d ∉ (drop (S i) lineage).*1 ->
  is_valid_lineage y lineage = Ok false.
Proof.
  intros Hi Hd Hbad. apply not_valid_false.
  intros (Hnd & Hkeys & Hok)%is_valid_accepted.
  assert (forall items j,
            records_ok y lineage items -> items !! j = Some (k, r) ->
            d ∈ (drop (S j) items).*1 /\ daughter_linked lineage r d) as Hat.
  { induction items as [|[k' r'] items IH]; intros j; simpl; [done|].
    intros (_ & Hds & _ & Hok') Hj. destruct j as [|j]; simpl in Hj.
    - injection Hj as -> ->. rewrite drop_0.
      by eapply Forall_forall in Hds.
    - by apply IH. }
  destruct (Hat lineage i Hok Hi). tauto.
Qed.

Lemma broken_daughter_link_is_invalid_witness :
  is_valid_lineage mother_then_daughter [(2, daughter); (1, mother)] = Ok false.
Proof.
  apply (broken_daughter_link_is_invalid mother_then_daughter
           [(2, daughter); (1, mother)] 1 1 mother 2).
  - reflexivity.
  - left.
  - right. simpl. apply not_elem_of_nil.
Defined.

(** X4. In a lineage that [is_valid_lineage] accepts, every record
    that names a daughter has at least one frame, its frames ascend,
    and each daughter it names is another cell, with a record all of
    whose frames come after all frames of the mother: mother and
    daughter never share a frame. *)
Theorem accepted_daughters_follow (y : volume) (lineage : lineage_t)
    (k : Z) (r : cell) (d : Z) :
  is_valid_lineage y lineage = Ok true ->
  (k, r) ∈ lineage -> d ∈ daughters r ->
  frames r <> [] /\ StronglySorted Z.lt (frames r)
  /\ exists dr, dict_get lineage d = Some dr
       /\ d <> k
       /\ forall f g, f ∈ frames r -> g ∈ frames dr -> f < g.
Proof.
  intros (Hnd & Hkeys & Hok)%is_valid_accepted Hin Hd.
  destruct (records_ok_elem y lineage lineage k r Hok Hin) as (Hfr & Hds & _).
  eapply Forall_forall in Hds as [Hdkey (dr & Hdr & Hst)]; [|exact Hd].
  pose proof (dict_get_elem _ _ _ Hdr) as Hdin.
  destruct (records_ok_elem y lineage lineage d dr Hok Hdin) as (Hdfr & _).
  assert (StronglySorted Z.lt (frames r)) as Hsr
    by (rewrite <- Hfr; apply RelabelerFacts.cell_frames_spec).
  assert (StronglySorted Z.lt (frames dr)) as Hsd
    by (rewrite <- Hdfr; apply RelabelerFacts.cell_frames_spec).
  unfold starts_after in Hst.
  destruct (head (frames dr)) as [g0|] eqn:Ehead; [|done].
  destruct (last (frames r)) as [l|] eqn:Elast; [|done].
  assert (forall f g, f ∈ frames r -> g ∈ frames dr -> f < g) as Hlt.
  { intros f g Hf Hg.
    pose proof (sorted_le_last _ _ _ Hsr Elast Hf).
    pose proof (sorted_head_le _ _ _ Hsd Ehead Hg). lia. }
  split; [by intros Hnil; rewrite Hnil in Elast|]. split; [done|].
  exists dr. split; [done|]. split; [|done].
  intros ->. pose proof (dict_get_NoDup _ _ _ Hnd Hin) as Hr.
  rewrite Hr in Hdr. injection Hdr as <-.
  assert (g0 ∈ frames r) as Hg0.
  { destruct (frames r); simplify_eq/=. left. }
  specialize (Hlt g0 g0 Hg0 Hg0). lia.
Qed.

Lemma accepted_daughters_follow_witness :
  frames mother <> [] /\ StronglySorted Z.lt (frames mother)
  /\ exists dr, dict_get [(1, mother); (2, daughter)] 2 = Some dr
       /\ 2 <> 1
       /\ forall f g, f ∈ frames mother -> g ∈ frames dr -> f < g.
Proof.
  apply (accepted_daughters_follow mother_then_daughter
           [(1, mother); (2, daughter)] 1 mother 2).
  - reflexivity.
  - left.
  - left.
Defined.

End ValidatorSpecFacts.

Module ValidatorLabelFacts.
Import Validator ValidatorSpec ValidatorFacts Samples.

Lemma same_but_labels_get (l1 l2 : lineage_t) k :
  same_but_labels l1 l2 ->
  match dict_get l1 k, dict_get l2 k with
  | Some r1, Some r2 =>
      parent r1 = parent r2 /\ daughters r1 = daughters r2
      /\ frames r1 = frames r2
  | None, None => True
  | _, _ => False
  end.
Proof.
  induction 1 as [|[k1 r1] [k2 r2] l1 l2 (Hk & Hp & Hd & Hf) _ IH]; [done|].
  simpl in *. subst k2. by case_decide.
Qed.

Lemma daughters_loop_labels (l1 l2 : lineage_t) (s : gset Z) lpf ds :
  same_but_labels l1 l2 ->
  daughters_loop l1 s lpf ds = daughters_loop l2 s lpf ds.
Proof.
  intros Hsame. induction ds as [|d ds IH]; [done|]. cbn [daughters_loop].
  pose proof (same_but_labels_get l1 l2 d Hsame) as Hd.
  unfold dict_mem, dict_lookup.
  destruct (dict_get l1 d) as [r1|], (dict_get l2 d) as [r2|]; try done.
  destruct Hd as (_ & _ & Hf). rewrite !bind_ok, Hf, IH. done.
Qed.

Lemma parent_check_labels (l1 l2 : lineage_t) r1 r2 :
  same_but_labels l1 l2 ->
  parent r1 = parent r2 -> frames r1 = frames r2 ->
  parent_check l1 r1 = parent_check l2 r2.
Proof.
  intros Hsame Hp Hf. unfold parent_check. rewrite Hp, Hf.
  destruct (parent r2) as [p|]; [|done].
  pose proof (same_but_labels_get l1 l2 p Hsame) as Hget.
  unfold dict_lookup.
  destruct (dict_get l1 p) as [p1|], (dict_get l2 p) as [p2|]; try done.
  destruct Hget as (_ & _ & Hpf). by rewrite Hpf.
Qed.

Lemma records_loop_labels y (l1 l2 : lineage_t) items1 items2 :
  same_but_labels l1 l2 -> same_but_labels items1 items2 ->
  forall s : gset Z,
    records_loop y l1 s items1 = records_loop y l2 s items2.
Proof.
  intros Hsame. induction 1
    as [|[k1 r1] [k2 r2] i1 i2 (Hk & Hp & Hd & Hf) _ IH]; intros s; [done|].
  simpl in Hk, Hp, Hd, Hf. subst k2. cbn [records_loop].
  assert (record_step y l1 s k1 r1 = record_step y l2 s k1 r2) as ->.
  { unfold record_step. rewrite Hf, Hd.
    rewrite (parent_check_labels l1 l2 r1 r2 Hsame Hp Hf).
    destruct (bool_decide (k1 ∉ s)); [done|].
    destruct (set_remove s k1) as [s'|]; [|done]. rewrite !bind_ok.
    destruct (bool_decide _); [done|].
    destruct (last_item (frames r2)) as [lpf|]; [|done]. rewrite !bind_ok.
    by rewrite (daughters_loop_labels l1 l2 s' lpf _ Hsame). }
  destruct (record_step y l2 s k1 r2) as [[b|s']|]; [done| |done].
  rewrite !bind_ok. apply IH.
Qed.

(** X5. [is_valid_lineage] never reads the [label] field of a record:
    two lineages with the same keys in the same order whose records
    have the same parent, daughters and frames get the same verdict.
    So an accepted lineage can hold a record whose [label] is not its
    key. *)
Theorem labels_are_not_validated (y : volume) (l1 l2 : lineage_t) :
  same_but_labels l1 l2 ->
  is_valid_lineage y l1 = is_valid_lineage y l2.
Proof.
  intros Hsame. unfold is_valid_lineage.
  by rewrite (records_loop_labels y l1 l2 l1 l2 Hsame Hsame).
Qed.

Lemma labels_are_not_validated_witness :
  is_valid_lineage one_pixel [(1, Cell 1 None [] [0])]
  = is_valid_lineage one_pixel [(1, Cell 7 None [] [0])].
Proof.
  apply (labels_are_not_validated one_pixel
           [(1, Cell 1 None [] [0])] [(1, Cell 7 None [] [0])]).
  repeat constructor.
Defined.

End ValidatorLabelFacts.

(** ** What the relabeler returns *)

Module RelabelerSpecFacts.
Import Relabeler RelabelerSpec RelabelerFacts Samples.
Import Validator ValidatorSpec ValidatorSpecFacts.

Lemma index_of_NoDup (l : list Z) i c :
  NoDup l -> l !! i = Some c -> index_of c l = Some i.
Proof.
  intros Hnd. revert i. induction Hnd as [|x l Hx Hnd IH]; intros i; [done|].
  destruct i as [|i]; simpl.
  - intros [= ->]. by rewrite decide_True.
  - intros Hi. rewrite decide_False.
    + by rewrite (IH i Hi).
    + intros ->. apply Hx. by eapply list_elem_of_lookup_2.
Qed.

Lemma fw_get_lookup (fw : forward_map) i c :
  NoDup fw -> fw !! i = Some c -> fw_get fw c = Z.of_nat (S i).
Proof. intros Hnd Hi. unfold fw_get. by rewrite (index_of_NoDup fw i c). Qed.

Lemma fw_get_range (fw : forward_map) d : 0 <= fw_get fw d <= Z.of_nat (length fw).
Proof.
  unfold fw_get. destruct (index_of d fw) as [i|] eqn:E; [|lia].
  apply index_of_lookup, lookup_lt_Some in E. lia.
Qed.

(** The records the loop adds, cell by cell. *)
Lemma cells_loop_items y fw lineage cell_ids : forall acc new_lineage,
  NoDup cell_ids -> (forall c, c ∈ cell_ids -> c ∈ fw) ->
  (forall c, c ∈ cell_ids -> fw_get fw c ∉ acc.*1) ->
  cells_loop y fw lineage cell_ids acc = Ok new_lineage ->
  exists items,
    new_lineage = (acc ++ items)%list
    /\ Forall2 (fun c kv =>
                  exists old, dict_get lineage c = Some old
                    /\ kv = (fw_get fw c, new_record y fw c old))
         cell_ids items.
Proof.
  induction cell_ids as [|c cell_ids IH]; intros acc nl Hnd Hfw Hfresh.
  { intros [= <-]. exists []. by rewrite app_nil_r. }
  apply NoDup_cons in Hnd as [Hc Hnd].
  intros (_ & old & Eold & _ & Hloop)%cells_loop_cons_Ok.
  rewrite CodecFacts.dict_set_fresh in Hloop by (apply Hfresh; left).
  apply IH in Hloop as (items & -> & Hitems); [|done| |].
  - eexists (_ :: items). split; [by rewrite <- app_assoc|].
    constructor; [|done]. by exists old.
  - intros c' Hc'. apply Hfw. by right.
  - intros c' Hc'. rewrite fmap_app, elem_of_app. intros [Hin | Hin].
    + revert Hin. apply Hfresh. by right.
    + simpl in Hin. apply list_elem_of_singleton in Hin.
      apply fw_get_inj in Hin; [|apply Hfw; left]. by subst.
Qed.

Lemma relabel_items (y y_relabel : volume) (lineage new_lineage : lineage_t) :
  relabel_sequential_lineage y lineage = Ok (y_relabel, new_lineage) ->
  y_relabel = map (map (map (fw_get (nonzero_ids (np_unique y))))) y
  /\ Forall2 (fun c kv =>
                exists old, dict_get lineage c = Some old
                  /\ kv = (fw_get (nonzero_ids (np_unique y)) c,
                           new_record y (nonzero_ids (np_unique y)) c old))
       (nonzero_ids (np_unique y)) new_lineage.
Proof.
  intros (_ & _ & -> & Hloop)%relabel_run. split; [done|].
  apply cells_loop_items in Hloop as (items & -> & Hitems); [done| |done|].
  - apply cell_ids_NoDup.
  - intros c _. apply not_elem_of_nil.
Qed.

Lemma relabel_keys (y y_relabel : volume) (lineage new_lineage : lineage_t) :
  relabel_sequential_lineage y lineage = Ok (y_relabel, new_lineage) ->
  new_lineage.*1 = seqZ 1 (Z.of_nat (length (nonzero_ids (np_unique y)))).
Proof.
  intros [_ Hitems]%relabel_items.
  pose proof (cell_ids_NoDup y) as Hnd.
  apply list_eq. intros i. rewrite list_lookup_fmap.
  destruct (nonzero_ids (np_unique y) !! i) as [c|] eqn:Ec.
  - destruct (Forall2_lookup_l _ _ _ _ _ Hitems Ec)
      as (kv & Hkv & old & Hold & ->).
    rewrite Hkv. simpl. rewrite (fw_get_lookup _ i c Hnd Ec).
    symmetry. pose proof (lookup_lt_Some _ _ _ Ec).
    rewrite lookup_seqZ. split; lia.
  - apply lookup_ge_None in Ec as Hlen.
    rewrite (Forall2_length _ _ _ Hitems) in Hlen.
    rewrite (proj2 (lookup_ge_None new_lineage i)) by done. simpl.
    symmetry. apply lookup_seqZ_ge.
    rewrite (Forall2_length _ _ _ Hitems). lia.
Qed.

Lemma elem_of_fix_daughters (fw : forward_map) ds d' :
  d' ∈ fix_daughters fw ds <-> exists d, d ∈ ds /\ d ∈ fw /\ d' = fw_get fw d.
Proof.
  induction ds as [|d ds IH]; simpl.
  - split; [by intros ?%elem_of_nil|]. by intros (d & ?%elem_of_nil & _).
  - pose proof (fw_get_nonzero fw d) as Hnz.
    case_bool_decide as Hz; [|rewrite elem_of_cons]; rewrite IH; split.
    + intros (d0 & ? & ? & ?). exists d0. split; [by right|done].
    + intros (d0 & [-> | Hin]%elem_of_cons & Hfw & ->); [|eauto].
      apply Hnz in Hfw. done.
    + intros [-> | (d0 & ? & ? & ?)].
      * exists d. split; [left|]. split; [by apply Hnz|done].
      * exists d0. split; [by right|done].
    + intros (d0 & [-> | Hin]%elem_of_cons & Hfw & ->); [by left|].
      right. eauto.
Qed.

(** X6. In a result of [relabel_sequential_lineage] the keys of the new
    lineage are [1], [2], ..., [K] in this order, where [K] is the
    number of non-zero ids of the volume; the record under the key [i]
    has the label [i] and is built from the old record of the [i]-th
    smallest non-zero id of the volume, whatever the order and the keys
    of the old lineage. *)
Theorem relabeled_keys_are_sequential (y y_relabel : volume)
    (lineage new_lineage : lineage_t) :
  relabel_sequential_lineage y lineage = Ok (y_relabel, new_lineage) ->
  new_lineage.*1 = seqZ 1 (Z.of_nat (length (nonzero_ids (np_unique y))))
  /\ forall (i : nat) (c : Z),
       nonzero_ids (np_unique y) !! i = Some c ->
       exists old,
         dict_get lineage c = Some old
         /\ new_lineage !! i
            = Some (Z.of_nat (S i),
                    new_record y (nonzero_ids (np_unique y)) c old)
         /\ label (new_record y (nonzero_ids (np_unique y)) c old)
            = Z.of_nat (S i).
Proof.
  intros Hrun. split; [by eapply relabel_keys|].
  apply relabel_items in Hrun as [_ Hitems]. intros i c Hc.
  destruct (Forall2_lookup_l _ _ _ _ _ Hitems Hc) as (kv & Hkv & old & Hold & ->).
  exists old. split; [done|].
  rewrite <- (fw_get_lookup _ i c (cell_ids_NoDup y) Hc). done.
Qed.

Lemma relabeled_keys_are_sequential_witness :
  [(1, Cell 1 None [2] [0]); (2, Cell 2 (Some 1) [] [1])].*1
  = seqZ 1 (Z.of_nat (length (nonzero_ids (np_unique [[[4]]; [[7]]]))))
  /\ forall (i : nat) (c : Z),
       nonzero_ids (np_unique [[[4]]; [[7]]]) !! i = Some c ->
       exists old,
         dict_get [(7, Cell 7 (Some 4) [] [0; 1; 2]); (4, Cell 4 None [7; 9] [])] c
         = Some old
         /\ [(1, Cell 1 None [2] [0]); (2, Cell 2 (Some 1) [] [1])] !! i
            = Some (Z.of_nat (S i),
                    new_record [[[4]]; [[7]]]
                      (nonzero_ids (np_unique [[[4]]; [[7]]])) c old)
         /\ label (new_record [[[4]]; [[7]]]
                     (nonzero_ids (np_unique [[[4]]; [[7]]])) c old)
            = Z.of_nat (S i).
Proof.
  apply (relabeled_keys_are_sequential [[[4]]; [[7]]] [[[1]]; [[2]]]
           [(7, Cell 7 (Some 4) [] [0; 1; 2]); (4, Cell 4 None [7; 9] [])]
           [(1, Cell 1 None [2] [0]); (2, Cell 2 (Some 1) [] [1])]).
  vm_compute. reflexivity.
Defined.

(** X7. A result of [relabel_sequential_lineage] has no dangling
    reference: every daughter of a new record is the key of a new
    record, never [0], and the parent of a new record is null, or [0]
    (the old parent is not a cell of the volume), or the key of a new
    record. *)
Theorem relabeled_references_are_keys (y y_relabel : volume)
    (lineage new_lineage : lineage_t) (k : Z) (r : cell) :
  relabel_sequential_lineage y lineage = Ok (y_relabel, new_lineage) ->
  (k, r) ∈ new_lineage ->
  (forall d, d ∈ daughters r -> d <> 0 /\ d ∈ new_lineage.*1)
  /\ (forall p, parent r = Some p -> p = 0 \/ p ∈ new_lineage.*1).
Proof.
  intros Hrun Hin. pose proof (relabel_keys _ _ _ _ Hrun) as Hkeys.
  apply relabel_items in Hrun as [_ Hitems].
  assert (forall d, fw_get (nonzero_ids (np_unique y)) d <> 0 ->
            fw_get (nonzero_ids (np_unique y)) d ∈ new_lineage.*1) as Hkey.
  { intros d Hnz. rewrite Hkeys, elem_of_seqZ.
    pose proof (fw_get_range (nonzero_ids (np_unique y)) d). lia. }
  apply list_elem_of_lookup in Hin as [i Hi].
  destruct (Forall2_lookup_r _ _ _ _ _ Hitems Hi) as (c & Hc & old & Hold & [= -> ->]).
  split.
  - intros d (d0 & Hd0 & Hfw & ->)%elem_of_fix_daughters.
    apply fw_get_nonzero in Hfw. split; [done|]. by apply Hkey.
  - simpl. destruct (parent old) as [p0|]; [|done]. intros p [= <-].
    destruct (decide (fw_get (nonzero_ids (np_unique y)) p0 = 0)); [by left|].
    right. by apply Hkey.
Qed.

Lemma relabeled_references_are_keys_witness :
  (forall d, d ∈ daughters (Cell 1 None [2] [0]) ->
     d <> 0 /\ d ∈ [(1, Cell 1 None [2] [0]); (2, Cell 2 (Some 1) [] [1])].*1)
  /\ (forall p, parent (Cell 1 None [2] [0]) = Some p ->
        p = 0 \/ p ∈ [(1, Cell 1 None [2] [0]); (2, Cell 2 (Some 1) [] [1])].*1).
Proof.
  apply (relabeled_references_are_keys [[[4]]; [[7]]] [[[1]]; [[2]]]
           [(7, Cell 7 (Some 4) [] [0; 1; 2]); (4, Cell 4 None [7; 9] [])]
           [(1, Cell 1 None [2] [0]); (2, Cell 2 (Some 1) [] [1])] 1).
  - vm_compute. reflexivity.
  - left.
Defined.



End RelabelerSpecFacts.

(** ** Relabeling and validity *)

Module RelabelValidFacts.
Import Relabeler RelabelerSpec RelabelerFacts RelabelerSpecFacts Samples.
Import Validator ValidatorSpec ValidatorSpecFacts.

Lemma pixels_relabel (f : Z -> Z) (y : volume) :
  pixels (map (map (map f)) y) = map f (pixels y).
Proof. unfold pixels. by rewrite !concat_map. Qed.

Lemma nonzero_ids_sorted (l : list Z) :
  StronglySorted Z.lt l -> StronglySorted Z.lt (nonzero_ids l).
Proof.
  unfold nonzero_ids. induction 1 as [|a l Hs IH Hall]; [constructor|].
  rewrite filter_cons. case_decide; [|done]. constructor; [done|].
  apply Forall_forall. intros x [_ Hx]%list_elem_of_filter.
  by eapply Forall_forall in Hall.
Qed.

Lemma cell_ids_sorted (y : volume) : StronglySorted Z.lt (nonzero_ids (np_unique y)).
Proof. apply nonzero_ids_sorted, np_unique_sorted. Qed.

Lemma sorted_lookup_lt (l : list Z) (i j : nat) a b :
  StronglySorted Z.lt l -> l !! i = Some a -> l !! j = Some b ->
  (i < j)%nat <-> a < b.
Proof.
  intros Hs Hi Hj.
  assert (forall i j a b, l !! i = Some a -> l !! j = Some b ->
            (i < j)%nat -> a < b) as Hmono.
  { clear i j a b Hi Hj. induction Hs as [|x l Hs IH Hall]; [done|].
    intros [|i] [|j] a b Hi Hj Hlt; simpl in *; try lia.
    - injection Hi as ->. rewrite Forall_forall in Hall.
      apply Hall. by eapply list_elem_of_lookup_2.
    - eapply (IH i j); [done|done|lia]. }
  split; [by apply Hmono|]. intros Hab.
  destruct (decide (i < j)%nat) as [|Hge]; [done|exfalso].
  destruct (decide (i = j)) as [->|Hne]; [simplify_eq; lia|].
  assert (b < a) by (apply (Hmono j i); [done|done|lia]). lia.
Qed.


(** The conditions on the records in order, position by position. *)
Lemma records_ok_lookup y lineage items :
  records_ok y lineage items
  <-> forall i k r, items !! i = Some (k, r) ->
        cell_frames y k = frames r
        /\ Forall (fun d => d ∈ (drop (S i) items).*1
                            /\ daughter_linked lineage r d) (daughters r)
        /\ parent_linked lineage r.
Proof.
  induction items as [|[k0 r0] items IH]; cbn [records_ok]; [done|].
  rewrite IH. split.
  - intros (Hfr & Hds & Hp & Hrest) [|i] k r; simpl.
    + intros [= -> ->]. by rewrite ?drop_0.
    + apply Hrest.
  - intros Hall. destruct (Hall O k0 r0 eq_refl) as (Hfr & Hds & Hp).
    cbn [drop] in Hds. rewrite ?drop_0 in Hds.
    split; [done|]. split; [done|]. split; [done|].
    intros i k r Hi. apply (Hall (S i) k r Hi).
Qed.

Section Relabeled.
Context (y y_relabel : volume) (lineage new_lineage : lineage_t).
Context (Hrun : relabel_sequential_lineage y lineage = Ok (y_relabel, new_lineage)).

Lemma relabeled_NoDup : NoDup new_lineage.*1.
Proof. rewrite (relabel_keys _ _ _ _ Hrun). apply NoDup_seqZ. Qed.

Lemma relabeled_lookup (i : nat) (c : Z) (old : cell) :
  (nonzero_ids (np_unique y)) !! i = Some c -> dict_get lineage c = Some old ->
  new_lineage !! i = Some (Z.of_nat (S i), new_record y (nonzero_ids (np_unique y)) c old)
  /\ fw_get (nonzero_ids (np_unique y)) c = Z.of_nat (S i).
Proof.
  intros Hc Hold. destruct (relabel_items _ _ _ _ Hrun) as [_ Hitems].
  destruct (Forall2_lookup_l _ _ _ _ _ Hitems Hc) as (kv & Hkv & old' & Hold' & ->).
  assert (old' = old) as -> by congruence.
  pose proof (fw_get_lookup (nonzero_ids (np_unique y)) i c (cell_ids_NoDup y) Hc) as Hfw.
  split; [|done].  rewrite Hfw in Hkv. exact Hkv.
Qed.


Lemma relabeled_record (i : nat) (k : Z) (r : cell) :
  new_lineage !! i = Some (k, r) ->
  exists c old,
    (nonzero_ids (np_unique y)) !! i = Some c /\ dict_get lineage c = Some old
    /\ k = Z.of_nat (S i) /\ fw_get (nonzero_ids (np_unique y)) c = Z.of_nat (S i)
    /\ r = new_record y (nonzero_ids (np_unique y)) c old.
Proof.
  intros Hi. destruct (relabel_items _ _ _ _ Hrun) as [_ Hitems].
  destruct (Forall2_lookup_r _ _ _ _ _ Hitems Hi) as (c & Hc & old & Hold & Heq).
  exists c, old. destruct (relabeled_lookup i c old Hc Hold) as [Hl Hfw].
  rewrite Hi in Hl. injection Hl as -> ->. done.
Qed.

Lemma relabeled_image : y_relabel = map (map (map (fw_get (nonzero_ids (np_unique y))))) y.
Proof. by destruct (relabel_items _ _ _ _ Hrun). Qed.

(** The keys of the new lineage are the non-zero (nonzero_ids (np_unique y)) of the new volume. *)
Lemma relabeled_keys_image c' :
  c' ∈ new_lineage.*1 <-> c' <> 0 /\ c' ∈ pixels y_relabel.
Proof.
  rewrite (relabel_keys _ _ _ _ Hrun), elem_of_seqZ, relabeled_image.
  rewrite pixels_relabel, list_elem_of_fmap.  split.
  - intros Hc'. split; [lia|].
    destruct (lookup_lt_is_Some_2 (nonzero_ids (np_unique y)) (Z.to_nat (c' - 1))) as [c Hc]; [lia|].
    exists c. rewrite (fw_get_lookup (nonzero_ids (np_unique y)) _ c (cell_ids_NoDup y) Hc).
    split; [lia|]. apply list_elem_of_lookup_2 in Hc.
    by apply elem_of_cell_ids in Hc as [_ ?].
  - intros [Hnz (c & -> & Hc)]. pose proof (fw_get_range (nonzero_ids (np_unique y)) c). lia.
Qed.


End Relabeled.






End RelabelValidFacts.

(** ** The order of the records *)

Module ValidatorOrderFacts.
Import Validator ValidatorSpec ValidatorSpecFacts RelabelValidFacts Samples.

Lemma dict_get_Permutation (l l' : lineage_t) k :
  NoDup l.*1 -> l ≡ₚ l' -> dict_get l k = dict_get l' k.
Proof.
  intros Hnd Hperm.
  assert (NoDup l'.*1) as Hnd' by (by rewrite <- Hperm).
  destruct (dict_get l k) as [r|] eqn:E.
  - symmetry. apply dict_get_NoDup; [done|].
    rewrite <- Hperm. by apply dict_get_elem.
  - destruct (dict_get l' k) as [r'|] eqn:E'; [|done].
    apply dict_get_elem in E'. rewrite <- Hperm in E'.
    apply (dict_get_NoDup _ _ _ Hnd) in E'. congruence.
Qed.

(** X21. The verdict on an accepted lineage depends on the order of
    its records through the daughters alone: the same records in
    another order are accepted exactly when every record that names
    daughters stands before the records of all of them. *)
Theorem reordering_keeps_validity_iff_mothers_first (y : volume)
    (lineage reordered : lineage_t) :
  is_valid_lineage y lineage = Ok true ->
  lineage ≡ₚ reordered ->
  is_valid_lineage y reordered = Ok true
  <-> forall (i : nat) k r d,
        reordered !! i = Some (k, r) -> d ∈ daughters r ->
        d ∈ (drop (S i) reordered).*1.
Proof.
  intros (Hnd & Hkeys & Hok)%is_valid_accepted Hperm.
  rewrite (is_valid_accepted y reordered). unfold accepted.
  rewrite records_ok_lookup. split.
  - intros (_ & _ & Hok') i k r d Hi Hd.
    destruct (Hok' i k r Hi) as (_ & Hds & _).
    by eapply Forall_forall in Hds as [? _].
  - intros Hlater. split; [by rewrite <- Hperm|].
    split; [intros c; by rewrite <- Hperm|].
    intros i k r Hi.
    assert ((k, r) ∈ lineage) as Hin.
    { rewrite Hperm. by eapply list_elem_of_lookup_2. }
    destruct (records_ok_elem y lineage lineage k r Hok Hin) as (Hfr & Hds & Hp).
    split; [done|]. split.
    + apply Forall_forall. intros d Hd. split; [by eapply Hlater|].
      eapply Forall_forall in Hds as [_ (dr & Hdr & Hst)]; [|exact Hd].
      exists dr. by rewrite <- (dict_get_Permutation lineage reordered d Hnd Hperm).
    + unfold parent_linked in *. destruct (parent r) as [p|]; [|done].
      destruct Hp as [-> | (pr & Hpr & Hst)]; [by left|right].
      exists pr. by rewrite <- (dict_get_Permutation lineage reordered p Hnd Hperm).
Qed.

Lemma reordering_keeps_validity_iff_mothers_first_witness :
  is_valid_lineage mother_then_daughter [(2, daughter); (1, mother)] = Ok true
  <-> forall (i : nat) k r d,
        [(2, daughter); (1, mother)] !! i = Some (k, r) -> d ∈ daughters r ->
        d ∈ (drop (S i) [(2, daughter); (1, mother)]).*1.
Proof.
  apply (reordering_keeps_validity_iff_mothers_first mother_then_daughter
           [(1, mother); (2, daughter)] [(2, daughter); (1, mother)]).
  - reflexivity.
  - apply Permutation_swap.
Defined.

End ValidatorOrderFacts.

(** ** Relabeling twice *)

Module RelabelTwiceFacts.
Import Relabeler RelabelerSpec RelabelerFacts RelabelerSpecFacts Samples.
Import ValidatorSpecFacts RelabelValidFacts.

Lemma sorted_same_elements (l1 l2 : list Z) :
  StronglySorted Z.lt l1 -> StronglySorted Z.lt l2 ->
  (forall x, x ∈ l1 <-> x ∈ l2) -> l1 = l2.
Proof.
  intros Hs1. revert l2. induction Hs1 as [|a l1 Hs1 IH Hall1]; intros l2 Hs2 Heq.
  { destruct l2 as [|b l2]; [done|]. exfalso.
    eapply not_elem_of_nil, Heq. left. }
  destruct Hs2 as [|b l2 Hs2 Hall2].
  { exfalso. eapply not_elem_of_nil, Heq. left. }
  rewrite Forall_forall in Hall1, Hall2.
  assert (a = b) as ->.
  { assert (a ∈ b :: l2) as [-> | Ha]%elem_of_cons by (apply Heq; left); [done|].
    assert (b ∈ a :: l1) as [-> | Hb]%elem_of_cons by (apply Heq; left); [done|].
    specialize (Hall1 b Hb). specialize (Hall2 a Ha). lia. }
  f_equal. apply IH; [done|]. intros x. split; intros Hx.
  - assert (x ∈ b :: l2) as [-> | ?]%elem_of_cons by (apply Heq; by right); [|done].
    specialize (Hall1 b Hx). lia.
  - assert (x ∈ b :: l1) as [-> | ?]%elem_of_cons by (apply Heq; by right); [|done].
    specialize (Hall2 b Hx). lia.
Qed.

Lemma seqZ_sorted (n : nat) : forall m, StronglySorted Z.lt (seqZ m (Z.of_nat n)).
Proof.
  induction n as [|n IH]; intros m; [constructor|].
  rewrite Nat2Z.inj_succ, seqZ_cons by lia.
  replace (Z.pred (Z.succ (Z.of_nat n))) with (Z.of_nat n) by lia.
  constructor; [apply IH|]. apply Forall_forall. intros x Hx%elem_of_seqZ. lia.
Qed.

Lemma fw_get_seqZ (n : nat) c :
  fw_get (seqZ 1 (Z.of_nat n)) c = if bool_decide (1 <= c <= Z.of_nat n) then c else 0.
Proof.
  case_bool_decide as Hc.
  - rewrite (fw_get_lookup _ (Z.to_nat (c - 1)) c); [lia|apply NoDup_seqZ|].
    rewrite lookup_seqZ. lia.
  - destruct (decide (fw_get (seqZ 1 (Z.of_nat n)) c = 0)) as [|Hnz]; [done|].
    apply fw_get_nonzero, elem_of_seqZ in Hnz. lia.
Qed.

Lemma relabel_id_on_pixels (f : Z -> Z) (y : volume) :
  (forall p, p ∈ pixels y -> f p = p) -> map (map (map f)) y = y.
Proof.
  intros Hid. rewrite <- (map_id y) at 2. apply map_ext_in.
  intros frame Hframe%list_elem_of_In.
  rewrite <- (map_id frame) at 2. apply map_ext_in.
  intros row Hrow%list_elem_of_In.
  rewrite <- (map_id row) at 2. apply map_ext_in.
  intros p Hp%list_elem_of_In. apply Hid, elem_of_pixels.
  exists frame. split; [done|]. apply elem_of_concat. by exists row.
Qed.

Lemma fix_daughters_id (fw : forward_map) ds :
  Forall (fun d => d <> 0 /\ fw_get fw d = d) ds -> fix_daughters fw ds = ds.
Proof.
  induction 1 as [|d ds [Hnz Hd] _ IH]; simpl; [done|].
  rewrite Hd, bool_decide_eq_false_2 by done. by rewrite IH.
Qed.

(** The loop returns only when every cell is an index that the forward
    map takes. *)
Lemma cells_loop_ids y fw lineage cell_ids : forall acc new_lineage,
  cells_loop y fw lineage cell_ids acc = Ok new_lineage ->
  Forall (fun c => numpy_int c = true) cell_ids.
Proof.
  induction cell_ids as [|c cell_ids IH]; intros acc nl; [constructor|].
  intros (Hc & old & _ & _ & Hloop)%cells_loop_cons_Ok.
  constructor; [done|]. by eapply IH.
Qed.

(** In an ascending list of integers from [1] on, an element is not
    less than its place, counted from [1]. *)
Lemma sorted_lookup_ge (l : list Z) :
  StronglySorted Z.lt l -> Forall (fun c => 1 <= c) l ->
  forall (i : nat) c, l !! i = Some c -> Z.of_nat (S i) <= c.
Proof.
  intros Hs Hpos i. induction i as [|i IH]; intros c Hc.
  - rewrite Forall_forall in Hpos.
    specialize (Hpos c (list_elem_of_lookup_2 _ _ _ Hc)). lia.
  - assert (is_Some (l !! i)) as [a Ha].
    { apply lookup_lt_is_Some. apply lookup_lt_Some in Hc. lia. }
    specialize (IH a Ha).
    assert (a < c) by (apply (sorted_lookup_lt l i (S i) a c); [done..|lia]).
    lia.
Qed.

(** The number of cells of a volume that the relabeler takes is an
    integer that numpy holds. *)
Lemma cell_count_in_range (y y_relabel : volume) (lineage new_lineage : lineage_t) :
  relabel_sequential_lineage y lineage = Ok (y_relabel, new_lineage) ->
  Z.of_nat (length (nonzero_ids (np_unique y))) < 2 ^ 64.
Proof.
  intros (_ & Hpos & _ & Hloop)%relabel_run.
  apply cells_loop_ids in Hloop. rewrite Forall_forall in Hloop, Hpos.
  destruct (length (nonzero_ids (np_unique y))) as [|n] eqn:Elen; [lia|].
  assert (is_Some (nonzero_ids (np_unique y) !! n)) as [c Hc].
  { apply lookup_lt_is_Some. lia. }
  pose proof (list_elem_of_lookup_2 _ _ _ Hc) as Hin.
  assert (Z.of_nat (S n) <= c) as Hle.
  { apply (sorted_lookup_ge (nonzero_ids (np_unique y))); [|  |done].
    - apply cell_ids_sorted.
    - apply Forall_forall. intros c' [Hnz Hc']%elem_of_cell_ids.
      specialize (Hpos c' Hc'). lia. }
  apply Hloop, numpy_int_range in Hin. lia.
Qed.

(** X10. [relabel_sequential_lineage] is idempotent: applied to a
    volume and lineage it returned, it returns them unchanged. *)
Theorem relabel_is_idempotent (y y_relabel : volume)
    (lineage new_lineage : lineage_t) :
  relabel_sequential_lineage y lineage = Ok (y_relabel, new_lineage) ->
  relabel_sequential_lineage y_relabel new_lineage = Ok (y_relabel, new_lineage).
Proof.
  intros Hrun.
  pose proof (relabel_keys _ _ _ _ Hrun) as Hkeys.
  pose proof (relabeled_NoDup _ _ _ _ Hrun) as Hnd.
  pose proof (relabeled_image _ _ _ _ Hrun) as Himage.
  assert (nonzero_ids (np_unique y_relabel) = seqZ 1 (Z.of_nat (length (nonzero_ids (np_unique y))))) as Hids'.
  { apply sorted_same_elements;
      [apply cell_ids_sorted|apply seqZ_sorted|].
    intros c. rewrite elem_of_cell_ids, <- Hkeys.
    symmetry. by apply relabeled_keys_image with y lineage. }
  assert (forall p, p ∈ pixels y_relabel ->
            fw_get (seqZ 1 (Z.of_nat (length (nonzero_ids (np_unique y))))) p = p) as Hpix.
  { intros p. rewrite Himage, pixels_relabel.
    intros (p0 & -> & _)%list_elem_of_fmap.
    pose proof (fw_get_range (nonzero_ids (np_unique y)) p0). rewrite fw_get_seqZ.
    case_bool_decide; lia. }
  pose proof (cell_count_in_range _ _ _ _ Hrun) as Hcount.
  pose proof (proj1 (relabel_run _ _ _ _) Hrun) as (Hne & Hpos & _ & _).
  assert (forall d, numpy_int (fw_get (nonzero_ids (np_unique y)) d) = true)
    as Hnew.
  { intros d. apply numpy_int_range.
    pose proof (fw_get_range (nonzero_ids (np_unique y)) d). lia. }
  destruct (cells_loop_total y_relabel (seqZ 1 (Z.of_nat (length (nonzero_ids (np_unique y))))) new_lineage
              (seqZ 1 (Z.of_nat (length (nonzero_ids (np_unique y))))) []) as [nl Hnl].
  { intros c Hc%elem_of_seqZ. apply numpy_int_range. lia. }
  { intros c Hc. rewrite <- Hkeys in Hc. apply dict_get_keys in Hc as [r Hr].
    unfold dict_mem. by rewrite Hr. }
  { intros k r [i Hi]%list_elem_of_lookup.
    destruct (relabeled_record _ _ _ _ Hrun i k r Hi)
      as (c & old & _ & _ & _ & _ & ->).
    split.
    - simpl. destruct (parent old) as [p0|]; [|done]. by intros p [= <-].
    - apply Forall_forall. by intros d' (d & _ & _ & ->)%elem_of_fix_daughters. }
  apply relabel_run. split; [|split; [|split]].
  { rewrite Himage, pixels_relabel. destruct (pixels y); [done|discriminate]. }
  { apply Forall_forall. intros p. rewrite Himage, pixels_relabel.
    intros (p0 & -> & _)%list_elem_of_fmap.
    pose proof (fw_get_range (nonzero_ids (np_unique y)) p0). lia. }
  { rewrite Hids'. symmetry. by apply relabel_id_on_pixels. }
  rewrite Hids', Hnl. f_equal.
  apply cells_loop_items in Hnl as (items & -> & Hitems);
    [|apply NoDup_seqZ|done|intros; apply not_elem_of_nil].
  rewrite app_nil_l. apply list_eq. intros i.
  destruct (new_lineage !! i) as [[k r]|] eqn:Ei.
  - etrans; [|symmetry; exact Ei].
    destruct (relabeled_record _ _ _ _ Hrun i k r Ei)
      as (c & old & Hc & Hold & -> & Hfw & ->).
    assert (seqZ 1 (Z.of_nat (length (nonzero_ids (np_unique y)))) !! i = Some (Z.of_nat (S i))) as Hi.
    { pose proof (lookup_lt_Some _ _ _ Hc). rewrite lookup_seqZ. lia. }
    destruct (Forall2_lookup_l _ _ _ _ _ Hitems Hi)
      as (kv & -> & old' & Hold' & ->).
    pose proof (dict_get_NoDup _ _ _ Hnd (list_elem_of_lookup_2 _ _ _ Ei)) as Hget.
    rewrite Hget in Hold'. injection Hold' as <-.
    assert (1 <= Z.of_nat (S i) <= Z.of_nat (length (nonzero_ids (np_unique y)))) as Hrange.
    { pose proof (lookup_lt_Some _ _ _ Hc). lia. }
    rewrite fw_get_seqZ, bool_decide_eq_true_2 by done. do 2 f_equal.
    unfold new_record at 1. cbn [parent daughters new_record].
    rewrite fw_get_seqZ, bool_decide_eq_true_2 by done.
    unfold new_record. rewrite Hfw. f_equal.
    + destruct (parent old) as [p|]; [|done]. f_equal.
      pose proof (fw_get_range (nonzero_ids (np_unique y)) p).
      rewrite fw_get_seqZ. case_bool_decide; lia.
    + apply fix_daughters_id, Forall_forall.
      intros d' (d & _ & Hd & ->)%elem_of_fix_daughters.
      apply fw_get_nonzero in Hd. split; [done|].
      pose proof (fw_get_range (nonzero_ids (np_unique y)) d).
      rewrite fw_get_seqZ, bool_decide_eq_true_2; [done|lia].
    + rewrite <- Hfw, Himage. apply cell_frames_relabel.
      by eapply list_elem_of_lookup_2.
  - etrans; [|symmetry; exact Ei]. apply lookup_ge_None in Ei.
    apply lookup_ge_None. rewrite <- (Forall2_length _ _ _ Hitems).
    rewrite length_seqZ.
    assert (length new_lineage = (length (nonzero_ids (np_unique y)))) as Hlen.
    { rewrite <- (length_fmap fst), Hkeys, length_seqZ. lia. }
    lia.
Qed.

Lemma relabel_is_idempotent_witness :
  relabel_sequential_lineage [[[1]]; [[2]]]
    [(1, Cell 1 None [2] [0]); (2, Cell 2 (Some 1) [] [1])]
  = Ok ([[[1]]; [[2]]], [(1, Cell 1 None [2] [0]); (2, Cell 2 (Some 1) [] [1])]).
Proof.
  apply (relabel_is_idempotent [[[4]]; [[7]]] [[[1]]; [[2]]]
           [(7, Cell 7 (Some 4) [] [0; 1; 2]); (4, Cell 4 None [7; 9] [])]
           [(1, Cell 1 None [2] [0]); (2, Cell 2 (Some 1) [] [1])]).
  vm_compute. reflexivity.
Defined.

End RelabelTwiceFacts.

(** ** Counting cells *)

Module CountingFacts.
Import Counting Relabeler RelabelerFacts Samples.
Import ValidatorSpec ValidatorSpecFacts RelabelerSpecFacts RelabelValidFacts.

Lemma frames_loop_spec (y : list frame_t) : forall max_cells : nat,
  (max_cells <= frames_loop y max_cells)%nat
  /\ (forall frame, frame ∈ y -> (n_cells frame <= frames_loop y max_cells)%nat)
  /\ (frames_loop y max_cells = max_cells
      \/ exists frame, frame ∈ y /\ n_cells frame = frames_loop y max_cells).
Proof.
  induction y as [|f y IH]; intros m; simpl.
  { split; [lia|]. split; [by intros ? ?%elem_of_nil|by left]. }
  case_bool_decide as Hlt.
  - destruct (IH (n_cells f)) as (Hle & Hall & Hmax).
    split; [lia|]. split.
    + intros frame [-> | Hin]%elem_of_cons; [done|by apply Hall].
    + right. destruct Hmax as [-> | (frame & Hin & Heq)].
      * exists f. split; [left|done].
      * exists frame. split; [by right|done].
  - destruct (IH m) as (Hle & Hall & Hmax).
    split; [done|]. split.
    + intros frame [-> | Hin]%elem_of_cons; [lia|by apply Hall].
    + destruct Hmax as [-> | (frame & Hin & Heq)]; [by left|].
      right. exists frame. split; [by right|done].
Qed.

Lemma elem_of_frame_ids (frame : frame_t) c :
  c ∈ nonzero_ids (np_unique [frame]) <-> c <> 0 /\ c ∈ concat frame.
Proof.
  rewrite elem_of_cell_ids. unfold pixels. simpl. by rewrite app_nil_r.
Qed.

Lemma same_elements_length (l k : list Z) :
  NoDup l -> (forall x, x ∈ l -> x ∈ k) -> (length l <= length k)%nat.
Proof. intros Hnd Hsub. by apply submseteq_length, NoDup_submseteq. Qed.

(** X11. [get_max_cells] returns the greatest number of distinct
    non-zero ids of a frame: no frame has more, some frame has as many
    unless the volume has no frame, and the result is [0] exactly when
    no frame has a non-zero pixel. *)
Theorem get_max_cells_is_maximum (y : volume) :
  (forall frame, frame ∈ y -> (n_cells frame <= get_max_cells y)%nat)
  /\ (y <> [] -> exists frame, frame ∈ y /\ n_cells frame = get_max_cells y)
  /\ (get_max_cells y = 0%nat <-> forall c, c ∈ pixels y -> c = 0).
Proof.
  unfold get_max_cells.
  destruct (frames_loop_spec y 0) as (_ & Hall & Hmax).
  split; [done|]. split.
  - intros Hne. destruct Hmax as [Hz | ?]; [|done].
    destruct y as [|f y']; [done|]. exists f. split; [left|].
    assert (n_cells f <= frames_loop (f :: y') 0)%nat by (apply Hall; left). lia.
  - split.
    + intros Hz c (frame & Hin & Hc)%elem_of_pixels.
      destruct (decide (c = 0)) as [|Hnz]; [done|exfalso].
      specialize (Hall frame Hin). rewrite Hz in Hall.
      assert (c ∈ nonzero_ids (np_unique [frame])) as Hid
        by (by apply elem_of_frame_ids).
      unfold n_cells in Hall.
      destruct (nonzero_ids (np_unique [frame])); [by apply elem_of_nil in Hid|].
      simpl in Hall. lia.
    + intros Hzero. destruct Hmax as [? | (frame & Hin & Heq)]; [done|].
      rewrite <- Heq. unfold n_cells.
      destruct (nonzero_ids (np_unique [frame])) as [|c l] eqn:E; [done|exfalso].
      assert (c ∈ nonzero_ids (np_unique [frame])) as [Hnz Hc]%elem_of_frame_ids
        by (rewrite E; left).
      apply Hnz, Hzero, elem_of_pixels. by exists frame.
Qed.

Lemma n_cells_le_ids (y : volume) frame :
  frame ∈ y -> (n_cells frame <= length (nonzero_ids (np_unique y)))%nat.
Proof.
  intros Hin. apply same_elements_length; [apply cell_ids_NoDup|].
  intros c [Hnz Hc]%elem_of_frame_ids. apply elem_of_cell_ids.
  split; [done|]. apply elem_of_pixels. by exists frame.
Qed.

Lemma get_max_cells_le_ids (y : volume) :
  (get_max_cells y <= length (nonzero_ids (np_unique y)))%nat.
Proof.
  unfold get_max_cells.
  destruct (frames_loop_spec y 0) as (_ & _ & [-> | (frame & Hin & <-)]); [lia|].
  by apply n_cells_le_ids.
Qed.

(** X12. A volume never has more cells in a frame than a lineage that
    [is_valid_lineage] accepts for it has records. *)
Theorem max_cells_bounded_by_valid_lineage (y : volume) (lineage : lineage_t) :
  Validator.is_valid_lineage y lineage = Ok true ->
  (get_max_cells y <= length lineage)%nat.
Proof.
  intros (Hnd & Hkeys & _)%is_valid_accepted.
  etrans; [apply get_max_cells_le_ids|].
  rewrite <- (length_fmap fst lineage).
  apply same_elements_length; [apply cell_ids_NoDup|].
  intros c Hc%elem_of_cell_ids. by apply Hkeys.
Qed.

Lemma max_cells_bounded_by_valid_lineage_witness :
  Nat.le (get_max_cells mother_then_daughter)
    (length [(1, mother); (2, daughter)]).
Proof.
  apply (max_cells_bounded_by_valid_lineage mother_then_daughter
           [(1, mother); (2, daughter)]).
  reflexivity.
Defined.

(** Relabeling a frame keeps the number of its cells. *)
Lemma n_cells_relabel (y : volume) frame :
  frame ∈ y ->
  n_cells (map (map (fw_get (nonzero_ids (np_unique y)))) frame) = n_cells frame.
Proof.
  intros Hin. unfold n_cells.
  set (fw := nonzero_ids (np_unique y)).
  assert (forall c, c ∈ nonzero_ids (np_unique [frame]) -> c ∈ fw) as Hfw.
  { intros c [Hnz Hc]%elem_of_frame_ids. apply elem_of_cell_ids.
    split; [done|]. apply elem_of_pixels. by exists frame. }
  etrans; [|apply (length_fmap (fw_get fw))].
  apply Permutation_length, NoDup_Permutation.
  - apply cell_ids_NoDup.
  - apply NoDup_fmap_2_strong; [|apply cell_ids_NoDup].
    intros c1 c2 Hc1 Hc2 Heq. apply (fw_get_inj fw c2 c1); [by apply Hfw|done].
  - intros c'. rewrite elem_of_frame_ids, <- concat_map, !list_elem_of_fmap.
    split.
    + intros [Hnz (c & -> & Hc)]. exists c. split; [done|].
      apply elem_of_frame_ids. split; [|done]. intros ->.
      apply Hnz. unfold fw_get.
      destruct (index_of 0 fw) as [i|] eqn:E; [|done].
      apply index_of_lookup, list_elem_of_lookup_2, elem_of_cell_ids in E.
      by destruct E.
    + intros (c & -> & Hc). split; [by apply fw_get_nonzero, Hfw|].
      exists c. split; [done|]. by apply elem_of_frame_ids in Hc as [_ ?].
Qed.

Lemma frames_loop_ext (f : frame_t -> frame_t) (y : list frame_t) :
  forall max_cells,
    (forall frame, frame ∈ y -> n_cells (f frame) = n_cells frame) ->
    frames_loop (map f y) max_cells = frames_loop y max_cells.
Proof.
  induction y as [|frame y IH]; intros m Hf; simpl; [done|].
  rewrite Hf by left. rewrite !IH by (intros ? ?; apply Hf; by right). done.
Qed.

(** X13. [relabel_sequential_lineage] keeps the greatest number of
    cells in a frame, and the lineage it returns has at least that many
    records. *)
Theorem relabeling_keeps_max_cells (y y_relabel : volume)
    (lineage new_lineage : lineage_t) :
  relabel_sequential_lineage y lineage = Ok (y_relabel, new_lineage) ->
  get_max_cells y_relabel = get_max_cells y
  /\ (get_max_cells y <= length new_lineage)%nat.
Proof.
  intros Hrun. split.
  - rewrite (relabeled_image _ _ _ _ Hrun). unfold get_max_cells.
    apply (frames_loop_ext (map (map (fw_get (nonzero_ids (np_unique y)))))).
    intros frame Hin. by apply n_cells_relabel.
  - etrans; [apply get_max_cells_le_ids|].
    rewrite <- (length_fmap fst new_lineage), (relabel_keys _ _ _ _ Hrun).
    rewrite length_seqZ. lia.
Qed.

Lemma relabeling_keeps_max_cells_witness :
  get_max_cells [[[1]]; [[2]]] = get_max_cells [[[4]]; [[7]]]
  /\ Nat.le (get_max_cells [[[4]]; [[7]]])
       (length [(1, Cell 1 None [2] [0]); (2, Cell 2 (Some 1) [] [1])]).
Proof.
  apply (relabeling_keeps_max_cells [[[4]]; [[7]]] [[[1]]; [[2]]]
           [(7, Cell 7 (Some 4) [] [0; 1; 2]); (4, Cell 4 None [7; 9] [])]
           [(1, Cell 1 None [2] [0]); (2, Cell 2 (Some 1) [] [1])]).
  vm_compute. reflexivity.
Defined.

End CountingFacts.

(** ** Saving and loading through the public functions *)

Module CodecSpecFacts.
Import Codec CodecSpec CodecFacts PyStr PyStrFacts Samples.

Lemma save_trk_one filename d raw tracked w :
  extension_refused ".trk" filename = false ->
  save_trk filename (OneLineage d) raw tracked w
  = save_track_data filename (OneLineage d) raw tracked "lineage.json" w
  /\ save_trk filename (LineageList [d]) raw tracked w
     = save_track_data filename (OneLineage d) raw tracked "lineage.json" w.
Proof. unfold extension_refused, save_trk. by intros ->. Qed.

Lemma save_trks_accepted filename lineages raw tracked w :
  extension_refused ".trks" filename = false ->
  save_trks filename lineages raw tracked w
  = save_track_data filename lineages raw tracked "lineages.json" w.
Proof. unfold extension_refused, save_trks. by intros ->. Qed.

Lemma extension_accepted suffix name :
  (OsPath.splitext name).2 = suffix -> extension_refused suffix (Path name) = false.
Proof.
  intros Hext. unfold extension_refused. simpl.
  by rewrite bool_decide_eq_true_2.
Qed.

(** X14. Saving a lineage mapping with [save_trk], as the mapping or as
    a list of that one mapping, and loading the target with
    [load_trks], gives back the two arrays and the list of that one
    mapping, keys and records unchanged: for a path with the extension
    [.trk] that leads to one file for writing and for reading, and for
    a [BytesIO] that is written from its start and rewound before it is
    loaded.  The arrays are arrays proper and the integers of the
    mapping have no more digits than [json] writes. *)
Theorem save_trk_round_trip (d : lineage_t) (raw tracked : ndarray) (w : world) :
  NoDup d.*1 -> dumpable d = true -> is_array raw -> is_array tracked ->
  (forall name ref,
     (OsPath.splitext name).2 = ".trk" ->
     open_path w Writing name = inr ref -> open_path w Reading name = inr ref ->
     exists w',
       save_trk (Path name) (OneLineage d) raw tracked w = (Ok (), w')
       /\ save_trk (Path name) (LineageList [d]) raw tracked w = (Ok (), w')
       /\ load_trks (Path name) w'
          = Ok {| Codec.lineages := [d]; X := raw; y := tracked |})
  /\ (forall id,
        before (buffer w id) = [] ->
        exists w',
          save_trk (BytesIO id) (OneLineage d) raw tracked w = (Ok (), w')
          /\ save_trk (BytesIO id) (LineageList [d]) raw tracked w = (Ok (), w')
          /\ load_trks (BytesIO id) (rewind id w')
             = Ok {| Codec.lineages := [d]; X := raw; y := tracked |}).
Proof.
  intros Hnd Hok Hraw Htracked.
  destruct (load_saved (OneLineage d) raw tracked raw tracked "lineage.json" w)
    as [Hfile Hbuf];
    [by left|by constructor|by constructor
    |by apply reloaded_array|by apply reloaded_array|].
  split.
  - intros name ref Hext Hw Hr.
    destruct (save_trk_one (Path name) d raw tracked w) as [-> ->];
      [by apply extension_accepted|].
    destruct (Hfile name ref Hw Hr) as (w' & Hsave & Hload). by exists w'.
  - intros id Hstart.
    destruct (save_trk_one (BytesIO id) d raw tracked w) as [-> ->]; [done|].
    destruct (Hbuf id) as (w' & Hsave & Hload & _). exists w'. auto.
Qed.

Lemma save_trk_round_trip_witness :
  (forall name ref,
     (OsPath.splitext name).2 = ".trk" ->
     open_path movie_world Writing name = inr ref ->
     open_path movie_world Reading name = inr ref ->
     exists w',
       save_trk (Path name) (OneLineage [(1, mother); (2, daughter)])
         sample_raw sample_tracked movie_world = (Ok (), w')
       /\ save_trk (Path name) (LineageList [[(1, mother); (2, daughter)]])
            sample_raw sample_tracked movie_world = (Ok (), w')
       /\ load_trks (Path name) w'
          = Ok {| Codec.lineages := [[(1, mother); (2, daughter)]];
                  X := sample_raw; y := sample_tracked |})
  /\ (forall id,
        before (buffer movie_world id) = [] ->
        exists w',
          save_trk (BytesIO id) (OneLineage [(1, mother); (2, daughter)])
            sample_raw sample_tracked movie_world = (Ok (), w')
          /\ save_trk (BytesIO id) (LineageList [[(1, mother); (2, daughter)]])
               sample_raw sample_tracked movie_world = (Ok (), w')
          /\ load_trks (BytesIO id) (rewind id w')
             = Ok {| Codec.lineages := [[(1, mother); (2, daughter)]];
                     X := sample_raw; y := sample_tracked |}).
Proof.
  apply (save_trk_round_trip [(1, mother); (2, daughter)]
           sample_raw sample_tracked movie_world).
  - repeat constructor; set_solver.
  - reflexivity.
  - discriminate.
  - discriminate.
Defined.

(** X15. Saving a list of lineage mappings with [save_trks] and loading
    the target with [load_trks] gives back the two arrays and the list
    of lineages in its order, keys and records unchanged: for a path
    with the extension [.trks] that leads to one file for writing and
    for reading, and for a [BytesIO] that is written from its start and
    rewound before it is loaded.  A second batch saved into the same
    buffer without a rewind comes after the first, and [load_trks] of
    the rewound buffer still returns the first.  The arrays are arrays
    proper and the integers of the lineages have no more digits than
    [json] writes. *)
Theorem save_trks_round_trip (l l2 : list lineage_t) (raw tracked : ndarray)
    (w : world) :
  Forall (fun d : lineage_t => NoDup d.*1) l ->
  Forall (fun d => dumpable d = true) l ->
  Forall (fun d => dumpable d = true) l2 ->
  is_array raw -> is_array tracked ->
  (forall name ref,
     (OsPath.splitext name).2 = ".trks" ->
     open_path w Writing name = inr ref -> open_path w Reading name = inr ref ->
     exists w',
       save_trks (Path name) (LineageList l) raw tracked w = (Ok (), w')
       /\ load_trks (Path name) w'
          = Ok {| Codec.lineages := l; X := raw; y := tracked |})
  /\ (forall id,
        before (buffer w id) = [] ->
        exists w' w'',
          save_trks (BytesIO id) (LineageList l) raw tracked w = (Ok (), w')
          /\ load_trks (BytesIO id) (rewind id w')
             = Ok {| Codec.lineages := l; X := raw; y := tracked |}
          /\ save_trks (BytesIO id) (LineageList l2) raw tracked w' = (Ok (), w'')
          /\ load_trks (BytesIO id) (rewind id w'')
             = Ok {| Codec.lineages := l; X := raw; y := tracked |}).
Proof.
  intros Hnd Hok Hok2 Hraw Htracked.
  assert (exists j, json_dump (LineageList l) = Ok j) as [j Hj]
    by (by apply json_dump_Ok).
  assert (exists j2, json_dump (LineageList l2) = Ok j2) as [j2 Hj2]
    by (by apply json_dump_Ok).
  pose proof (reloaded_array raw Hraw) as (r & Hr & Hraw')%reloaded_Ok.
  pose proof (reloaded_array tracked Htracked) as (t & Ht & Htracked')%reloaded_Ok.
  split.
  - intros name ref Hext Hw Hrd.
    rewrite save_trks_accepted by (by apply extension_accepted).
    eexists. split.
    + apply (save_track_data_Ok _ _ _ _ _ _ (ToFile ref) j r t); [|done..].
      simpl. by rewrite Hw.
    + eapply (load_members _ _ (LineageList l)); [by right|done..|].
      by apply open_written_file.
  - intros id Hstart. rewrite save_trks_accepted by done.
    eexists _, _. split; [|split; [|split]].
    + by apply (save_track_data_Ok _ _ _ _ _ _ (ToBuffer id) j r t).
    + eapply (load_members _ _ (LineageList l)); [by right|done..|].
      by apply open_written_buffer.
    + rewrite save_trks_accepted by done.
      by apply (save_track_data_Ok _ _ _ _ _ _ (ToBuffer id) j2 r t).
    + eapply (load_members _ _ (LineageList l)); [by right|done..|].
      cbn [tarfile_open_r]. rewrite buffer_rewound, !buffer_written.
      cbn [before after]. by rewrite Hstart.
Qed.

Lemma save_trks_round_trip_witness :
  (forall name ref,
     (OsPath.splitext name).2 = ".trks" ->
     open_path movie_world Writing name = inr ref ->
     open_path movie_world Reading name = inr ref ->
     exists w',
       save_trks (Path name) (LineageList [[(1, mother)]; []])
         sample_raw sample_tracked movie_world = (Ok (), w')
       /\ load_trks (Path name) w'
          = Ok {| Codec.lineages := [[(1, mother)]; []];
                  X := sample_raw; y := sample_tracked |})
  /\ (forall id,
        before (buffer movie_world id) = [] ->
        exists w' w'',
          save_trks (BytesIO id) (LineageList [[(1, mother)]; []])
            sample_raw sample_tracked movie_world = (Ok (), w')
          /\ load_trks (BytesIO id) (rewind id w')
             = Ok {| Codec.lineages := [[(1, mother)]; []];
                     X := sample_raw; y := sample_tracked |}
          /\ save_trks (BytesIO id) (LineageList [[(2, daughter)]])
               sample_raw sample_tracked w' = (Ok (), w'')
          /\ load_trks (BytesIO id) (rewind id w'')
             = Ok {| Codec.lineages := [[(1, mother)]; []];
                     X := sample_raw; y := sample_tracked |}).
Proof.
  apply (save_trks_round_trip [[(1, mother)]; []] [[(2, daughter)]]
           sample_raw sample_tracked movie_world).
  - repeat constructor; set_solver.
  - by repeat constructor.
  - by repeat constructor.
  - discriminate.
  - discriminate.
Defined.

(** *** What a save leaves as it was *)








(** *** Keys that are not integers *)

Lemma dict_set_keys {K} `{EqDecision K} (d : dict K cell) k v k' :
  k' ∈ (dict_set d k v).*1 <-> k' = k \/ k' ∈ d.*1.
Proof.
  induction d as [|[k0 v0] d IH]; simpl.
  - rewrite list_elem_of_singleton. set_solver.
  - case_decide as Hk; simpl; rewrite !elem_of_cons; [subst; tauto|].
    rewrite IH. tauto.
Qed.






(** A key with the character U+001F before the digit is not accepted:
    [int] does not take that character for white space. *)
Example unit_separator_key_is_refused :
  int_of_str (String (ascii_of_nat 31) "8") = Raise int_error
  /\ int_of_str " 8" = Ok 8.
Proof. split; by vm_compute. Qed.

End CodecSpecFacts.

(** ** The importer, from the directory to the batch archive *)

Module ImporterSpecFacts.
Import Codec CodecSpec CodecFacts CodecSpecFacts PyStr PyStrFacts.
Import Importer ImporterSpec ImporterFacts Samples.

Lemma dict_set_NoDup {K} `{EqDecision K} (d : dict K cell) k v :
  NoDup d.*1 -> NoDup (dict_set d k v).*1.
Proof.
  induction d as [|[k0 v0] d IH]; simpl.
  - intros _. repeat constructor. apply not_elem_of_nil.
  - rewrite NoDup_cons. intros [Hfresh Hnd].
    case_decide as Hk; simpl; rewrite NoDup_cons; [by subst|].
    split; [|by apply IH]. rewrite dict_set_keys. intros [-> | ?]; done.
Qed.

Lemma int_keys_NoDup (tracks : dict string cell) : forall acc d,
  NoDup acc.*1 -> int_keys tracks acc = Ok d -> NoDup d.*1.
Proof.
  induction tracks as [|[k v] tracks IH]; intros acc d Hnd; simpl.
  - by intros [= <-].
  - destruct (PyStr.int_of_str k) as [n|]; [|done]. rewrite bind_ok.
    apply IH. by apply dict_set_NoDup.
Qed.

Lemma mapM_Ok {A B} (f : A -> result B) (l : list A) (k : list B) :
  mapM f l = Ok k -> Forall2 (fun x y => f x = Ok y) l k.
Proof.
  revert k. induction l as [|x l IH]; intros k; simpl.
  - intros [= <-]. constructor.
  - destruct (f x) as [y|] eqn:E; [|done]. rewrite bind_ok.
    destruct (mapM f l) as [k'|]; [|done]. rewrite bind_ok.
    intros [= <-]. constructor; [done|]. by apply IH.
Qed.

(** *** What [load_trks] returns can be saved *)

Lemma string_of_uint_length (u : uint) :
  String.length (NilEmpty.string_of_uint u) = nb_digits u.
Proof. induction u; simpl; congruence. Qed.

Lemma uint_of_string_digits (s : string) (u : uint) :
  NilEmpty.uint_of_string s = Some u -> nb_digits u = String.length s.
Proof.
  intros Hu%NilEmpty.sus. by rewrite <- Hu, string_of_uint_length.
Qed.

Lemma string_length_of_list (l : list ascii) :
  String.length (string_of_list_ascii l) = length l.
Proof. induction l; simpl; congruence. Qed.

Lemma int_digits_of_uint (u : uint) (negative : bool) :
  u <> Nil ->
  (int_digits (if negative then - Z.of_uint u else Z.of_uint u) <= nb_digits u)%nat.
Proof.
  intros Hu.
  assert (0 <= Z.of_uint u) as Hpos by (unfold Z.of_uint; lia).
  assert (Z.abs (if negative then - Z.of_uint u else Z.of_uint u) = Z.of_uint u)
    as Habs by (destruct negative; lia).
  unfold int_digits, str_of_int. rewrite Habs.
  change (Z.of_uint u) with (Z.of_int (Pos u)). rewrite DecimalZ.to_of.
  cbn [norm NilZero.string_of_int].
  pose proof (DecimalFacts.nb_digits_unorm u Hu) as Hle.
  pose proof (DecimalFacts.unorm_nonnil u) as Hnonnil.
  destruct (unorm u) as [| | | | | | | | | |] eqn:E; [done|..];
    cbn [NilZero.string_of_uint]; rewrite string_of_uint_length; lia.
Qed.

Lemma literal_digits_nonempty (body ds : list ascii) :
  literal_digits false body = Some ds -> ds <> [].
Proof.
  destruct body as [|c body]; [done|]. simpl.
  destruct (is_digit c).
  - destruct (literal_digits true body); [|done]. by intros [= <-].
  - by case_decide.
Qed.

(** The integer that [int] returns has no more digits than [str]
    writes. *)
Lemma int_of_str_int_ok (s : string) (n : Z) :
  int_of_str s = Ok n -> int_ok n = true.
Proof.
  unfold int_of_str.
  destruct (match strip (list_ascii_of_string s) with
            | [] => _ | _ :: _ => _ end) as [negative body].
  destruct (literal_digits false body) as [ds|] eqn:Hds; [|done].
  apply literal_digits_nonempty in Hds.
  destruct (max_str_digits <? length ds)%nat eqn:Hlim; [done|].
  apply Nat.ltb_ge in Hlim.
  destruct (NilEmpty.uint_of_string _) as [u|] eqn:Hu; [|done].
  intros [= <-]. apply int_ok_digits.
  apply uint_of_string_digits in Hu as Hlen.
  rewrite string_length_of_list in Hlen.
  assert (u <> Nil) as Hnil.
  { intros ->. simpl in Hlen. by destruct ds. }
  pose proof (int_digits_of_uint u negative Hnil). lia.
Qed.

Lemma dict_set_Forall {K} `{EqDecision K} (P : K * cell -> Prop)
    (d : dict K cell) k v :
  Forall P d -> P (k, v) -> Forall P (dict_set d k v).
Proof.
  intros Hd Hv. induction Hd as [|[k0 v0] d H0 Hd IH]; simpl.
  - by repeat constructor.
  - case_decide; subst; constructor; done.
Qed.

Lemma build_dict_records_ok (items : list (string * cell)) :
  forallb (fun kv => record_ok kv.2) items = true ->
  Forall (fun kv => record_ok kv.2 = true) (build_dict items).
Proof.
  unfold build_dict. intros Hitems%forallb_true_Forall.
  assert (forall acc : dict string cell,
            Forall (fun kv => record_ok kv.2 = true) acc ->
            Forall (fun kv => record_ok kv.2 = true)
              (foldl (fun d kv => dict_set d kv.1 kv.2) acc items)) as Hgen.
  { induction Hitems as [|[k v] items Hv _ IH]; intros acc Hacc; simpl; [done|].
    apply IH. by apply dict_set_Forall. }
  apply Hgen. constructor.
Qed.

Lemma dumpable_Forall (d : lineage_t) :
  dumpable d = true
  <-> Forall (fun kv => int_ok kv.1 = true /\ record_ok kv.2 = true) d.
Proof.
  unfold dumpable. rewrite forallb_true_Forall.
  apply Forall_iff. intros kv. apply andb_true_iff.
Qed.

Lemma int_keys_dumpable (tracks : dict string cell) : forall acc d,
  Forall (fun kv => record_ok kv.2 = true) tracks -> dumpable acc = true ->
  int_keys tracks acc = Ok d -> dumpable d = true.
Proof.
  induction tracks as [|[k v] tracks IH]; intros acc d Hrec Hacc; simpl.
  - by intros [= <-].
  - apply Forall_cons in Hrec as [Hv Hrec].
    destruct (int_of_str k) as [n|] eqn:E; [|done]. rewrite bind_ok.
    apply IH; [done|]. apply dumpable_Forall.
    apply dict_set_Forall; [by apply dumpable_Forall|].
    split; [by eapply int_of_str_int_ok|done].
Qed.

(** The mappings [load_trks] returns have no repeated key, and no
    integer of more digits than [json] writes. *)
Lemma load_trks_dumpable (filename : target) (w : world) (l : loaded) :
  load_trks filename w = Ok l ->
  Forall (fun d : lineage_t => NoDup d.*1 /\ dumpable d = true) (lineages l).
Proof.
  unfold load_trks.
  destruct (tarfile_open_r filename w) as [trks|]; [|done]. rewrite bind_ok.
  destruct (getmember trks "raw.npy" ≫= np_load) as [raw|]; [|done].
  rewrite bind_ok.
  destruct (getmember trks "tracked.npy" ≫= np_load) as [tracked|]; [|done].
  rewrite bind_ok.
  destruct (find_lineage trks) as [c|]; [|done]. rewrite bind_ok.
  destruct (decode_lineages c) as [ls|] eqn:E; [|done]. rewrite bind_ok.
  intros [= <-]. simpl. unfold decode_lineages in E.
  destruct (json_loads c) as [v|] eqn:Ev; [|done]. rewrite bind_ok in E.
  assert (Forall (Forall (fun kv : string * cell => record_ok kv.2 = true))
            match v with PyList l => l | PyDict d => [d] end) as Hrec.
  { unfold json_loads in Ev. destruct c as [a|j]; [done|].
    destruct (document_ok j) eqn:Hdoc; [|done].
    destruct j as [items|objs]; injection Ev as <-; simpl in Hdoc.
    - constructor; [|constructor]. by apply build_dict_records_ok.
    - apply Forall_forall. intros d (items & -> & Hin)%list_elem_of_fmap.
      apply build_dict_records_ok.
      apply forallb_true_Forall in Hdoc. by eapply Forall_forall in Hdoc. }
  apply mapM_Ok in E. apply Forall_forall. intros d Hd.
  apply list_elem_of_lookup in Hd as [i Hi].
  destruct (Forall2_lookup_r _ _ _ _ _ E Hi) as (tracks & Htracks & Hkeys).
  split.
  - eapply int_keys_NoDup; [|exact Hkeys]. constructor.
  - eapply int_keys_dumpable; [| |exact Hkeys]; [|done].
    eapply Forall_forall in Hrec; [done|]. by eapply list_elem_of_lookup_2.
Qed.

(** The first lineages of loaded files. *)
Lemma heads_dumpable dirname w names trks ds :
  Forall2 (fun f l => load_trks (Path (OsPath.join dirname f)) w = Ok l)
    names trks ->
  Forall2 (fun l d => head (lineages l) = Some d) trks ds ->
  Forall (fun d : lineage_t => NoDup d.*1 /\ dumpable d = true) ds.
Proof.
  intros Hloads Hheads. apply Forall_forall. intros d Hd.
  apply list_elem_of_lookup in Hd as [i Hi].
  destruct (Forall2_lookup_r _ _ _ _ _ Hheads Hi) as (l & Hl & Hhead).
  destruct (Forall2_lookup_r _ _ _ _ _ Hloads Hl) as (f & _ & Hload).
  apply load_trks_dumpable in Hload. rewrite Forall_forall in Hload.
  apply Hload. destruct (lineages l); simplify_eq/=. left.
Qed.

(** X18. When the names of the directory sort, every file loads and
    has a lineage, and the path of the batch archive has the extension
    [.trks] and leads to one file for writing and for reading, the
    importer saves the first lineage of each file and the two lists of
    arrays, in the natural order of the file names.  When [np.save]
    makes one array of each list of arrays, the importer returns, and
    [load_trks] on the batch archive gives the lineages and those
    arrays; when [np.save] raises for one of the two lists (arrays of
    different shapes), the importer raises its exception. *)
Theorem import_then_load (dirname trks_filename : string) (w : world)
    (file_list sorted : list string) (trks : list loaded) (ds : list lineage_t)
    (ref : file_ref) :
  listdir dirname w = Ok file_list ->
  file_list_sorted file_list = Ok sorted ->
  Forall2 (fun f l => load_trks (Path (OsPath.join dirname f)) w = Ok l)
    sorted trks ->
  Forall2 (fun l d => head (lineages l) = Some d) trks ds ->
  (OsPath.splitext (OsPath.join (OsPath.dirname dirname) trks_filename)).2
  = ".trks" ->
  open_path w Writing (OsPath.join (OsPath.dirname dirname) trks_filename)
  = inr ref ->
  open_path w Reading (OsPath.join (OsPath.dirname dirname) trks_filename)
  = inr ref ->
  (forall Xs ys,
     reloaded (ListOf (X <$> trks)) = Ok Xs ->
     reloaded (ListOf (y <$> trks)) = Ok ys ->
     exists w',
       trk_folder_to_trks dirname trks_filename w = (Ok (), w')
       /\ load_trks (Path (OsPath.join (OsPath.dirname dirname) trks_filename)) w'
          = Ok {| lineages := ds; X := Xs; y := ys |})
  /\ (forall e,
        np_save (ListOf (X <$> trks)) = Raise e
        \/ (is_ok (np_save (ListOf (X <$> trks)))
            /\ np_save (ListOf (y <$> trks)) = Raise e) ->
        exists w', trk_folder_to_trks dirname trks_filename w = (Raise e, w')).
Proof.
  intros Hdir Hsorted Hloads Hheads Hext Hw Hr.
  pose proof (heads_dumpable _ _ _ _ _ Hloads Hheads) as Hds.
  apply Forall_and in Hds as [Hnd Hok].
  rewrite (importer_unfold _ _ _ _ Hdir), Hsorted, bind_ok.
  rewrite (load_loop_returns _ _ _ _ trks ds Hloads Hheads). cbn [fst snd app].
  set (out := OsPath.join (OsPath.dirname dirname) trks_filename) in *.
  rewrite save_trks_accepted by (by apply extension_accepted).
  split.
  - intros Xs ys HX Hy.
    destruct (load_saved (LineageList ds) (ListOf (X <$> trks))
                (ListOf (y <$> trks)) Xs ys "lineages.json" w)
      as [Hfile _]; [by right|done..|].
    apply (Hfile out ref Hw Hr).
  - intros e He.
    assert (exists j, json_dump (LineageList ds) = Ok j) as [j Hj]
      by (by apply json_dump_Ok).
    unfold save_track_data. cbn [tarfile_open_w]. rewrite Hw.
    cbn [os_result fmap result_fmap]. unfold add_members. rewrite Hj.
    destruct He as [-> | [[c ->] ->]]; eauto.
Qed.

Lemma import_then_load_witness :
  (forall Xs ys,
     reloaded (ListOf (X <$> [Loaded [[(1, Cell 1 None [] [0])]] sample_raw sample_tracked;
                              Loaded [[(2, Cell 2 None [] [0])]] sample_raw sample_tracked;
                              Loaded [[(10, Cell 10 None [] [0])]] sample_raw sample_tracked]))
     = Ok Xs ->
     reloaded (ListOf (y <$> [Loaded [[(1, Cell 1 None [] [0])]] sample_raw sample_tracked;
                              Loaded [[(2, Cell 2 None [] [0])]] sample_raw sample_tracked;
                              Loaded [[(10, Cell 10 None [] [0])]] sample_raw sample_tracked]))
     = Ok ys ->
     exists w',
       trk_folder_to_trks "data/movies" "all.trks" movie_world = (Ok (), w')
       /\ load_trks (Path (OsPath.join (OsPath.dirname "data/movies") "all.trks")) w'
          = Ok {| lineages := [[(1, Cell 1 None [] [0])]; [(2, Cell 2 None [] [0])];
                               [(10, Cell 10 None [] [0])]];
                  X := Xs; y := ys |})
  /\ (forall e,
        np_save (ListOf (X <$> [Loaded [[(1, Cell 1 None [] [0])]] sample_raw sample_tracked;
                                Loaded [[(2, Cell 2 None [] [0])]] sample_raw sample_tracked;
                                Loaded [[(10, Cell 10 None [] [0])]] sample_raw sample_tracked]))
        = Raise e
        \/ (is_ok (np_save (ListOf (X <$> [Loaded [[(1, Cell 1 None [] [0])]] sample_raw sample_tracked;
                                           Loaded [[(2, Cell 2 None [] [0])]] sample_raw sample_tracked;
                                           Loaded [[(10, Cell 10 None [] [0])]] sample_raw sample_tracked])))
            /\ np_save (ListOf (y <$> [Loaded [[(1, Cell 1 None [] [0])]] sample_raw sample_tracked;
                                       Loaded [[(2, Cell 2 None [] [0])]] sample_raw sample_tracked;
                                       Loaded [[(10, Cell 10 None [] [0])]] sample_raw sample_tracked]))
               = Raise e) ->
        exists w', trk_folder_to_trks "data/movies" "all.trks" movie_world
                   = (Raise e, w')).
Proof.
  apply (import_then_load "data/movies" "all.trks" movie_world
           ["movie10.trk"; "movie1.trk"; "movie2.trk"]
           ["movie1.trk"; "movie2.trk"; "movie10.trk"]
           [Loaded [[(1, Cell 1 None [] [0])]] sample_raw sample_tracked;
            Loaded [[(2, Cell 2 None [] [0])]] sample_raw sample_tracked;
            Loaded [[(10, Cell 10 None [] [0])]] sample_raw sample_tracked]
           [[(1, Cell 1 None [] [0])]; [(2, Cell 2 None [] [0])];
            [(10, Cell 10 None [] [0])]]
           (FileRef 20 1 "all.trks")).
  - reflexivity.
  - by vm_compute.
  - repeat constructor.
  - repeat constructor.
  - reflexivity.
  - reflexivity.
  - reflexivity.
Defined.

(** Two movies whose arrays have different shapes: both load, and the
    importer raises the [ValueError] of [np.save]. *)
Example import_of_different_shapes :
  let w := table_world
             [("data/a.trk", FileRef 1 1 "a.trk"); ("data/b.trk", FileRef 2 1 "b.trk");
              ("all.trks", FileRef 3 0 "all.trks")]
             [("data", 1%nat)]
             {[ 1%nat := TarFile (movie 1);
                2%nat := TarFile [("lineage.json", JsonFile (JObject []));
                                  ("raw.npy", NpyFile (Npy "<f4" [1; 2; 1]%nat
                                                         [Byte.x00; Byte.x01]));
                                  ("tracked.npy", tracked_member)] ]}
             {[ 1%nat := ["a.trk"; "b.trk"] ]} ∅ in
  is_ok (load_trks (Path "data/a.trk") w)
  /\ is_ok (load_trks (Path "data/b.trk") w)
  /\ (trk_folder_to_trks "data" "all.trks" w).1 = Raise np_save_error.
Proof. repeat split; try (eexists; by vm_compute). Qed.

(** X19. One file of the directory that does not load, or that loads
    with an empty list of lineages, makes the importer raise, and
    nothing is written. *)
Theorem import_aborts_on_bad_file (dirname trks_filename : string) (w : world)
    (file_list : list string) (f : string) :
  listdir dirname w = Ok file_list ->
  f ∈ file_list ->
  (forall l, load_trks (Path (OsPath.join dirname f)) w = Ok l -> lineages l = []) ->
  exists e, trk_folder_to_trks dirname trks_filename w = (Raise e, w).
Proof.
  intros Hdir Hin Hbad. rewrite (importer_unfold _ _ _ _ Hdir).
  destruct (file_list_sorted_spec file_list)
    as [(sorted & Hsorted & Hperm & _) | [Hraise _]].
  - rewrite <- Hperm in Hin.
    destruct (load_loop_raises dirname w f sorted ([], [], []) Hin Hbad) as [e He].
    exists e. by rewrite Hsorted, bind_ok, He.
  - exists int_error. by rewrite Hraise.
Qed.

Lemma import_aborts_on_bad_file_witness :
  exists e,
    trk_folder_to_trks "data" "all.trks"
      (table_world
         [("data/both.trk", FileRef 1 1 "both.trk");
          ("data/notes.txt", FileRef 2 1 "notes.txt")]
         [("data", 1%nat)]
         {[ 1%nat := TarFile both_entries; 2%nat := OtherFile ]}
         {[ 1%nat := ["both.trk"; "notes.txt"] ]} ∅)
    = (Raise e,
       table_world
         [("data/both.trk", FileRef 1 1 "both.trk");
          ("data/notes.txt", FileRef 2 1 "notes.txt")]
         [("data", 1%nat)]
         {[ 1%nat := TarFile both_entries; 2%nat := OtherFile ]}
         {[ 1%nat := ["both.trk"; "notes.txt"] ]} ∅).
Proof.
  apply (import_aborts_on_bad_file "data" "all.trks"
           (table_world
              [("data/both.trk", FileRef 1 1 "both.trk");
               ("data/notes.txt", FileRef 2 1 "notes.txt")]
              [("data", 1%nat)]
              {[ 1%nat := TarFile both_entries; 2%nat := OtherFile ]}
              {[ 1%nat := ["both.trk"; "notes.txt"] ]} ∅)
           ["both.trk"; "notes.txt"] "notes.txt").
  - reflexivity.
  - right. left.
  - intros l Hl. vm_compute in Hl. discriminate.
Defined.



End ImporterSpecFacts.
